(** * Euler plotter: the expression sandbox, the integrator, the exact-curve
      sampler, the error analyzer, the table, the prompts and [main] of
      [euler-plotter.py]

    Numbers are Python [float]s, that is IEEE 754 binary64 values with
    round-to-nearest-even arithmetic: they are modelled by Rocq's primitive
    floats, whose operations are the same functions.  Python [int]s are [Z].
    A call that can raise is a function into [result]; the unbounded loops
    (the [while t < t_end] of [euler_method], the [while True] of the
    prompts) take a bound on their number of iterations.  A function that
    reads standard input or writes to standard output is a function of the
    lines not read yet, which gives what it wrote with its result.

    [euler_method], [smooth_exact_curve], [compute_max_error] and
    [print_sample_table] are stated twice: on numbers, as their docstrings
    have them, and on objects, as [main] calls them with functions that
    return whatever [eval] returns.  [eval], the operations of the
    interpreter on objects and [plt] are parameters, which take and return
    the state of the interpreter. *)

From Stdlib Require Import ZArith List Bool Lia Floats.
From stdpp Require Import gmap strings.
Import ListNotations.

(* Decimal literals denote the nearest binary64 value, as in Python. *)
#[local] Set Warnings "-inexact-float".

#[local] Open Scope Z_scope.

(** ** Exceptions and results *)

(** The exceptions ([Exception] subclasses) the modelled code can meet. *)
Inductive exn : Type :=
| LookupFailure (id : string)   (* a name found in no namespace *)
| TypeError
| ValueError                    (* math domain error *)
| ZeroDivisionError
| OverflowError
| IndexError.

Inductive result (A : Type) : Type :=
| Return (a : A)
| Raise (e : exn).
Arguments Return {A} a.
Arguments Raise {A} e.

#[global] Instance result_ret : MRet result := fun _ a => Return a.
#[global] Instance result_bind : MBind result := fun _ _ k m =>
  match m with
  | Return a => k a
  | Raise e => Raise e
  end.

Definition succeeds {A} (r : result A) : bool :=
  match r with Return _ => true | Raise _ => false end.

(** ** Python numbers *)

(** [float(n)] for an [int] [n]: the nearest binary64 value, ties to even;
    [OverflowError] when [n] is too large for a finite one. *)
Definition float_of_Z (n : Z) : float :=
  SF2Prim (binary_normalize prec emax n 0 false).

Definition float_of_int (n : Z) : result float :=
  let x := float_of_Z n in
  if PrimFloat.is_infinity x then Raise OverflowError else Return x.

(** [a / b] on floats: [ZeroDivisionError] on a zero divisor. *)
Definition float_div (a b : float) : result float :=
  if (b =? 0)%float then Raise ZeroDivisionError else Return (a / b)%float.

(** ** The representation of binary64 values *)

(** The exponent a value with [k] digits above [2 ^ 0] is stored with. *)
Abbreviation fexp64 := (fexp prec emax).

(** The number of binary digits of a mantissa. *)
Definition digits (m : positive) : Z := Zpos (digits2_pos m).

(** [2 ^ e] in units of the smallest positive value, [2 ^ -1074]: a mantissa
    [m] with exponent [e] stands for [m * weight e] units. *)
Definition weight (e : Z) : Z := 2 ^ (e + 1074).

(** *** Values as integers

    To compare the results of additions and of multiplications, a finite
    value [m * 2 ^ e] is read as the integer [m * 2 ^ (e + 2200)]: the
    exponent of a product of two binary64 values is [-2148] at least. *)

(** [V / q] rounded to the nearest integer, ties to even. *)
Definition rnd_digit (V q : Z) : Z :=
  if 2 * (V mod q) <? q then V / q
  else if 2 * (V mod q) =? q then (if Z.even (V / q) then V / q else V / q + 1)
  else V / q + 1.

(** [2 ^ e] in units of [2 ^ -2200]. *)
Definition scale (e : Z) : Z := 2 ^ (e + 2200).

(** The exponent a value of [V] units is stored with. *)
Definition ulp_exponent (V : Z) : Z := fexp64 (Zdigits2 V - 2200).

(** A value of [V] units rounded to the nearest binary64 value, overflow
    apart. *)
Definition round_units (V : Z) : Z :=
  rnd_digit V (scale (ulp_exponent V)) * scale (ulp_exponent V).

(** What stands for an infinity: more units than any finite value has. *)
Definition huge : Z := 2 ^ 5000.

(** The key of a value: the values that are numbers are ordered as their
    keys are. *)
Definition key (x : spec_float) : Z :=
  match x with
  | S754_zero _ => 0
  | S754_finite s m e => if s then - (Zpos m * scale e) else Zpos m * scale e
  | S754_infinity s => if s then - huge else huge
  | S754_nan => 0
  end.

Definition is_number_sf (x : spec_float) : bool :=
  match x with S754_nan => false | _ => true end.

Definition finite_sf (x : spec_float) : bool :=
  match x with S754_zero _ | S754_finite _ _ _ => true | _ => false end.

(** A value that is a number and not negative. *)
Definition not_negative (x : spec_float) : bool :=
  match x with
  | S754_zero _ => true
  | S754_finite s _ _ | S754_infinity s => negb s
  | S754_nan => false
  end.

(** Overflow: a value of [scale 1024] units or more is infinite. *)
Definition cap (V : Z) : Z := if V <? scale 1024 then V else huge.

(** The rounding of a value of any sign, as a key. *)
Definition round_key (A : Z) : Z :=
  if A =? 0 then 0
  else if 0 <? A then cap (round_units A) else - cap (round_units (- A)).

(** The exact sums of binary64 values: zero, or the smallest positive value
    at least. *)
Definition admissible (A : Z) : Prop := A = 0 \/ scale (-1074) <= Z.abs A.

(** The step of a grid that goes forward: a zero or a positive finite
    value. *)
Definition forward_step (s : spec_float) : Prop :=
  (exists ss, s = S754_zero ss) \/ (exists ms es, s = S754_finite false ms es).

(** ** The expression sandbox *)

(** The functions [make_safe_eval_env] hands to expressions. *)
Inductive callable : Type :=
| math_sin | math_cos | math_tan | math_asin | math_acos | math_atan
| math_sqrt | math_exp | math_log | math_log10
| math_sinh | math_cosh | math_tanh
| math_floor | math_ceil | math_fabs | math_pow
| builtin_abs | builtin_min | builtin_max.

(** Python objects: what a name is bound to, what an expression evaluates
    to.  [VObject] stands for an object of any other kind (a complex number,
    a string, a module, a class, ...), named by its identity. *)
Inductive value : Type :=
| VFloat (x : float)
| VInt (n : Z)
| VBool (b : bool)
| VNone
| VCallable (c : callable)
| VObject (id : positive).

(** A namespace: a [dict] with [str] keys. *)
Abbreviation namespace := (gmap string value).

Definition math_pi : float := 0x1.921fb54442d18p+1%float.
Definition math_e : float := 0x1.5bf0a8b145769p+1%float.

Definition make_safe_eval_env : namespace :=
  list_to_map
    [ ("pi", VFloat math_pi); ("e", VFloat math_e);
      ("sin", VCallable math_sin); ("cos", VCallable math_cos);
      ("tan", VCallable math_tan); ("asin", VCallable math_asin);
      ("acos", VCallable math_acos); ("atan", VCallable math_atan);
      ("sqrt", VCallable math_sqrt); ("exp", VCallable math_exp);
      ("log", VCallable math_log); ("log10", VCallable math_log10);
      ("sinh", VCallable math_sinh); ("cosh", VCallable math_cosh);
      ("tanh", VCallable math_tanh); ("floor", VCallable math_floor);
      ("ceil", VCallable math_ceil); ("fabs", VCallable math_fabs);
      ("pow", VCallable math_pow); ("abs", VCallable builtin_abs);
      ("min", VCallable builtin_min); ("max", VCallable builtin_max) ].

(** The globals of every [eval] call: [{"__builtins__": None, **allowed}]
    (a later key wins). *)
Definition eval_globals (allowed : namespace) : namespace :=
  allowed ∪ {[ "__builtins__" := VNone ]}.

(** The locals of a call of [f] and of [g]: [{"y": y, "t": t}] and
    [{"t": t}].  In this program [t] is always a float; [y] is whatever the
    caller passes. *)
Definition f_locals (y : value) (t : float) : namespace :=
  {[ "y" := y; "t" := VFloat t ]}.
Definition g_locals (t : float) : namespace :=
  {[ "t" := VFloat t ]}.

(** Compiled expressions, in the grammar of the specification: numeric
    literals, identifiers, unary and binary arithmetic operators, calls. *)
Inductive unaryop : Type := UAdd | USub.
Inductive operator : Type := Add | Sub | Mult | Div | Pow.

#[local] Unset Elimination Schemes.
Inductive expr : Type :=
| ConstFloat (x : float)
| ConstInt (n : Z)
| Name (id : string)
| UnaryOp (op : unaryop) (operand : expr)
| BinOp (lhs : expr) (op : operator) (rhs : expr)
| Call (func : expr) (args : list expr).
#[local] Set Elimination Schemes.

(** The interpreter: what it does with operators, with calls and with a name
    that is in neither namespace when the globals have no ["__builtins__"]
    entry is left open; everything below holds whatever these are. *)
Record interpreter : Type := Interpreter {
  unary_op : unaryop -> value -> result value;
  binary_op : operator -> value -> value -> result value;
  call_object : value -> list value -> result value;
  own_builtins : string -> result value
}.

(** The arguments of a call, evaluated in order. *)
Definition eval_each (ev : expr -> result value) : list expr -> result (list value) :=
  fix go (l : list expr) : result (list value) :=
    match l with
    | [] => Return []
    | a :: l' =>
        v ← ev a;
        vs ← go l';
        Return (v :: vs)
    end.

Section Eval.
Variable py : interpreter.
Variables globals locals : namespace.

(** Modelled from the spec: name resolution of [eval(code, globals, locals)],
    which is the host language's and not in the source.  A name is looked
    up in the locals, then in the globals, then in the builtins, which are
    whatever the globals hold under ["__builtins__"]: with [None] there the
    lookup fails; with no entry at all [eval] supplies the interpreter's own
    builtins. *)
Definition load_name (id : string) : result value :=
  match locals !! id with
  | Some v => Return v
  | None =>
      match globals !! id with
      | Some v => Return v
      | None =>
          match globals !! "__builtins__" with
          | Some _ => Raise (LookupFailure id)
          | None => own_builtins py id
          end
      end
  end.

(** Modelled from the spec: evaluation of a compiled expression, operands
    left to right, the called object before its arguments; the first
    exception ends the evaluation.  The name [__debug__] is no look-up: the
    compiler has made it the constant [True]. *)
Fixpoint eval_expr (e : expr) : result value :=
  match e with
  | ConstFloat x => Return (VFloat x)
  | ConstInt n => Return (VInt n)
  | Name id => if String.eqb id "__debug__" then Return (VBool true) else load_name id
  | UnaryOp op operand =>
      v ← eval_expr operand;
      unary_op py op v
  | BinOp lhs op rhs =>
      l ← eval_expr lhs;
      r ← eval_expr rhs;
      binary_op py op l r
  | Call func args =>
      fv ← eval_expr func;
      avs ← eval_each eval_expr args;
      call_object py fv avs
  end.
End Eval.

(** ** The adapters [build_f_function] and [build_g_function] *)

Section Adapters.
(** Code objects, and [eval(code, globals, locals)], which is the host
    language's.  [eval] returns an object or raises.  What it does can
    depend on the state of the interpreter, and change it: by attribute
    access on the objects it is handed an expression reaches objects that can
    be written to (the dictionary of the module [math], through
    [sin.__self__]).  [world] is that state. *)
Variables code world : Type.
Variable eval : code -> namespace -> namespace -> world -> result value * world.

(** The closure [f] (or [g]): the cells it captures.  [allowed] is a
    dictionary created once, when the adapter is built, and shared by all
    the calls. *)
Record closure : Type := Closure {
  allowed : namespace;
  captured_code : code
}.

Definition build_f_function (f_code : code) : closure :=
  Closure make_safe_eval_env f_code.

Definition build_g_function (g_code : code) : closure :=
  Closure make_safe_eval_env g_code.

(** A call [f(y, t)]: new locals, and new globals filled from [allowed], are
    handed to [eval]; what [eval] returns is returned as it is, whatever
    kind of object it is, and what [eval] raises propagates. *)
Definition call_f (f : closure) (y : value) (t : float) (w : world)
  : result value * world :=
  let local_vars := f_locals y t in
  eval (captured_code f) (eval_globals (allowed f)) local_vars w.

Definition call_g (g : closure) (t : float) (w : world) : result value * world :=
  let local_vars := g_locals t in
  eval (captured_code g) (eval_globals (allowed g)) local_vars w.
End Adapters.

Arguments Closure {code} _ _.
Arguments allowed {code} _.
Arguments captured_code {code} _.
Arguments build_f_function {code} _.
Arguments build_g_function {code} _.
Arguments call_f {code world} _ _ _ _ _.
Arguments call_g {code world} _ _ _ _.

(** [eval] on the expressions of the grammar above: it changes nothing in
    the interpreter. *)
Definition eval_code {world} (py : interpreter) (e : expr) (globals locals : namespace)
    (w : world) : result value * world :=
  (eval_expr py globals locals e, w).

(** ** Standard output *)

(** The lines [euler_method] prints when [f] raises. *)
Inductive line : Type :=
| ErrorEvaluatingF (y t : float) (* "  There was an error evaluating f(y, t) at y={}, t={}:" *)
| ReprOf (e : exn)               (* "   ", repr(e) *)
| StoppingEarly.                 (* "  Stopping the Euler computation early." *)

(** ** [euler_method] *)

Record euler_output : Type := EulerOutput {
  t_values : list float;
  y_values : list float;
  printed : list line
}.

(** The Trajectory of the specification: the returned lists read as points. *)
Definition trajectory (r : euler_output) : list (float * float) :=
  combine (t_values r) (y_values r).

Section Euler.
(** The derivative, as the specification has it: a function of two numbers
    that returns a number or raises. *)
Variable f : float -> float -> result float.
Variables t_end delta_t : float.

(** The [while t < t_end] loop from the state [(t, y, t_values, y_values)];
    [fuel] bounds the number of iterations, [None] is a loop still running
    when the bound is reached. *)
Fixpoint euler_loop (fuel : nat) (t y : float) (t_values y_values : list float)
  {struct fuel} : option euler_output :=
  if (t <? t_end)%float then
    match fuel with
    | O => None
    | S fuel' =>
        match f y t with
        | Raise e =>
            Some (EulerOutput t_values y_values
                    [ErrorEvaluatingF y t; ReprOf e; StoppingEarly])
        | Return slope =>
            let y_next := (y + delta_t * slope)%float in
            let t_next := (t + delta_t)%float in
            euler_loop fuel' t_next y_next
              (t_values ++ [t_next]) (y_values ++ [y_next])
        end
    end
  else Some (EulerOutput t_values y_values []).

(** What [k] completed iterations of the loop make of the initial state. *)
Inductive iterates (t0 y0 : float) :
  nat -> float -> float -> list float -> list float -> Prop :=
| iterates_O : iterates t0 y0 O t0 y0 [t0] [y0]
| iterates_S k t y tv yv slope :
    iterates t0 y0 k t y tv yv ->
    (t <? t_end)%float = true ->
    f y t = Return slope ->
    iterates t0 y0 (S k) (t + delta_t)%float (y + delta_t * slope)%float
      (tv ++ [(t + delta_t)%float])
      (yv ++ [(y + delta_t * slope)%float]).
End Euler.

Definition euler_method (fuel : nat) (f : float -> float -> result float)
    (t0 y0 t_end delta_t : float) : option euler_output :=
  euler_loop f t_end delta_t fuel t0 y0 [t0] [y0].

(** A derivative that never raises. *)
Definition never_fails (f : float -> float -> float) : float -> float -> result float :=
  fun y t => Return (f y t).

(** The recurrence of the specification: one Euler step, and the point
    reached after [k] of them. *)
Definition euler_step (f : float -> float -> float) (delta_t : float)
    (p : float * float) : float * float :=
  ((fst p + delta_t)%float, (snd p + delta_t * f (snd p) (fst p))%float).

Fixpoint euler_point (f : float -> float -> float) (delta_t t0 y0 : float)
    (k : nat) : float * float :=
  match k with
  | O => (t0, y0)
  | S k' => euler_step f delta_t (euler_point f delta_t t0 y0 k')
  end.

Definition euler_points (f : float -> float -> float) (delta_t t0 y0 : float)
    (n : nat) : list (float * float) :=
  map (euler_point f delta_t t0 y0) (seq 0 (S n)).

(** The value of [t] after [k] additions of [delta_t]. *)
Fixpoint euler_time (delta_t t0 : float) (k : nat) : float :=
  match k with
  | O => t0
  | S k' => (euler_time delta_t t0 k' + delta_t)%float
  end.

(** How far [t] is below [t_end], counted in keys: a bound on the number of
    values of [t], each larger than the one before, that are below [t_end]. *)
Definition steps_left (t_end t : float) : nat :=
  Z.to_nat (key (Prim2SF t_end) - key (Prim2SF t)).

(** ** [smooth_exact_curve] *)

Section Sampler.
(** The exact solution: a function of one number that returns a number or
    raises. *)
Variable g : float -> result float.
Variable t0 : float.

(** The [while i < num_points] loop.  Its body changes neither [num_points]
    nor [i] apart from the final [i += 1], so it runs [num_points - i] times:
    [remaining] is that count.  An exception of [g] is re-raised. *)
Fixpoint sample_loop (step : float) (remaining : nat) (i : Z) (T Y : list float)
  {struct remaining} : result (list float * list float) :=
  match remaining with
  | O => Return (T, Y)
  | S remaining' =>
      fi ← float_of_int i;
      let t := (t0 + fi * step)%float in
      y ← g t;
      sample_loop step remaining' (i + 1) (T ++ [t]) (Y ++ [y])
  end.
End Sampler.

(** [if num_points < 2: num_points = 2] *)
Definition clamp_points (num_points : Z) : Z :=
  if num_points <? 2 then 2 else num_points.

(** [step = (t_end - t0) / float(num_points - 1)] *)
Definition grid_step (t0 t_end : float) (num_points : Z) : result float :=
  d ← float_of_int (num_points - 1);
  float_div (t_end - t0)%float d.

Definition smooth_exact_curve (g : float -> result float) (t0 t_end : float)
    (num_points : Z) : result (list float * list float) :=
  let num_points := clamp_points num_points in
  step ← grid_step t0 t_end num_points;
  sample_loop g t0 step (Z.to_nat num_points) 0 [] [].

(** Grid point [i] for a given [step]: [t0 + i * step]. *)
Definition grid_point (t0 step : float) (i : Z) : result float :=
  fi ← float_of_int i;
  Return (t0 + fi * step)%float.

(** The grid of the specification, [t_i = t0 + i * (t_end - t0) / (n - 1)],
    with the operations in the order the code performs them. *)
Definition grid_time (t0 t_end : float) (n i : Z) : float :=
  (t0 + float_of_Z i * ((t_end - t0) / float_of_Z (n - 1)))%float.

Definition grid_times (t0 t_end : float) (n : Z) : list float :=
  map (fun i => grid_time t0 t_end n (Z.of_nat i)) (seq 0 (Z.to_nat n)).

(** ** [compute_max_error] *)

Section ErrorAnalyzer.
Variable g : float -> result float.

(** [abs(y_e - y_true)] *)
Definition abs_error (y_e y_true : float) : float :=
  PrimFloat.abs (y_e - y_true)%float.

(** [if err > max_err: max_err = err] *)
Definition update_max (max_err err : float) : float :=
  if (max_err <? err)%float then err else max_err.

(** The [while i < len(t_values)] loop, on the elements not yet visited:
    [ts] is [t_values[i:]] and [ys] is [y_values[i:]].  [y_values[i]] raises
    [IndexError] when [y_values] is the shorter list; an exception of [g]
    propagates. *)
Fixpoint max_error_loop (ts ys : list float) (max_err : float) (compared : Z)
  {struct ts} : result (float * Z) :=
  match ts with
  | [] => Return (max_err, compared)
  | t :: ts' =>
      match ys with
      | [] => Raise IndexError
      | y_e :: ys' =>
          y_true ← g t;
          let err := abs_error y_e y_true in
          max_error_loop ts' ys' (update_max max_err err) (compared + 1)
      end
  end.

Definition compute_max_error (t_values y_values : list float) : result (float * Z) :=
  max_error_loop t_values y_values 0%float 0.
End ErrorAnalyzer.


(** The least integer that [float] turns into no finite value: half-way
    between the largest binary64 value and [2 ^ 1024]. *)
Definition float_overflow_threshold : Z := 2 ^ 1024 - 2 ^ 970.

(** ** [print_sample_table] *)

(** The lines of the table. *)
Inductive table_line : Type :=
| BlankLine                 (* "" *)
| TableTitle                (* "Sample of the Euler (t, y) values:" *)
| TableHeader               (* "{:>12s}  {:>16s}".format("t", "y_euler") *)
| TableRule                 (* "-" * 31 *)
| TableRow (t y : float)    (* "{:12.6f}  {:16.8f}".format(t_values[i], y_values[i]) *)
| MorePoints (n : Z).       (* "... ({} more points)".format(n - count) *)

(** The [while i < count] loop, [remaining] being [count - i]: the rows it
    prints, and how it ends.  [t_values[i]] and [y_values[i]] raise
    [IndexError] past the end of their list. *)
Fixpoint table_rows (t_values y_values : list float) (remaining i : nat)
  {struct remaining} : list table_line * result unit :=
  match remaining with
  | O => ([], Return tt)
  | S remaining' =>
      match nth_error t_values i with
      | None => ([], Raise IndexError)
      | Some t =>
          match nth_error y_values i with
          | None => ([], Raise IndexError)
          | Some y =>
              let '(rows, r) := table_rows t_values y_values remaining' (S i) in
              (TableRow t y :: rows, r)
          end
      end
  end.

(** What the call prints, and how it ends. *)
Definition print_sample_table (t_values y_values : list float) (count : Z)
  : list table_line * result unit :=
  let head := [BlankLine; TableTitle; TableHeader; TableRule] in
  let n := Z.of_nat (length t_values) in
  let count := if n <? count then n else count in
  let '(rows, r) := table_rows t_values y_values (Z.to_nat count) 0 in
  match r with
  | Raise e => (head ++ rows, Raise e)
  | Return _ =>
      (head ++ rows ++ (if count <? n then [MorePoints (n - count)] else []),
       Return tt)
  end.

(** The row of a point. *)
Definition row_of (p : float * float) : table_line := TableRow (fst p) (snd p).

(** ** The program on objects

    [euler_method], [smooth_exact_curve], [compute_max_error] and
    [print_sample_table] are typed above as their docstrings have them: on
    numbers.  [main] calls them with the functions [build_f_function] and
    [build_g_function] return, which return whatever [eval] returns.  What
    the four functions do then is stated here, on objects; on floats it is
    what is stated above (see the lemmas on floats below).  What the
    interpreter does with objects ([+], [*], [-], [abs], [>], [format]) and
    what [plt] does are the record [runtime]: they return or raise, and can
    depend on the state of the interpreter and change it. *)

(** The format specifications the program uses: ["{}"], ["{:12.6f}"],
    ["{:16.8f}"], ["{:.6g}"]. *)
Inductive format_spec : Type := Plain | F12_6 | F16_8 | G6.

(** The calls of [plt] the program makes. *)
Inductive plot_call : Type :=
| PltFigure
| PltPlotEuler (t_vals : list float) (y_vals : list value)
                                      (* marker "o", label "Euler approximation" *)
| PltPlotExact (T_exact : list float) (Y_exact : list value)
                                      (* label "Exact solution g(t)" *)
| PltXLabel | PltYLabel | PltTitle | PltGrid | PltLegend
| PltShow.

(** A computation in the interpreter: from its state, what is returned or
    raised, and the state afterwards.  An exception ends a sequence. *)
Definition host (world A : Type) : Type := world -> result A * world.

#[global] Instance host_ret {world} : MRet (host world) := fun _ a w => (Return a, w).
#[global] Instance host_bind {world} : MBind (host world) := fun _ _ k m w =>
  match m w with
  | (Return a, w') => k a w'
  | (Raise e, w') => (Raise e, w')
  end.

Definition raise {world A} (e : exn) : host world A := fun w => (Raise e, w).

Record runtime (world : Type) : Type := Runtime {
  py_add : value -> value -> host world value;            (* a + b *)
  py_sub : value -> value -> host world value;            (* a - b *)
  py_mul : value -> value -> host world value;            (* a * b *)
  py_abs : value -> host world value;                     (* abs(a) *)
  py_gt : value -> value -> host world bool;              (* the truth of a > b *)
  py_format : format_spec -> value -> host world unit;    (* format(a, spec) *)
  plt : plot_call -> host world unit
}.
Arguments py_add {world} _ _ _.
Arguments py_sub {world} _ _ _.
Arguments py_mul {world} _ _ _.
Arguments py_abs {world} _ _.
Arguments py_gt {world} _ _ _.
Arguments py_format {world} _ _ _.
Arguments plt {world} _ _.

Module Objects.

(** The lines [euler_method] prints when [f] raises. *)
Inductive line : Type :=
| ErrorEvaluatingF (y : value) (t : float)
| ReprOf (e : exn)
| StoppingEarly.

(** The lines of the table. *)
Inductive table_line : Type :=
| BlankLine
| TableTitle
| TableHeader
| TableRule
| TableRow (t : float) (y : value)
| MorePoints (n : Z).

Section Functions.
Variable world : Type.
Variable py : runtime world.

Section Euler.
Variable f : value -> float -> host world value.
Variables t_end delta_t : float.

(** The [while t < t_end] loop.  An exception of [f] is caught and
    reported, the report formats [y]; an exception of the arithmetic of
    [y + delta_t * slope], or of this formatting, is caught by nothing. *)
Fixpoint euler_loop (fuel : nat) (t : float) (y : value)
    (t_values : list float) (y_values : list value) (w : world) {struct fuel}
  : option (result (list float * list value) * list line * world) :=
  if (t <? t_end)%float then
    match fuel with
    | O => None
    | S fuel' =>
        match f y t w with
        | (Raise e, w) =>
            match py_format py Plain y w with
            | (Raise e', w) => Some (Raise e', [], w)
            | (Return _, w) =>
                Some (Return (t_values, y_values),
                      [ErrorEvaluatingF y t; ReprOf e; StoppingEarly], w)
            end
        | (Return slope, w) =>
            match (p ← py_mul py (VFloat delta_t) slope; py_add py y p) w with
            | (Raise e, w) => Some (Raise e, [], w)
            | (Return y_next, w) =>
                let t_next := (t + delta_t)%float in
                euler_loop fuel' t_next y_next
                  (t_values ++ [t_next]) (y_values ++ [y_next]) w
            end
        end
    end
  else Some (Return (t_values, y_values), [], w).
End Euler.

Definition euler_method (fuel : nat) (f : value -> float -> host world value)
    (t0 : float) (y0 : value) (t_end delta_t : float) (w : world)
  : option (result (list float * list value) * list line * world) :=
  euler_loop f t_end delta_t fuel t0 y0 [t0] [y0] w.

Section Sampler.
Variable g : float -> host world value.
Variable t0 : float.

Fixpoint sample_loop (step : float) (remaining : nat) (i : Z)
    (T : list float) (Y : list value) {struct remaining}
  : host world (list float * list value) :=
  match remaining with
  | O => mret (T, Y)
  | S remaining' =>
      match float_of_int i with
      | Raise e => raise e
      | Return fi =>
          let t := (t0 + fi * step)%float in
          y ← g t;
          sample_loop step remaining' (i + 1) (T ++ [t]) (Y ++ [y])
      end
  end.
End Sampler.

Definition smooth_exact_curve (g : float -> host world value) (t0 t_end : float)
    (num_points : Z) : host world (list float * list value) :=
  let num_points := clamp_points num_points in
  match grid_step t0 t_end num_points with
  | Raise e => raise e
  | Return step => sample_loop g t0 step (Z.to_nat num_points) 0 [] []
  end.

Section ErrorAnalyzer.
Variable g : float -> host world value.

Fixpoint max_error_loop (ts : list float) (ys : list value) (max_err : value)
    (compared : Z) {struct ts} : host world (value * Z) :=
  match ts with
  | [] => mret (max_err, compared)
  | t :: ts' =>
      match ys with
      | [] => raise IndexError
      | y_e :: ys' =>
          y_true ← g t;
          d ← py_sub py y_e y_true;
          err ← py_abs py d;
          above ← py_gt py err max_err;
          max_error_loop ts' ys' (if (above : bool) then err else max_err) (compared + 1)
      end
  end.

Definition compute_max_error (t_values : list float) (y_values : list value)
  : host world (value * Z) :=
  max_error_loop t_values y_values (VFloat 0) 0.
End ErrorAnalyzer.

(** The rows of the table: the lines printed, how the loop ends, and the
    state of the interpreter then. *)
Fixpoint table_rows (t_values : list float) (y_values : list value)
    (remaining i : nat) (w : world) {struct remaining}
  : list table_line * result unit * world :=
  match remaining with
  | O => ([], Return tt, w)
  | S remaining' =>
      match nth_error t_values i with
      | None => ([], Raise IndexError, w)
      | Some t =>
          match nth_error y_values i with
          | None => ([], Raise IndexError, w)
          | Some y =>
              match py_format py F16_8 y w with
              | (Raise e, w) => ([], Raise e, w)
              | (Return _, w) =>
                  let '(rows, r, w) := table_rows t_values y_values remaining' (S i) w in
                  (TableRow t y :: rows, r, w)
              end
          end
      end
  end.

Definition print_sample_table (t_values : list float) (y_values : list value)
    (count : Z) (w : world) : list table_line * result unit * world :=
  let head := [BlankLine; TableTitle; TableHeader; TableRule] in
  let n := Z.of_nat (length t_values) in
  let count := if n <? count then n else count in
  let '(rows, r, w) := table_rows t_values y_values (Z.to_nat count) 0 w in
  match r with
  | Raise e => (head ++ rows, Raise e, w)
  | Return _ =>
      (head ++ rows ++ (if count <? n then [MorePoints (n - count)] else []),
       Return tt, w)
  end.
End Functions.

Arguments euler_loop {world} _ _ _ _ _ _ _ _ _ _.
Arguments euler_method {world} _ _ _ _ _ _ _ _.
Arguments sample_loop {world} _ _ _ _ _ _ _.
Arguments smooth_exact_curve {world} _ _ _ _.
Arguments max_error_loop {world} _ _ _ _ _ _.
Arguments compute_max_error {world} _ _ _ _.
Arguments table_rows {world} _ _ _ _ _ _.
Arguments print_sample_table {world} _ _ _ _ _.

End Objects.

(** A float, a line and a result of the functions on numbers, as
    objects. *)
Definition of_line (l : line) : Objects.line :=
  match l with
  | ErrorEvaluatingF y t => Objects.ErrorEvaluatingF (VFloat y) t
  | ReprOf e => Objects.ReprOf e
  | StoppingEarly => Objects.StoppingEarly
  end.

Definition of_table_line (l : table_line) : Objects.table_line :=
  match l with
  | BlankLine => Objects.BlankLine
  | TableTitle => Objects.TableTitle
  | TableHeader => Objects.TableHeader
  | TableRule => Objects.TableRule
  | TableRow t y => Objects.TableRow t (VFloat y)
  | MorePoints n => Objects.MorePoints n
  end.

Definition of_result (r : result float) : result value :=
  match r with
  | Return x => Return (VFloat x)
  | Raise e => Raise e
  end.

(** What the interpreter does with floats: binary64 arithmetic, and nothing
    else. *)
Record float_arithmetic {world} (py : runtime world) : Prop := FloatArithmetic {
  add_floats : forall a b w, py_add py (VFloat a) (VFloat b) w = (Return (VFloat (a + b)), w);
  sub_floats : forall a b w, py_sub py (VFloat a) (VFloat b) w = (Return (VFloat (a - b)), w);
  mul_floats : forall a b w, py_mul py (VFloat a) (VFloat b) w = (Return (VFloat (a * b)), w);
  abs_float : forall a w, py_abs py (VFloat a) w = (Return (VFloat (PrimFloat.abs a)), w);
  gt_floats : forall a b w, py_gt py (VFloat a) (VFloat b) w = (Return (b <? a)%float, w);
  format_float : forall spec a w, py_format py spec (VFloat a) w = (Return tt, w)
}.

(** An expression that is a function on floats: at floats its evaluation
    returns a float or raises, the same at every state of the interpreter,
    which it leaves as it is. *)
Definition float_valued_f {code world}
    (eval : code -> namespace -> namespace -> world -> result value * world)
    (c : code) (f : float -> float -> result float) : Prop :=
  forall y t w, call_f eval (build_f_function c) (VFloat y) t w = (of_result (f y t), w).

Definition float_valued_g {code world}
    (eval : code -> namespace -> namespace -> world -> result value * world)
    (c : code) (g : float -> result float) : Prop :=
  forall t w, call_g eval (build_g_function c) t w = (of_result (g t), w).

(** A call of [plt] that is handed floats. *)
Definition floats_plotted (c : plot_call) : Prop :=
  match c with
  | PltPlotEuler _ ys | PltPlotExact _ ys => exists l, ys = map VFloat l
  | _ => True
  end.

(** ** The console *)

(** How a program that reads standard input can fail: [input] raises
    [EOFError] at the end of the input, and nothing in the program catches
    it; or an exception of the modelled code is not caught. *)
Inductive failure : Type :=
| EOFError
| Uncaught (e : exn).

Inductive outcome (A : Type) : Type :=
| Done (a : A)
| Failed (e : failure).
Arguments Done {A} a.
Arguments Failed {A} e.

(** What goes to standard output (and to [plt]), in order.  [E] is the type
    of the exceptions of [compile]. *)
Inductive output (E : Type) : Type :=
| Prompt (text : string)          (* the prompt of [input] *)
| Print (text : string)           (* [print] of texts, joined by a space *)
| PrintCompileError (e : E)       (* print("   ", repr(e)) *)
| PrintException (e : exn)        (* print(" ", repr(e)) *)
| PrintEuler (l : Objects.line)   (* a line of [euler_method] *)
| PrintTable (l : Objects.table_line) (* a line of [print_sample_table] *)
| PrintBanner                     (* the title line of [main] *)
| PrintComputed (n : Z)           (* "  Done. Computed {} points." *)
| PrintMaxError (compared : Z) (max_err : value)
                                  (* "Maximum absolute error at Euler grid points ({} points): {:.6g}" *)
| Plt (c : plot_call).            (* a call of [plt], made *)
Arguments Prompt {E} text.
Arguments Print {E} text.
Arguments PrintCompileError {E} e.
Arguments PrintException {E} e.
Arguments PrintEuler {E} l.
Arguments PrintTable {E} l.
Arguments PrintBanner {E}.
Arguments PrintComputed {E} n.
Arguments PrintMaxError {E} compared max_err.
Arguments Plt {E} c.

(** A program on the console: from the lines of standard input not read
    yet, how it ends, the lines it leaves and what it wrote.  [None] is a
    loop still running when the bound on its iterations is reached. *)
Definition io (E A : Type) : Type :=
  list string -> option (outcome A * list string * list (output E)).

#[global] Instance io_ret {E} : MRet (io E) := fun _ a stdin => Some (Done a, stdin, []).
#[global] Instance io_bind {E} : MBind (io E) := fun _ _ k m stdin =>
  match m stdin with
  | None => None
  | Some (Failed e, rest, out) => Some (Failed e, rest, out)
  | Some (Done a, rest, out) =>
      match k a rest with
      | None => None
      | Some (r, rest', out') => Some (r, rest', out ++ out')
      end
  end.

Definition write {E} (o : output E) : io E unit :=
  fun stdin => Some (Done tt, stdin, [o]).

Definition write_all {E} (os : list (output E)) : io E unit :=
  fun stdin => Some (Done tt, stdin, os).

Definition fail {E A} (e : failure) : io E A :=
  fun stdin => Some (Failed e, stdin, []).

Definition still_running {E A} : io E A := fun _ => None.

(** [input(prompt)]: the prompt is written, then a line is read. *)
Definition input {E} (prompt : string) : io E string :=
  fun stdin =>
    match stdin with
    | [] => Some (Failed EOFError, [], [Prompt prompt])
    | l :: rest => Some (Done l, rest, [Prompt prompt])
    end.

Section Prompts.
(** The host functions the prompts call: [compile(expr, filename, "eval")],
    which returns a code object or raises; [str.strip]; [float] on a
    string, [None] standing for [ValueError]. *)
Variables code E : Type.
Variable compile : string -> string -> code + E.
Variable strip : string -> string.
Variable float_of_str : string -> option float.

(** The [while True] loop of [prompt_expression]. *)
Fixpoint prompt_expression (fuel : nat) (name var_hint : string)
  : io E (code * string) :=
  match fuel with
  | O => still_running
  | S fuel' =>
      write (Print "");;
      write (Print ("Enter " +:+ name));;
      write (Print ("  Tip: " +:+ var_hint));;
      l ← input "  >>> ";
      let expr := strip l in
      if String.eqb expr "" then
        write (Print "  You did not enter anything. Please try again.");;
        prompt_expression fuel' name var_hint
      else
        match compile expr ("<user " +:+ name +:+ ">") with
        | inl c => mret (c, expr)
        | inr e =>
            write (Print "  There was a problem with your expression:");;
            write (PrintCompileError e);;
            write (Print "  Please try again.");;
            prompt_expression fuel' name var_hint
        end
  end.

(** The [while True] loop of [prompt_float].  [default_value] is a float or
    [None]; [float(None)] raises [TypeError], which is not caught. *)
Fixpoint prompt_float (fuel : nat) (prompt_text : string) (allow_empty : bool)
    (default_value : option float) : io E float :=
  match fuel with
  | O => still_running
  | S fuel' =>
      l ← input prompt_text;
      let raw := strip l in
      if String.eqb raw "" && allow_empty then
        match default_value with
        | Some d => mret d
        | None => fail (Uncaught TypeError)
        end
      else
        match float_of_str raw with
        | Some x => mret x
        | None =>
            write (Print "  Please enter a valid number (e.g., 0, 1.5, -2, 3.14).");;
            prompt_float fuel' prompt_text allow_empty default_value
        end
  end.

(** The [while True] loop of [prompt_positive_float]; [prompt_float] is
    called with its defaults, [allow_empty=False] and [default_value=None]. *)
Fixpoint prompt_positive_float (fuel : nat) (prompt_text : string) : io E float :=
  match fuel with
  | O => still_running
  | S fuel' =>
      value ← prompt_float fuel prompt_text false None;
      if (value <=? 0)%float then
        write (Print "  The value must be positive (greater than 0). Please try again.");;
        prompt_positive_float fuel' prompt_text
      else mret value
  end.

(** What [prompt_float] writes for the lines it does not accept. *)
Definition asked_again (prompt_text : string) (rejected : list string) : list (output E) :=
  flat_map
    (fun _ => [Prompt prompt_text;
               Print "  Please enter a valid number (e.g., 0, 1.5, -2, 3.14)."])
    rejected.

(** A line [prompt_float] does not accept: it is no number, and it is not
    the empty answer that stands for the default. *)
Definition not_a_number (allow_empty : bool) (l : string) : Prop :=
  float_of_str (strip l) = None /\ (allow_empty = true -> strip l <> "").
End Prompts.

(** The calls of [plt] in what a program wrote, in order. *)
Definition plotted {E} (out : list (output E)) : list plot_call :=
  flat_map (fun o => match o with Plt c => [c] | _ => [] end) out.


(** The reports in what a program wrote, in order: the numbers of points
    computed, the lines of the table, the maximum errors with the numbers of
    points compared. *)
Definition computed_counts {E} (out : list (output E)) : list Z :=
  flat_map (fun o => match o with PrintComputed n => [n] | _ => [] end) out.



(** The two expressions that [main] takes from an input: what its two calls
    of [prompt_expression] return, the second on what the first left. *)
Definition expressions_entered {code E} (compile : string -> string -> code + E)
    (strip : string -> string) (fuel : nat) (stdin : list string)
    (f_code g_code : code) : Prop :=
  exists f_text rest1 out1 g_text rest2 out2,
    prompt_expression code E compile strip fuel
      "f(y, t)  (derivative dy/dt)" "use variables y and t, e.g., -2*y + t" stdin
    = Some (Done (f_code, f_text), rest1, out1)
    /\ prompt_expression code E compile strip fuel
         "g(t)  (exact/ideal solution in terms of t)"
         "use variable t, e.g., t - 0.5 + 0.5*exp(-2*t)" rest1
       = Some (Done (g_code, g_text), rest2, out2).

(** The two expressions entered are functions on floats: the first as [f],
    the second as [g]. *)
Definition float_valued_input {code E world} (compile : string -> string -> code + E)
    (strip : string -> string)
    (eval : code -> namespace -> namespace -> world -> result value * world)
    (fuel : nat) (stdin : list string) : Prop :=
  forall f_code g_code, expressions_entered compile strip fuel stdin f_code g_code ->
    exists f g, float_valued_f eval f_code f /\ float_valued_g eval g_code g.

(** ** [main] *)

Section Main.
Variables code E world : Type.
Variable compile : string -> string -> code + E.
Variable strip : string -> string.
Variable float_of_str : string -> option float.
Variable eval : code -> namespace -> namespace -> world -> result value * world.
Variable py : runtime world.

(** Step 5, the [while True] loop that asks for [t_end]. *)
Fixpoint prompt_t_end (fuel : nat) (t0 : float) : io E float :=
  match fuel with
  | O => still_running
  | S fuel' =>
      t_end ← prompt_float E strip float_of_str fuel
                "Enter end time t_end (must be > t0): " false None;
      if (t_end <=? t0)%float then
        write (Print "  t_end must be greater than t0. Please try again.");;
        prompt_t_end fuel' t0
      else mret t_end
  end.

(** The call of [euler_method] and what it prints; an exception of it is
    not caught. *)
Definition run_euler_method (fuel : nat) (f : value -> float -> host world value)
    (t0 y0 t_end delta_t : float) (w : world) : io E (list float * list value * world) :=
  fun stdin =>
    match Objects.euler_method py fuel f t0 (VFloat y0) t_end delta_t w with
    | None => None
    | Some (Return (t_vals, y_vals), lines, w) =>
        Some (Done (t_vals, y_vals, w), stdin, map PrintEuler lines)
    | Some (Raise e, lines, w) =>
        Some (Failed (Uncaught e), stdin, map PrintEuler lines)
    end.

(** The call of [print_sample_table]; an exception of it is not caught. *)
Definition run_print_sample_table (t_vals : list float) (y_vals : list value)
    (count : Z) (w : world) : io E world :=
  let '(lines, r, w) := Objects.print_sample_table py t_vals y_vals count w in
  write_all (map PrintTable lines);;
  match r with
  | Return _ => mret w
  | Raise e => fail (Uncaught e)
  end.

(** A call of [plt]; an exception of it is not caught. *)
Definition run_plt (c : plot_call) (w : world) : io E world :=
  write (Plt c);;
  match plt py c w with
  | (Return _, w) => mret w
  | (Raise e, _) => fail (Uncaught e)
  end.

(** The [except] branch of step 11. *)
Definition could_not_compute (e : exn) : io E unit :=
  write (Print "");;
  write (Print "Could not compute max error at Euler grid points:");;
  write (PrintException e).

Definition main (fuel : nat) (w : world) : io E unit :=
  write PrintBanner;;
  (* 1, 2: the two expressions *)
  '(f_code, f_text) ← prompt_expression code E compile strip fuel
                        "f(y, t)  (derivative dy/dt)"
                        "use variables y and t, e.g., -2*y + t";
  let f := call_f eval (build_f_function f_code) in
  '(g_code, g_text) ← prompt_expression code E compile strip fuel
                        "g(t)  (exact/ideal solution in terms of t)"
                        "use variable t, e.g., t - 0.5 + 0.5*exp(-2*t)";
  let g := call_g eval (build_g_function g_code) in
  (* 3 to 6: the numbers *)
  delta_t ← prompt_positive_float E strip float_of_str fuel
              "Enter delta t (time step, must be > 0): ";
  t0 ← prompt_float E strip float_of_str fuel
         "Enter start time t0 (press Enter for 0): " true (Some 0%float);
  t_end ← prompt_t_end fuel t0;
  y0 ← prompt_float E strip float_of_str fuel
         "Enter starting value y0 at t0: " false None;
  (* 7, 8: the Euler sequence and its table *)
  write (Print "");;
  write (Print "Computing Euler steps...");;
  '(t_vals, y_vals, w) ← run_euler_method fuel f t0 y0 t_end delta_t w;
  write (PrintComputed (Z.of_nat (length t_vals)));;
  w ← run_print_sample_table t_vals y_vals 10 w;
  (* 9: the exact curve *)
  let '(exact, w) := Objects.smooth_exact_curve g t0 t_end 200 w in
  match exact with
  | Return _ => mret tt
  | Raise e =>
      write (Print "");;
      write (Print "Could not generate the smooth exact curve g(t):");;
      write (PrintException e);;
      write (Print "We will still show the Euler approximation.")
  end;;
  (* 10: the plot *)
  w ← run_plt PltFigure w;
  w ← run_plt (PltPlotEuler t_vals y_vals) w;
  w ← match exact with
      | Return (T_exact, Y_exact) => run_plt (PltPlotExact T_exact Y_exact) w
      | Raise _ => mret w
      end;
  w ← run_plt PltXLabel w;
  w ← run_plt PltYLabel w;
  w ← run_plt PltTitle w;
  w ← run_plt PltGrid w;
  w ← run_plt PltLegend w;
  (* 11: the maximum error; [print("")] comes before the line is formatted *)
  w ← match Objects.compute_max_error py g t_vals y_vals w with
      | (Return (max_err, compared), w) =>
          write (Print "");;
          match py_format py G6 max_err w with
          | (Return _, w) => write (PrintMaxError compared max_err);; mret w
          | (Raise e, w) => could_not_compute e;; mret w
          end
      | (Raise e, w) => could_not_compute e;; mret w
      end;
  (* 12 *)
  w ← run_plt PltShow w;
  write (Print "");;
  write (Print "Thanks for using the Euler plotter!");;
  write (Print ("f(y, t) you entered:  " +:+ f_text));;
  write (Print ("g(t) you entered:     " +:+ g_text)).
End Main.

(** ** Sample inputs *)

(** A derivative that raises once [t] has reached 1 (as [sqrt(1 - t) / (1 - t)]
    does), and is [y] before. *)
Definition fails_from_one : float -> float -> result float :=
  fun y t => if (t <? 1)%float then Return y else Raise ValueError.

(** An exact solution that never raises. *)
Definition total_curve (g : float -> float) : float -> result float :=
  fun t => Return (g t).

(** [g(t) = 1 / (t - 4)]: it raises at [t = 4]. *)
Definition pole_at_four : float -> result float :=
  fun t => float_div 1 (t - 4)%float.

(** [f(y, t) = 1 / (1 - y)]: it raises at [y = 1]. *)
Definition pole_at_y_one : float -> float -> result float :=
  fun y _ => float_div 1 (1 - y)%float.

(** A stand-in for the interpreter in examples: it computes on floats and
    raises [TypeError] on everything else. *)
Definition floats_only : interpreter :=
  Interpreter
    (fun op v =>
       match op, v with
       | UAdd, VFloat x => Return (VFloat x)
       | USub, VFloat x => Return (VFloat (- x)%float)
       | _, _ => Raise TypeError
       end)
    (fun op l r =>
       match op, l, r with
       | Add, VFloat a, VFloat b => Return (VFloat (a + b)%float)
       | Sub, VFloat a, VFloat b => Return (VFloat (a - b)%float)
       | Mult, VFloat a, VFloat b => Return (VFloat (a * b)%float)
       | Div, VFloat a, VFloat b => x ← float_div a b; Return (VFloat x)
       | _, _, _ => Raise TypeError
       end)
    (fun fv avs =>
       match fv, avs with
       | VCallable math_fabs, [VFloat x] => Return (VFloat (PrimFloat.abs x))
       | VCallable builtin_abs, [VFloat x] => Return (VFloat (PrimFloat.abs x))
       | _, _ => Raise TypeError
       end)
    (fun id => Raise (LookupFailure id)).

(** Stand-ins for the host functions in examples: [float] on a few texts,
    [compile] on the two variables, [strip] on texts with no blank at either
    end. *)
Definition sample_float_of_str (s : string) : option float :=
  if String.eqb s "0" then Some 0%float
  else if String.eqb s "0.5" then Some 0.5%float
  else if String.eqb s "1" then Some 1%float
  else if String.eqb s "-2" then Some (-2)%float
  else if String.eqb s "nan" then Some nan
  else None.

Definition sample_compile (text filename : string) : expr + string :=
  if String.eqb text "y" then inl (Name "y")
  else if String.eqb text "t" then inl (Name "t")
  else inr "SyntaxError('invalid syntax')".

Definition sample_strip (s : string) : string := s.

(** [compile] on two more texts, the names [sin] and [__builtins__]. *)
Definition sample_compile_names (text filename : string) : expr + string :=
  if String.eqb text "sin" then inl (Name "sin")
  else if String.eqb text "__builtins__" then inl (Name "__builtins__")
  else sample_compile text filename.

(** A stand-in for the operations of the interpreter on objects, and for
    [plt]: binary64 arithmetic on floats, plots of floats, [TypeError] on
    everything else.  The interpreter has no state. *)
Definition sample_runtime : runtime unit :=
  Runtime unit
    (fun a b w =>
       match a, b with
       | VFloat x, VFloat y => (Return (VFloat (x + y)), w)
       | _, _ => (Raise TypeError, w)
       end)
    (fun a b w =>
       match a, b with
       | VFloat x, VFloat y => (Return (VFloat (x - y)), w)
       | _, _ => (Raise TypeError, w)
       end)
    (fun a b w =>
       match a, b with
       | VFloat x, VFloat y => (Return (VFloat (x * y)), w)
       | _, _ => (Raise TypeError, w)
       end)
    (fun a w =>
       match a with
       | VFloat x => (Return (VFloat (PrimFloat.abs x)), w)
       | _ => (Raise TypeError, w)
       end)
    (fun a b w =>
       match a, b with
       | VFloat x, VFloat y => (Return (y <? x)%float, w)
       | _, _ => (Raise TypeError, w)
       end)
    (fun spec a w =>
       match a with
       | VFloat _ => (Return tt, w)
       | _ => (Raise TypeError, w)
       end)
    (fun c w =>
       match c with
       | PltPlotEuler _ ys | PltPlotExact _ ys =>
           if forallb (fun y => match y with VFloat _ => true | _ => false end) ys
           then (Return tt, w) else (Raise TypeError, w)
       | _ => (Return tt, w)
       end).

(** The two variables as functions on floats: [f(y, t) = y] or [t], and
    [g(t) = t]; ["y"] as [g] fails, no [y] being bound. *)
Definition sample_f (c : expr) (y t : float) : result float :=
  match c with
  | Name id => if String.eqb id "y" then Return y else Return t
  | _ => Raise TypeError
  end.

Definition sample_g (c : expr) (t : float) : result float :=
  match c with
  | Name id => if String.eqb id "t" then Return t else Raise (LookupFailure id)
  | _ => Raise TypeError
  end.


(** * Properties *)

(** ** The integrator *)

Section EulerFacts.
Variable f : float -> float -> result float.
Variables t_end delta_t t0 y0 : float.

(** The loop, once [k] iterations are behind it, goes on from the state
    they reach. *)
Lemma iterates_loop k t y tv yv :
  iterates f t_end delta_t t0 y0 k t y tv yv ->
  forall fuel,
    euler_loop f t_end delta_t (k + fuel) t0 y0 [t0] [y0]
    = euler_loop f t_end delta_t fuel t y tv yv.
Proof.
  induction 1 as [|k t y tv yv slope Hk IH Hlt Hf]; intros fuel.
  - reflexivity.
  - replace (S k + fuel)%nat with (k + S fuel)%nat by lia.
    rewrite IH. cbn [euler_loop]. rewrite Hlt, Hf. reflexivity.
Qed.

(** Both lists have one entry per completed iteration, after the initial
    one; the first entries are [t0] and [y0], the last entries the current
    [t] and [y]. *)
Lemma iterates_shape k t y tv yv :
  iterates f t_end delta_t t0 y0 k t y tv yv ->
  length tv = S k /\ length yv = S k
  /\ hd_error tv = Some t0 /\ hd_error yv = Some y0
  /\ List.last tv t0 = t /\ List.last yv y0 = y.
Proof.
  induction 1 as [|k t y tv yv slope Hk IH Hlt Hf].
  - repeat split; reflexivity.
  - destruct IH as (Ht & Hy & Hht & Hhy & _ & _).
    rewrite !length_app, !List.last_last. cbn [length].
    repeat split; try lia.
    + destruct tv; [discriminate|exact Hht].
    + destruct yv; [discriminate|exact Hhy].
Qed.

(** Whatever the loop returns extends the lists it started from, by as
    many entries in the one as in the other. *)
Lemma euler_loop_extends fuel :
  forall t y tv yv r,
    euler_loop f t_end delta_t fuel t y tv yv = Some r ->
    exists tv' yv',
      t_values r = tv ++ tv' /\ y_values r = yv ++ yv'
      /\ length tv' = length yv'.
Proof.
  induction fuel as [|fuel IH]; intros t y tv yv r; cbn [euler_loop];
    destruct (t <? t_end)%float.
  - discriminate.
  - intros [= <-]. exists [], []. cbn. rewrite !app_nil_r. auto.
  - destruct (f y t) as [slope|e].
    + intros Hr. apply IH in Hr as (tv' & yv' & Ht & Hy & Hlen).
      eexists (_ :: tv'), (_ :: yv').
      rewrite Ht, Hy, <- !app_assoc. cbn. auto.
    + intros [= <-]. exists [], []. cbn. rewrite !app_nil_r. auto.
  - intros [= <-]. exists [], []. cbn. rewrite !app_nil_r. auto.
Qed.
End EulerFacts.

Lemma combine_fst_snd {A B} (l : list (A * B)) :
  combine (map fst l) (map snd l) = l.
Proof. induction l as [|[a b] l IH]; cbn; [|rewrite IH]; reflexivity. Qed.

(** For a derivative that never raises, the states the loop goes through
    are the points of the recurrence. *)
Lemma iterates_euler_points f t_end delta_t t0 y0 n :
  (forall k, (k < n)%nat ->
     (fst (euler_point f delta_t t0 y0 k) <? t_end)%float = true) ->
  iterates (never_fails f) t_end delta_t t0 y0 n
    (fst (euler_point f delta_t t0 y0 n)) (snd (euler_point f delta_t t0 y0 n))
    (map fst (euler_points f delta_t t0 y0 n))
    (map snd (euler_points f delta_t t0 y0 n)).
Proof.
  induction n as [|n IH]; intros Hlt.
  - constructor.
  - unfold euler_points. rewrite seq_S, !map_app. cbn [map Nat.add euler_point].
    apply iterates_S.
    + apply IH. intros k Hk. apply Hlt. lia.
    + apply Hlt. lia.
    + reflexivity.
Qed.

(** ** The order of binary64 values *)

Module FloatOrder.

Lemma compare_cont_Eq_spec p q :
  CompareSpec (p = q) (Pos.lt p q) (Pos.lt q p) (Pos.compare_cont Eq p q).
Proof. exact (Pos.compare_spec p q). Qed.

Ltac order_cases :=
  repeat match goal with
  | |- context [Z.compare ?a ?b] => destruct (Z.compare_spec a b)
  | H : context [Z.compare ?a ?b] |- _ => destruct (Z.compare_spec a b)
  | |- context [PosDef.Pos.compare_cont Eq ?a ?b] =>
      destruct (compare_cont_Eq_spec a b)
  | H : context [PosDef.Pos.compare_cont Eq ?a ?b] |- _ =>
      destruct (compare_cont_Eq_spec a b)
  end.

(** Case analysis on the sign, kind, mantissa and exponent of each value. *)
Ltac by_cases :=
  cbn; try discriminate; try reflexivity;
  order_cases; cbn; try discriminate; try reflexivity; subst; try lia.

Lemma SFltb_trans a b c :
  SFltb a b = true -> SFltb b c = true -> SFltb a c = true.
Proof.
  unfold SFltb.
  destruct a as [[]| []| |[] ma ea], b as [[]| []| |[] mb eb],
           c as [[]| []| |[] mc ec]; by_cases.
Qed.

Lemma SFleb_not_ltb a b : SFleb a b = true -> SFltb b a = false.
Proof.
  unfold SFltb, SFleb.
  destruct a as [[]| []| |[] ma ea], b as [[]| []| |[] mb eb]; by_cases.
Qed.

Lemma SFnot_ltb_leb a b :
  SFltb a b = false -> SFeqb a a = true -> SFeqb b b = true ->
  SFleb b a = true.
Proof.
  unfold SFltb, SFleb, SFeqb.
  destruct a as [[]| []| |[] ma ea], b as [[]| []| |[] mb eb]; by_cases.
Qed.

Lemma SFltb_not_nan a b :
  SFltb a b = true -> SFeqb a a = true /\ SFeqb b b = true.
Proof.
  unfold SFltb, SFeqb.
  destruct a as [[]| []| |[] ma ea], b as [[]| []| |[] mb eb];
    cbn; try discriminate; intros _; split; by_cases.
Qed.

Lemma ltb_trans (x y z : float) :
  (x <? y)%float = true -> (y <? z)%float = true -> (x <? z)%float = true.
Proof. rewrite !FloatAxioms.ltb_spec. apply SFltb_trans. Qed.

Lemma ltb_irrefl (x : float) : (x <? x)%float = false.
Proof.
  rewrite FloatAxioms.ltb_spec. unfold SFltb.
  destruct (Prim2SF x) as [[]| []| |[] m e]; by_cases.
Qed.

(** [a >= b] excludes [a < b]. *)
Lemma leb_not_ltb (x y : float) :
  (x <=? y)%float = true -> (y <? x)%float = false.
Proof. rewrite FloatAxioms.leb_spec, FloatAxioms.ltb_spec. apply SFleb_not_ltb. Qed.

(** Between two numbers (neither is NaN), [not (a < b)] is [b <= a]. *)
Lemma not_ltb_leb (x y : float) :
  (x <? y)%float = false -> PrimFloat.is_nan x = false ->
  PrimFloat.is_nan y = false -> (y <=? x)%float = true.
Proof.
  unfold PrimFloat.is_nan. rewrite !negb_false_iff, !FloatAxioms.eqb_spec, FloatAxioms.ltb_spec, FloatAxioms.leb_spec.
  apply SFnot_ltb_leb.
Qed.

Lemma ltb_not_nan (x y : float) :
  (x <? y)%float = true ->
  PrimFloat.is_nan x = false /\ PrimFloat.is_nan y = false.
Proof.
  unfold PrimFloat.is_nan. rewrite !negb_false_iff, !FloatAxioms.eqb_spec, FloatAxioms.ltb_spec.
  apply SFltb_not_nan.
Qed.

End FloatOrder.

(** ** Rounding to nearest *)

(** What [binary_round] does to a value, and from it: adding a positive
    number never gives a smaller one, and [float(n)] of a moderate positive
    [int] is finite and not zero. *)
Module FloatRound.

Lemma digits2_size m : digits2_pos m = Pos.size m.
Proof. induction m as [m IH|m IH|]; cbn; [rewrite IH|rewrite IH|]; reflexivity. Qed.

Lemma digits_pos m : 1 <= digits m.
Proof. unfold digits. lia. Qed.

Lemma digits_bounds m : 2 ^ (digits m - 1) <= Zpos m < 2 ^ digits m.
Proof.
  unfold digits. rewrite digits2_size. split.
  - pose proof (Pos.size_le m) as H.
    assert (Hp : (2 ^ Pos.size m)%positive = Z.to_pos (2 ^ Zpos (Pos.size m))).
    { rewrite <- Pos2Z.inj_pow. reflexivity. }
    assert (H2 : 2 ^ Zpos (Pos.size m) <= 2 * Zpos m).
    { rewrite <- Pos2Z.inj_pow. lia. }
    replace (Zpos (Pos.size m)) with (Z.succ (Zpos (Pos.size m) - 1)) in H2 by lia.
    rewrite Z.pow_succ_r in H2 by lia. lia.
  - pose proof (Pos.size_gt m) as H. rewrite <- Pos2Z.inj_pow. lia.
Qed.

Lemma digits_unique m d : 2 ^ (d - 1) <= Zpos m < 2 ^ d -> digits m = d.
Proof.
  intros [Hlo Hhi]. pose proof (digits_bounds m) as [Hl Hh]. pose proof (digits_pos m).
  assert (0 < d).
  { destruct (Z.lt_trichotomy 0 d) as [Hd|[Hd|Hd]]; [assumption| |].
    - subst d. cbn in Hhi. lia.
    - rewrite Z.pow_neg_r in Hhi by lia. lia. }
  destruct (Z.lt_trichotomy (digits m) d) as [Hlt|[Heq|Hgt]]; [|assumption|].
  - assert (2 ^ digits m <= 2 ^ (d - 1)) by (apply Z.pow_le_mono_r; lia). lia.
  - assert (2 ^ d <= 2 ^ (digits m - 1)) by (apply Z.pow_le_mono_r; lia). lia.
Qed.

Lemma iter_xO m d : Zpos (Pos.iter xO m d) = Zpos m * 2 ^ Zpos d.
Proof.
  induction d as [|d IH] using Pos.peano_ind.
  - cbn. lia.
  - rewrite Pos.iter_succ, Pos2Z.inj_succ, Z.pow_succ_r by lia.
    rewrite Pos2Z.inj_xO, IH. lia.
Qed.

Lemma shl_align_spec m e e' :
  e' <= e ->
  snd (shl_align m e e') = e' /\ Zpos (fst (shl_align m e e')) = Zpos m * 2 ^ (e - e').
Proof.
  intros H. unfold shl_align. destruct (e' - e) as [|p|p] eqn:Hd; cbn [fst snd].
  - assert (e = e') by lia. subst. rewrite Z.sub_diag. cbn. lia.
  - lia.
  - rewrite iter_xO. replace (e - e') with (Zpos p) by lia. lia.
Qed.

Lemma shl_align_id m e e' : e <= e' -> shl_align m e e' = (m, e).
Proof.
  intros H. unfold shl_align. destruct (e' - e) eqn:Hd; try reflexivity. lia.
Qed.

Lemma iter_pos_nat {A} (f : A -> A) p x : SpecFloat.iter_pos f p x = Nat.iter (Pos.to_nat p) f x.
Proof.
  revert x. induction p as [p IH|p IH|]; intros x; cbn [SpecFloat.iter_pos].
  - rewrite !IH. rewrite Pos2Nat.inj_xI, Nat.iter_succ_r.
    replace (2 * Pos.to_nat p)%nat with (Pos.to_nat p + Pos.to_nat p)%nat by lia.
    rewrite Nat.iter_add. reflexivity.
  - rewrite !IH. rewrite Pos2Nat.inj_xO.
    replace (2 * Pos.to_nat p)%nat with (Pos.to_nat p + Pos.to_nat p)%nat by lia.
    rewrite Nat.iter_add. reflexivity.
  - reflexivity.
Qed.

Lemma shr_1_spec m r s :
  0 <= m ->
  shr_1 (Build_shr_record m r s) = Build_shr_record (m / 2) (Z.odd m) (r || s).
Proof.
  intros Hm. destruct m as [|[p|p|]|p]; try lia; cbn [shr_1].
  - reflexivity.
  - f_equal. rewrite Pos2Z.inj_xI. apply Z.div_unique with (r := 1); lia.
  - f_equal. rewrite Pos2Z.inj_xO. apply Z.div_unique with (r := 0); lia.
  - reflexivity.
Qed.

Lemma shr_iter_spec n m :
  0 <= m ->
  shr_m (Nat.iter n shr_1 (Build_shr_record m false false)) = m / 2 ^ Z.of_nat n
  /\ (m mod 2 ^ Z.of_nat n = 0 ->
      shr_r (Nat.iter n shr_1 (Build_shr_record m false false)) = false
      /\ shr_s (Nat.iter n shr_1 (Build_shr_record m false false)) = false).
Proof.
  intros Hm. induction n as [|n IH].
  - cbn. rewrite Z.div_1_r. auto.
  - rewrite !Nat.iter_succ. destruct IH as [IHm IHz].
    destruct (Nat.iter n shr_1 _) as [mj r s] eqn:Hit. cbn [shr_m shr_r shr_s] in *.
    assert (Hmj : 0 <= mj). { subst mj. apply Z.div_pos; [lia|]. apply Z.pow_pos_nonneg; lia. }
    rewrite (shr_1_spec _ _ _ Hmj). cbn [shr_m shr_r shr_s].
    rewrite Nat2Z.inj_succ, Z.pow_succ_r by lia.
    assert (Hp : 0 < 2 ^ Z.of_nat n) by (apply Z.pow_pos_nonneg; lia).
    split.
    + subst mj. rewrite Z.div_div by lia. f_equal. lia.
    + intros Hmod.
      assert (Hm0 : m mod 2 ^ Z.of_nat n = 0).
      { apply Z.mod_divide in Hmod; [|lia]. apply Z.mod_divide; [lia|].
        destruct Hmod as [q Hq]. exists (q * 2). lia. }
      destruct (IHz Hm0) as [-> ->]. split; [|reflexivity].
      apply Z.mod_divide in Hmod; [|lia]. destruct Hmod as [q Hq].
      subst mj. rewrite Hq. replace (q * (2 * 2 ^ Z.of_nat n)) with ((q * 2) * 2 ^ Z.of_nat n) by lia.
      rewrite Z.div_mul by lia. rewrite Z.odd_mul. cbn. apply andb_false_r.
Qed.

Lemma fexp64_eq k : fexp64 k = Z.max (k - 53) (-1074).
Proof. reflexivity. Qed.

Lemma Zdigits2_bounds z : 0 < z -> 2 ^ (Zdigits2 z - 1) <= z < 2 ^ Zdigits2 z.
Proof. destruct z as [|p|p]; try lia. intros _. apply (digits_bounds p). Qed.

Lemma Zdigits2_unique z d : 2 ^ (d - 1) <= z < 2 ^ d -> 0 < z -> Zdigits2 z = d.
Proof. destruct z as [|p|p]; try lia. intros H _. apply (digits_unique p d H). Qed.

Lemma Zdigits2_pos z : 0 < z -> 1 <= Zdigits2 z.
Proof. destruct z as [|p|p]; cbn; lia. Qed.

Lemma pow2_pos a : 0 <= a -> 0 < 2 ^ a.
Proof. intros. apply Z.pow_pos_nonneg; lia. Qed.

Lemma pow2_add a b : 0 <= a -> 0 <= b -> 2 ^ (a + b) = 2 ^ a * 2 ^ b.
Proof. intros. apply Z.pow_add_r; assumption. Qed.

(* digits of a right shift *)
Lemma Zdigits2_div z n :
  0 < z -> 0 <= n < Zdigits2 z ->
  0 < z / 2 ^ n /\ Zdigits2 (z / 2 ^ n) = Zdigits2 z - n.
Proof.
  intros Hz Hn. pose proof (Zdigits2_bounds z Hz) as [Hlo Hhi].
  pose proof (pow2_pos n ltac:(lia)) as Hp.
  assert (Hq : 2 ^ (Zdigits2 z - n - 1) <= z / 2 ^ n < 2 ^ (Zdigits2 z - n)).
  { split.
    - apply Z.div_le_lower_bound; [lia|].
      rewrite <- pow2_add by lia. replace (n + (Zdigits2 z - n - 1)) with (Zdigits2 z - 1) by lia.
      exact Hlo.
    - apply Z.div_lt_upper_bound; [lia|].
      rewrite <- pow2_add by lia. replace (n + (Zdigits2 z - n)) with (Zdigits2 z) by lia.
      exact Hhi. }
  assert (0 < z / 2 ^ n).
  { pose proof (pow2_pos (Zdigits2 z - n - 1) ltac:(lia)). lia. }
  split; [assumption|]. apply Zdigits2_unique; [|assumption].
  replace (Zdigits2 z - n - 1) with (Zdigits2 z - n - 1) by lia. exact Hq.
Qed.

Lemma rne_bounds m r s :
  m <= round_nearest_even m (loc_of_shr_record (Build_shr_record m r s)) <= m + 1.
Proof.
  destruct r, s; cbn; try lia. destruct (Z.even m); lia.
Qed.

(* the first right shift: to the canonical exponent *)
Lemma shr_fexp_spec m1 e1 :
  0 < m1 -> -1074 <= e1 -> e1 <= fexp64 (Zdigits2 m1 + e1) ->
  exists r s,
    shr_fexp prec emax m1 e1 loc_Exact
    = (Build_shr_record (m1 / 2 ^ (fexp64 (Zdigits2 m1 + e1) - e1)) r s,
       fexp64 (Zdigits2 m1 + e1))
    /\ (m1 mod 2 ^ (fexp64 (Zdigits2 m1 + e1) - e1) = 0 -> r = false /\ s = false).
Proof.
  intros Hm He Hle. unfold shr_fexp, shr. cbn [shr_record_of_loc].
  destruct (fexp64 (Zdigits2 m1 + e1) - e1) as [|p|p] eqn:Hn; try lia.
  - exists false, false. rewrite Z.div_1_r. split; [|auto]. f_equal. lia.
  - rewrite iter_pos_nat.
    pose proof (shr_iter_spec (Pos.to_nat p) m1 ltac:(lia)) as [Hsm Hex].
    rewrite positive_nat_Z in Hsm, Hex.
    destruct (Nat.iter _ _ _) as [m' r s]. cbn [shr_m shr_r shr_s] in *.
    exists r, s. subst m'. split; [|exact Hex]. f_equal. lia.
Qed.

Lemma round_aux_spec s m1 e1 :
  0 < m1 -> -1074 <= e1 -> e1 <= fexp64 (Zdigits2 m1 + e1) ->
  exists mr er m'',
    binary_round_aux prec emax s m1 e1 loc_Exact
    = (if er <=? 971 then S754_finite s mr er else S754_infinity s)
    /\ fexp64 (digits mr + er) = er
    /\ fexp64 (Zdigits2 m1 + e1) <= er
    /\ Zpos mr * 2 ^ (er - fexp64 (Zdigits2 m1 + e1)) = m''
    /\ m1 / 2 ^ (fexp64 (Zdigits2 m1 + e1) - e1) <= m''
       <= m1 / 2 ^ (fexp64 (Zdigits2 m1 + e1) - e1) + 1
    /\ (m1 mod 2 ^ (fexp64 (Zdigits2 m1 + e1) - e1) = 0 ->
        m'' = m1 / 2 ^ (fexp64 (Zdigits2 m1 + e1) - e1))
    /\ 0 < m1 / 2 ^ (fexp64 (Zdigits2 m1 + e1) - e1)
    /\ Zdigits2 (m1 / 2 ^ (fexp64 (Zdigits2 m1 + e1) - e1))
       + fexp64 (Zdigits2 m1 + e1) = Zdigits2 m1 + e1.
Proof.
  intros Hm He Hle.
  set (e' := fexp64 (Zdigits2 m1 + e1)) in *.
  set (n := e' - e1).
  pose proof (Zdigits2_pos m1 Hm) as Hd1.
  assert (Hn : 0 <= n < Zdigits2 m1).
  { unfold n, e' in *. rewrite fexp64_eq in *. lia. }
  destruct (Zdigits2_div m1 n Hm Hn) as [Hm' Hdm'].
  set (m' := m1 / 2 ^ n) in *.
  unfold binary_round_aux.
  destruct (shr_fexp_spec m1 e1 Hm He Hle) as (r & s0 & -> & Hex).
  fold e' n m' in Hex |- *. cbn [shr_m].
  set (m'' := round_nearest_even m' (loc_of_shr_record (Build_shr_record m' r s0))).
  assert (Hb : m' <= m'' <= m' + 1) by apply rne_bounds.
  assert (Hexact : m1 mod 2 ^ n = 0 -> m'' = m').
  { intros H0. destruct (Hex H0) as [-> ->]. reflexivity. }
  assert (Hm'' : 0 < m'') by lia.
  pose proof (Zdigits2_bounds m' Hm') as [Hlo' Hhi'].
  pose proof (Zdigits2_bounds m'' Hm'') as [Hlo'' Hhi''].
  pose proof (Zdigits2_pos m' Hm') as Hdp.
  assert (Hk : fexp64 (Zdigits2 m' + e') = e').
  { rewrite Hdm'. unfold n. replace (Zdigits2 m1 - (e' - e1) + e') with (Zdigits2 m1 + e1) by lia.
    reflexivity. }
  assert (Hd'' : Zdigits2 m'' = Zdigits2 m' \/ (Zdigits2 m'' = Zdigits2 m' + 1 /\ m'' = 2 ^ Zdigits2 m')).
  { destruct (Z.lt_ge_cases m'' (2 ^ Zdigits2 m')) as [Hlt|Hge].
    - left. apply Zdigits2_unique; [|assumption]. lia.
    - right. assert (m'' = 2 ^ Zdigits2 m') by lia. split; [|assumption].
      apply Zdigits2_unique; [|assumption].
      replace (Zdigits2 m' + 1 - 1) with (Zdigits2 m') by lia.
      replace (Zdigits2 m' + 1) with (Z.succ (Zdigits2 m')) by lia.
      rewrite Z.pow_succ_r by lia. lia. }
  assert (Hle2 : e' <= fexp64 (Zdigits2 m'' + e')).
  { rewrite fexp64_eq in *. lia. }
  assert (He' : -1074 <= e') by (unfold e'; rewrite fexp64_eq; lia).
  destruct (shr_fexp_spec m'' e' Hm'' He' Hle2) as (r2 & s2 & -> & _).
  cbn [shr_m].
  set (er := fexp64 (Zdigits2 m'' + e')) in *.
  set (n2 := er - e').
  pose proof (Zdigits2_pos m'' Hm'') as Hdp''.
  assert (Hn2 : n2 = 0 \/ (n2 = 1 /\ m'' = 2 ^ Zdigits2 m' /\ 2 <= Zdigits2 m'')).
  { unfold n2, er. destruct Hd'' as [Heq|[Heq Hpow]]; rewrite Heq.
    - left. lia.
    - rewrite fexp64_eq in *. lia. }
  assert (Hdiv : m'' = (m'' / 2 ^ n2) * 2 ^ n2).
  { destruct Hn2 as [->|[-> [Hpow _]]].
    - cbn. rewrite Z.div_1_r. lia.
    - rewrite Hpow. replace (Zdigits2 m') with (Z.succ (Zdigits2 m' - 1)) by lia.
      rewrite Z.pow_succ_r by lia. change (2 ^ 1) with 2.
      rewrite (Z.mul_comm 2), Z.div_mul by lia. reflexivity. }
  assert (Hn2' : 0 <= n2 < Zdigits2 m'') by lia.
  destruct (Zdigits2_div m'' n2 Hm'' Hn2') as [Hmr Hdmr].
  destruct (m'' / 2 ^ n2) as [|mr|mr] eqn:Hq; try lia.
  exists mr, er, m''.
  split; [reflexivity|]. split.
  { unfold digits. change (Zpos (digits2_pos mr)) with (Zdigits2 (Zpos mr)).
    rewrite Hdmr. unfold n2. replace (Zdigits2 m'' - (er - e') + er) with (Zdigits2 m'' + e') by lia.
    reflexivity. }
  split; [lia|]. split; [symmetry; exact Hdiv|].
  split; [exact Hb|]. split; [exact Hexact|]. split; [exact Hm'|].
  rewrite Hdm'. unfold n. lia.
Qed.

Lemma weight_pos e : -1074 <= e -> 0 < weight e.
Proof. intros. apply pow2_pos. lia. Qed.

Lemma weight_split a b : -1074 <= a <= b -> weight b = weight a * 2 ^ (b - a).
Proof.
  intros H. unfold weight. rewrite <- pow2_add by lia. f_equal. lia.
Qed.

Lemma canonical_ge_emin m e : fexp64 (digits m + e) = e -> -1074 <= e.
Proof. rewrite fexp64_eq. lia. Qed.

(* a canonical value with the smaller exponent is below any value with more
   digits-plus-exponent *)
Lemma small_exponent_small_value my ey (m' : Z) e' :
  fexp64 (digits my + ey) = ey ->
  0 < m' -> fexp64 (Zdigits2 m' + e') = e' ->
  ey < e' ->
  Zpos my * weight ey < m' * weight e'.
Proof.
  intros Hy Hm' He' Hlt.
  assert (Hk : digits my + ey < Zdigits2 m' + e').
  { rewrite fexp64_eq in *. lia. }
  pose proof (digits_bounds my) as [_ Hhi]. pose proof (digits_pos my) as Hdp.
  pose proof (Zdigits2_bounds m' Hm') as [Hlo _].
  pose proof (Zdigits2_pos m' Hm') as Hdp'.
  assert (Hey : -1074 <= ey) by (rewrite fexp64_eq in Hy; lia).
  assert (He'' : -1074 <= e') by (rewrite fexp64_eq in He'; lia).
  pose proof (weight_pos ey Hey) as HWy. pose proof (weight_pos e' He'') as HW'.
  assert (H1 : Zpos my * weight ey < 2 ^ (digits my + ey + 1074)).
  { replace (digits my + ey + 1074) with (digits my + (ey + 1074)) by lia.
    rewrite pow2_add by lia. unfold weight in *. nia. }
  assert (H2 : 2 ^ (digits my + ey + 1074) <= 2 ^ (Zdigits2 m' - 1 + (e' + 1074))).
  { apply Z.pow_le_mono_r; lia. }
  rewrite (pow2_add (Zdigits2 m' - 1) (e' + 1074)) in H2 by lia.
  assert (H3 : 2 ^ (Zdigits2 m' - 1) * 2 ^ (e' + 1074) <= m' * weight e').
  { unfold weight in *. nia. }
  lia.
Qed.

Section RoundValue.
Variables (m1 e1 : Z) (mr : positive) (er m'' : Z).
Hypothesis Hm1 : 0 < m1.
Hypothesis He1 : -1074 <= e1.
Hypothesis Hle : e1 <= fexp64 (Zdigits2 m1 + e1).
Hypothesis Hcan : fexp64 (digits mr + er) = er.
Hypothesis Her : fexp64 (Zdigits2 m1 + e1) <= er.
Hypothesis Hval : Zpos mr * 2 ^ (er - fexp64 (Zdigits2 m1 + e1)) = m''.
Hypothesis Hb : m1 / 2 ^ (fexp64 (Zdigits2 m1 + e1) - e1) <= m''
                <= m1 / 2 ^ (fexp64 (Zdigits2 m1 + e1) - e1) + 1.
Hypothesis Hexact : m1 mod 2 ^ (fexp64 (Zdigits2 m1 + e1) - e1) = 0 ->
                    m'' = m1 / 2 ^ (fexp64 (Zdigits2 m1 + e1) - e1).
Hypothesis Hm' : 0 < m1 / 2 ^ (fexp64 (Zdigits2 m1 + e1) - e1).
Hypothesis Hdig : Zdigits2 (m1 / 2 ^ (fexp64 (Zdigits2 m1 + e1) - e1))
                  + fexp64 (Zdigits2 m1 + e1) = Zdigits2 m1 + e1.

Lemma rounded_value : Zpos mr * weight er = m'' * weight (fexp64 (Zdigits2 m1 + e1)).
Proof using All.
  rewrite (weight_split (fexp64 (Zdigits2 m1 + e1)) er) by lia.
  rewrite <- Hval. lia.
Qed.

Lemma round_ge my ey :
  fexp64 (digits my + ey) = ey ->
  Zpos my * weight ey <= m1 * weight e1 ->
  Zpos my * weight ey <= Zpos mr * weight er.
Proof using All.
  intros Hy Hv. rewrite rounded_value.
  set (e' := fexp64 (Zdigits2 m1 + e1)) in *.
  set (n := e' - e1) in *. set (m' := m1 / 2 ^ n) in *.
  assert (Hn : 0 <= n) by (unfold n; lia).
  assert (He' : -1074 <= e') by lia.
  pose proof (weight_pos e' He') as HW'. pose proof (weight_pos e1 He1) as HW1.
  pose proof (pow2_pos n Hn) as Hpn.
  assert (Hfloor : Zpos my * weight ey <= m' * weight e'); [|nia].
  destruct (Z.le_gt_cases e' ey) as [Hge|Hlt].
  - rewrite (weight_split e' ey) by lia.
    pose proof (pow2_pos (ey - e') ltac:(lia)) as HA.
    set (A := 2 ^ (ey - e')) in *.
    rewrite (weight_split e' ey), (weight_split e1 e') in Hv by lia.
    fold n A in Hv.
    assert (Hq : Zpos my * A <= m').
    { unfold m'. apply Z.div_le_lower_bound; [lia|]. nia. }
    nia.
  - apply Z.lt_le_incl.
    apply small_exponent_small_value; try assumption.
    fold e'. rewrite Hdig. reflexivity.
Qed.

Lemma round_le my ey :
  fexp64 (digits my + ey) = ey ->
  m1 * weight e1 <= Zpos my * weight ey ->
  Zpos mr * weight er <= Zpos my * weight ey.
Proof using All.
  intros Hy Hv. rewrite rounded_value.
  set (e' := fexp64 (Zdigits2 m1 + e1)) in *.
  set (n := e' - e1) in *. set (m' := m1 / 2 ^ n) in *.
  assert (Hn : 0 <= n) by (unfold n; lia).
  assert (He' : -1074 <= e') by lia.
  pose proof (weight_pos e' He') as HW'. pose proof (weight_pos e1 He1) as HW1.
  pose proof (pow2_pos n Hn) as Hpn.
  pose proof (Z.div_mod m1 (2 ^ n) ltac:(lia)) as Hdm.
  pose proof (Z.mod_pos_bound m1 (2 ^ n) Hpn) as Hrem.
  fold m' in Hdm.
  assert (HW : weight e' = weight e1 * 2 ^ n) by (apply weight_split; lia).
  destruct (Z.le_gt_cases e' ey) as [Hge|Hlt].
  - rewrite (weight_split e' ey) in * by lia.
    pose proof (pow2_pos (ey - e') ltac:(lia)) as HA.
    set (A := 2 ^ (ey - e')) in *.
    rewrite HW in Hv.
    assert (Hq : m1 <= Zpos my * A * 2 ^ n) by nia.
    destruct (Z.eq_dec (m1 mod 2 ^ n) 0) as [H0|H0].
    + rewrite (Hexact H0). assert (m' <= Zpos my * A) by nia. nia.
    + assert (m' < Zpos my * A) by nia. nia.
  - exfalso.
    assert (Zpos my * weight ey < m' * weight e').
    { apply small_exponent_small_value; try assumption.
      fold e'. rewrite Hdig. reflexivity. }
    rewrite HW in *. nia.
Qed.
End RoundValue.

(* canonical representations are ordered as their values *)
Lemma canonical_exp_le ma ea mb eb :
  fexp64 (digits ma + ea) = ea -> fexp64 (digits mb + eb) = eb ->
  Zpos ma * weight ea <= Zpos mb * weight eb -> ea <= eb.
Proof.
  intros Ha Hb Hv. destruct (Z.le_gt_cases ea eb) as [|Hlt]; [assumption|exfalso].
  pose proof (small_exponent_small_value mb eb (Zpos ma) ea Hb ltac:(lia) Ha Hlt).
  lia.
Qed.

Lemma canonical_not_ltb ma ea mb eb :
  fexp64 (digits ma + ea) = ea -> fexp64 (digits mb + eb) = eb ->
  Zpos ma * weight ea <= Zpos mb * weight eb ->
  SFltb (S754_finite false mb eb) (S754_finite false ma ea) = false.
Proof.
  intros Ha Hb Hv. pose proof (canonical_exp_le _ _ _ _ Ha Hb Hv) as Hle.
  unfold SFltb. cbn. destruct (Z.compare_spec eb ea) as [Heq|Hlt|Hgt]; try reflexivity; [|lia].
  subst eb. pose proof (weight_pos ea (canonical_ge_emin _ _ Ha)).
  assert (Zpos ma <= Zpos mb) by nia.
  change (PosDef.Pos.compare_cont Eq mb ma) with (Pos.compare mb ma).
  destruct (Pos.compare_spec mb ma) as [H1|H1|H1]; try reflexivity. lia.
Qed.

(* [binary_round]: the alignment before the rounding *)
Lemma binary_round_spec s m e :
  -1074 <= e ->
  exists mr er,
    binary_round prec emax s m e
    = (if er <=? 971 then S754_finite s mr er else S754_infinity s)
    /\ fexp64 (digits mr + er) = er
    /\ (forall my ey, fexp64 (digits my + ey) = ey ->
          Zpos my * weight ey <= Zpos m * weight e -> Zpos my * weight ey <= Zpos mr * weight er)
    /\ (forall my ey, fexp64 (digits my + ey) = ey ->
          Zpos m * weight e <= Zpos my * weight ey -> Zpos mr * weight er <= Zpos my * weight ey).
Proof.
  intros He. unfold binary_round.
  set (t := fexp64 (Zpos (digits2_pos m) + e)).
  assert (Ht : -1074 <= t) by (unfold t; rewrite fexp64_eq; lia).
  assert (Hal : exists mz ez,
             shl_align m e t = (mz, ez) /\ -1074 <= ez
             /\ ez <= fexp64 (Zdigits2 (Zpos mz) + ez)
             /\ Zpos mz * weight ez = Zpos m * weight e).
  { destruct (Z.le_gt_cases e t) as [Hle|Hgt].
    - exists m, e. rewrite shl_align_id by assumption.
      repeat split; assumption.
    - destruct (shl_align_spec m e t ltac:(lia)) as [H2 H1].
      destruct (shl_align m e t) as [mz ez]. cbn [fst snd] in *. subst ez.
      exists mz, t. split; [reflexivity|]. split; [assumption|].
      pose proof (pow2_pos (e - t) ltac:(lia)) as Hp.
      assert (Hd : Zdigits2 (Zpos mz) = digits m + (e - t)).
      { apply Zdigits2_unique; [|lia]. rewrite H1.
        pose proof (digits_bounds m) as [Hlo Hhi]. pose proof (digits_pos m).
        replace (digits m + (e - t) - 1) with (digits m - 1 + (e - t)) by lia.
        rewrite !pow2_add by lia. nia. }
      split.
      + rewrite Hd. replace (digits m + (e - t) + t) with (digits m + e) by lia.
        unfold t, digits. lia.
      + rewrite H1, (weight_split t e) by lia. lia. }
  destruct Hal as (mz & ez & -> & Hez & Hle & Hv).
  destruct (round_aux_spec s (Zpos mz) ez ltac:(lia) Hez Hle)
    as (mr & er & m'' & -> & Hcan & Her & Hval & Hb & Hexact & Hm' & Hdig).
  exists mr, er. split; [reflexivity|]. split; [exact Hcan|]. split.
  - intros my ey Hy Hle'. rewrite <- Hv in Hle'.
    apply (round_ge (Zpos mz) ez mr er m''); first [assumption | lia].
  - intros my ey Hy Hle'. rewrite <- Hv in Hle'.
    apply (round_le (Zpos mz) ez mr er m''); first [assumption | lia].
Qed.

Lemma valid_finite s m e :
  valid_binary (S754_finite s m e) = true ->
  fexp64 (digits m + e) = e /\ e <= 971.
Proof.
  cbn. unfold bounded, canonical_mantissa. intros H.
  apply andb_prop in H as [H1 H2].
  apply Z.eqb_eq in H1. apply Z.leb_le in H2. split; [exact H1|exact H2].
Qed.

(* rounding a value that is at least a representable [y] gives at least [y] *)
Lemma binary_round_not_below m e my ey :
  -1074 <= e -> fexp64 (digits my + ey) = ey ->
  Zpos my * weight ey <= Zpos m * weight e ->
  SFltb (binary_round prec emax false m e) (S754_finite false my ey) = false.
Proof.
  intros He Hy Hv.
  destruct (binary_round_spec false m e He) as (mr & er & -> & Hcan & Hge & _).
  destruct (er <=? 971); [|reflexivity].
  apply canonical_not_ltb; auto.
Qed.

(* rounding a value that is at most a representable [y] gives at most [y] *)
Lemma binary_round_not_above m e my ey :
  -1074 <= e -> fexp64 (digits my + ey) = ey -> ey <= 971 ->
  Zpos m * weight e <= Zpos my * weight ey ->
  SFltb (S754_finite false my ey) (binary_round prec emax false m e) = false.
Proof.
  intros He Hy Hmax Hv.
  destruct (binary_round_spec false m e He) as (mr & er & -> & Hcan & _ & Hle).
  specialize (Hle my ey Hy Hv).
  pose proof (canonical_exp_le _ _ _ _ Hcan Hy Hle) as Hexp.
  destruct (Z.leb_spec er 971); [|lia].
  apply canonical_not_ltb; auto.
Qed.

Lemma binary_round_sign m e :
  binary_round prec emax true m e = SFopp (binary_round prec emax false m e).
Proof.
  unfold binary_round. destruct (shl_align _ _ _) as [mz ez].
  unfold binary_round_aux.
  destruct (shr_fexp _ _ _ _ _) as [mrs' e'].
  destruct (shr_fexp _ _ _ _ _) as [mrs'' e''].
  destruct (shr_m mrs''); try reflexivity.
  destruct (e'' <=? emax - prec); reflexivity.
Qed.

Lemma SFltb_opp a b : SFltb (SFopp a) (SFopp b) = SFltb b a.
Proof.
  unfold SFltb.
  destruct a as [[]| []| |[] ma ea], b as [[]| []| |[] mb eb]; FloatOrder.by_cases.
Qed.

Lemma SFadd_not_below x d :
  valid_binary x = true -> valid_binary d = true ->
  SFltb (S754_zero false) d = true ->
  SFltb (SFadd prec emax x d) x = false.
Proof.
  intros Hx Hd Hpos.
  destruct d as [sd|sd| |sd md ed]; try discriminate.
  - (* d = +infinity *)
    destruct sd; [discriminate|].
    destruct x as [[]|[]| |[] mx ex]; reflexivity.
  - destruct sd; [discriminate|].
    destruct x as [sx|sx| |sx mx ex].
    + (* x = 0: the sum is d *) destruct sx; reflexivity.
    + destruct sx; reflexivity.
    + reflexivity.
    + destruct (valid_finite _ _ _ Hx) as [Hcx Hmx].
      destruct (valid_finite _ _ _ Hd) as [Hcd Hmd].
      pose proof (canonical_ge_emin _ _ Hcx) as Hex.
      pose proof (canonical_ge_emin _ _ Hcd) as Hed.
      cbn [SFadd]. set (ez := Z.min ex ed).
      assert (Hez : -1074 <= ez) by (unfold ez; lia).
      destruct (shl_align_spec mx ex ez ltac:(unfold ez; lia)) as [_ HX].
      destruct (shl_align_spec md ed ez ltac:(unfold ez; lia)) as [_ HD].
      set (X := fst (shl_align mx ex ez)) in *.
      set (D := fst (shl_align md ed ez)) in *.
      assert (HVx : Zpos mx * weight ex = Zpos X * weight ez).
      { rewrite HX, (weight_split ez ex) by (unfold ez; lia). lia. }
      pose proof (weight_pos ez Hez) as HW.
      destruct sx; cbn [cond_Zopp].
      * (* x < 0 *)
        destruct (- Zpos X + Zpos D) as [|p|p] eqn:HS; cbn [binary_normalize].
        -- reflexivity.
        -- destruct (binary_round_spec false p ez Hez) as (mr & er & -> & _).
           destruct (er <=? 971); reflexivity.
        -- rewrite binary_round_sign.
           change (S754_finite true mx ex) with (SFopp (S754_finite false mx ex)).
           rewrite SFltb_opp.
           apply binary_round_not_above; try assumption. nia.
      * (* 0 < x *)
        destruct (Zpos X + Zpos D) as [|p|p] eqn:HS; try lia. cbn [binary_normalize].
        apply binary_round_not_below; try assumption. nia.
Qed.

Lemma add_not_below (x d : float) :
  (0 <? d)%float = true -> (x + d <? x)%float = false.
Proof.
  rewrite !FloatAxioms.ltb_spec, add_spec. change (Prim2SF 0) with (S754_zero false).
  apply SFadd_not_below; apply Prim2SF_valid.
Qed.

Lemma float_of_Z_small z :
  1 <= z <= 2 ^ 1023 ->
  PrimFloat.is_infinity (float_of_Z z) = false
  /\ (float_of_Z z =? 0)%float = false.
Proof.
  intros Hz. unfold float_of_Z. destruct z as [|p|p]; try lia.
  cbn [binary_normalize].
  destruct (binary_round_spec false p 0 ltac:(lia)) as (mr & er & -> & Hcan & _ & Hle).
  assert (Hmax : fexp64 (digits (2 ^ 53 - 1)%positive + 971) = 971) by reflexivity.
  assert (Hv : Zpos p * weight 0 <= Zpos (2 ^ 53 - 1) * weight 971).
  { rewrite (weight_split 0 971) by lia. pose proof (weight_pos 0 ltac:(lia)).
    assert (2 ^ 1023 <= Zpos (2 ^ 53 - 1) * 2 ^ (971 - 0)) by (vm_compute; discriminate).
    nia. }
  pose proof (canonical_exp_le _ _ _ _ Hcan Hmax (Hle _ _ Hmax Hv)) as Her.
  destruct (Z.leb_spec er 971); [|lia].
  assert (Hvalid : valid_binary (S754_finite false mr er) = true).
  { cbn. unfold bounded, canonical_mantissa.
    apply andb_true_intro. split; [apply Z.eqb_eq; exact Hcan|apply Z.leb_le; assumption]. }
  unfold PrimFloat.is_infinity.
  rewrite !FloatAxioms.eqb_spec, FloatAxioms.abs_spec, (Prim2SF_SF2Prim _ Hvalid).
  split; reflexivity.
Qed.

End FloatRound.

(** ** The integrator: the claims *)

(** The [t] of the recurrence does not depend on [f]. *)
Lemma fst_euler_point f delta_t t0 y0 k :
  fst (euler_point f delta_t t0 y0 k) = euler_time delta_t t0 k.
Proof. induction k as [|k IH]; cbn; [|rewrite IH]; reflexivity. Qed.

Lemma map_fst_euler_points f delta_t t0 y0 n :
  map fst (euler_points f delta_t t0 y0 n) = map (euler_time delta_t t0) (seq 0 (S n)).
Proof.
  unfold euler_points. rewrite map_map. apply map_ext.
  intros k. apply fst_euler_point.
Qed.

Lemma tenths_below_five k :
  (k < 51)%nat -> (euler_time 0.1 0 k <? 5)%float = true.
Proof.
  intros Hk. do 51 (destruct k as [|k]; [vm_compute; reflexivity|]). lia.
Qed.

(** C3 (what the code does there): from [t0 = 0] to [t_end = 5] with
    [delta_t = 0.1] and a derivative that never raises, fifty additions of
    0.1 leave [t] just below 5, so the loop takes a 51st step: the trajectory
    has 52 points and its last [t] is 5.0999999999999979, more than 1e-9 away
    from 5. *)
Theorem euler_method_five_by_tenths f y0 fuel :
  exists r,
    euler_method (51 + fuel) (never_fails f) 0 y0 5 0.1 = Some r
    /\ length (trajectory r) = 52%nat
    /\ List.last (t_values r) 0%float = 5.0999999999999979%float
    /\ List.nth 50 (t_values r) 0%float = 4.9999999999999982%float
    /\ (1e-9 <? PrimFloat.abs (List.last (t_values r) 0 - 5))%float = true.
Proof.
  assert (Hlt : forall k, (k < 51)%nat ->
            (fst (euler_point f 0.1 0 y0 k) <? 5)%float = true).
  { intros k Hk. rewrite fst_euler_point. apply tenths_below_five, Hk. }
  assert (Hstop : (fst (euler_point f 0.1 0 y0 51) <? 5)%float = false).
  { rewrite fst_euler_point. vm_compute. reflexivity. }
  pose proof (iterates_euler_points f 5%float 0.1%float 0%float y0 51%nat Hlt) as Hit.
  eexists. split.
  - unfold euler_method. rewrite (iterates_loop _ _ _ _ _ _ _ _ _ _ Hit).
    destruct fuel; cbn [euler_loop]; rewrite Hstop; reflexivity.
  - unfold trajectory. cbn [t_values y_values].
    rewrite combine_fst_snd, map_fst_euler_points.
    unfold euler_points. rewrite length_map, length_seq.
    repeat split; vm_compute; reflexivity.
Qed.

(** C4: when the first [k] invocations of [f] succeed and the next one, at
    the state [(t, y)] they lead to, raises [e], [euler_method] returns the
    lists accumulated so far, [k + 1] entries each (the initial point and the
    [k] successful steps), and prints the report of the failure. *)
Theorem euler_method_truncates_on_failure f t0 y0 t_end delta_t k t y tv yv e fuel :
  iterates f t_end delta_t t0 y0 k t y tv yv ->
  (t <? t_end)%float = true ->
  f y t = Raise e ->
  (k < fuel)%nat ->
  euler_method fuel f t0 y0 t_end delta_t
  = Some (EulerOutput tv yv [ErrorEvaluatingF y t; ReprOf e; StoppingEarly])
  /\ length (trajectory (EulerOutput tv yv [ErrorEvaluatingF y t; ReprOf e; StoppingEarly]))
     = S k
  /\ hd_error tv = Some t0 /\ hd_error yv = Some y0.
Proof.
  intros Hit Hlt Hf Hfuel.
  destruct (iterates_shape _ _ _ _ _ _ _ _ _ _ Hit) as (Ht & Hy & Hht & Hhy & _).
  split; [|split; [|split; assumption]].
  - unfold euler_method.
    replace fuel with (k + S (fuel - S k))%nat by lia.
    rewrite (iterates_loop _ _ _ _ _ _ _ _ _ _ Hit).
    cbn [euler_loop]. rewrite Hlt, Hf. reflexivity.
  - unfold trajectory. cbn [t_values y_values].
    rewrite length_combine. lia.
Qed.

(** [f] raises at its third invocation: three points come back. *)
Lemma euler_method_truncates_on_failure_witness :
  euler_method 10 fails_from_one 0 1 5 0.5
  = Some (EulerOutput [0; 0.5; 1]%float [1; 1.5; 2.25]%float
            [ErrorEvaluatingF 2.25 1; ReprOf ValueError; StoppingEarly])
  /\ length (trajectory (EulerOutput [0; 0.5; 1]%float [1; 1.5; 2.25]%float
               [ErrorEvaluatingF 2.25 1; ReprOf ValueError; StoppingEarly]))
     = 3%nat
  /\ hd_error [0; 0.5; 1]%float = Some 0%float
  /\ hd_error [1; 1.5; 2.25]%float = Some 1%float.
Proof.
  apply (euler_method_truncates_on_failure fails_from_one 0 1 5 0.5 2%nat 1 2.25
           [0; 0.5; 1] [1; 1.5; 2.25] ValueError 10%nat)%float.
  - exact (iterates_S fails_from_one 5 0.5 0 1 1%nat 0.5 1.5 [0; 0.5] [1; 1.5] 1.5
             (iterates_S fails_from_one 5 0.5 0 1 0%nat 0 1 [0] [1] 1
                (iterates_O fails_from_one 5 0.5 0 1) eq_refl eq_refl)
             eq_refl eq_refl)%float.
  - reflexivity.
  - reflexivity.
  - lia.
Defined.

(** C10: whatever the inputs, a trajectory that [euler_method] returns starts
    with [(t0, y0)] and pairs every [t] with a [y]; when [t0 >= t_end], and
    more generally when [t0 < t_end] does not hold, it returns the single
    point [(t0, y0)]; when [f] raises at its first invocation it returns that
    single point with the report of the failure. *)
Theorem euler_method_starts_at_initial_point :
  (forall f t0 y0 t_end delta_t fuel r,
      euler_method fuel f t0 y0 t_end delta_t = Some r ->
      exists rest,
        trajectory r = (t0, y0) :: rest
        /\ length (t_values r) = length (y_values r))
  /\ (forall f t0 y0 t_end delta_t fuel,
        (t_end <=? t0)%float = true ->
        euler_method fuel f t0 y0 t_end delta_t = Some (EulerOutput [t0] [y0] []))
  /\ (forall f t0 y0 t_end delta_t fuel,
        (t0 <? t_end)%float = false ->
        euler_method fuel f t0 y0 t_end delta_t = Some (EulerOutput [t0] [y0] []))
  /\ (forall f t0 y0 t_end delta_t fuel e,
        (t0 <? t_end)%float = true ->
        f y0 t0 = Raise e ->
        euler_method (S fuel) f t0 y0 t_end delta_t
        = Some (EulerOutput [t0] [y0]
                  [ErrorEvaluatingF y0 t0; ReprOf e; StoppingEarly])).
Proof.
  assert (Hstop : forall f t0 y0 t_end delta_t fuel,
             (t0 <? t_end)%float = false ->
             euler_method fuel f t0 y0 t_end delta_t
             = Some (EulerOutput [t0] [y0] [])).
  { intros f t0 y0 t_end delta_t fuel H. unfold euler_method.
    destruct fuel; cbn [euler_loop]; rewrite H; reflexivity. }
  split; [|split; [|split]].
  - intros f t0 y0 t_end delta_t fuel r Hr.
    apply euler_loop_extends in Hr as (tv' & yv' & Ht & Hy & Hlen).
    exists (combine tv' yv'). unfold trajectory. rewrite Ht, Hy. cbn.
    split; [reflexivity | lia].
  - intros f t0 y0 t_end delta_t fuel H.
    apply Hstop, FloatOrder.leb_not_ltb, H.
  - exact Hstop.
  - intros f t0 y0 t_end delta_t fuel e Hlt Hf.
    unfold euler_method. cbn [euler_loop]. rewrite Hlt, Hf. reflexivity.
Qed.

Lemma euler_method_starts_at_initial_point_witness :
  (exists rest,
      trajectory (EulerOutput [0; 0.5; 1]%float [1; 1.5; 2.25]%float [])
      = (0, 1)%float :: rest
      /\ length [0; 0.5; 1]%float = length [1; 1.5; 2.25]%float)
  /\ euler_method 0 fails_from_one 3 1 2 0.5 = Some (EulerOutput [3]%float [1]%float [])
  /\ euler_method 0 fails_from_one nan 1 2 0.5 = Some (EulerOutput [nan] [1]%float [])
  /\ euler_method 1 fails_from_one 1 7 2 0.5
     = Some (EulerOutput [1]%float [7]%float
               [ErrorEvaluatingF 7 1; ReprOf ValueError; StoppingEarly]).
Proof.
  destruct euler_method_starts_at_initial_point as (H1 & H2 & H3 & H4).
  split; [|split; [|split]].
  - apply (H1 (never_fails (fun y _ => y)) 0 1 1 0.5 2%nat)%float. reflexivity.
  - apply H2. reflexivity.
  - apply H3. reflexivity.
  - apply H4; reflexivity.
Defined.

(** ** The exact-curve sampler *)

Ltac unfold_bind :=
  unfold mbind, result_bind, mret, result_ret in *.

Section SamplerFacts.
Variable g : float -> result float.
Variables t0 step : float.

(** A curve that comes back has one point per iteration, each the grid
    point of its index with the value of [g] there. *)
Lemma sample_loop_Return remaining :
  forall i T Y T' Y',
    sample_loop g t0 step remaining i T Y = Return (T', Y') ->
    exists ts ys,
      T' = T ++ ts /\ Y' = Y ++ ys
      /\ length ts = remaining /\ length ys = remaining
      /\ forall j, (j < remaining)%nat ->
           grid_point t0 step (i + Z.of_nat j) = Return (List.nth j ts 0%float)
           /\ g (List.nth j ts 0%float) = Return (List.nth j ys 0%float).
Proof.
  induction remaining as [|remaining IH]; intros i T Y T' Y'; cbn [sample_loop].
  - intros [= <- <-]. exists [], []. rewrite !app_nil_r.
    do 4 (split; [reflexivity|]). intros j Hj. lia.
  - unfold_bind.
    destruct (float_of_int i) as [fi|e] eqn:Hfi; [|discriminate].
    destruct (g (t0 + fi * step)%float) as [y|e] eqn:Hg; [|discriminate].
    intros H. apply IH in H as (ts & ys & -> & -> & Hts & Hys & Hpt).
    exists ((t0 + fi * step)%float :: ts), (y :: ys).
    rewrite <- !app_assoc. cbn [app length].
    do 4 (split; [first [reflexivity | lia]|]).
    intros [|j] Hj; cbn [List.nth].
    + split; [|exact Hg]. unfold grid_point. unfold_bind.
      replace (i + Z.of_nat 0) with i by lia. rewrite Hfi. reflexivity.
    + replace (i + Z.of_nat (S j)) with (i + 1 + Z.of_nat j) by lia.
      apply Hpt. lia.
Qed.

(** When every grid point can be computed and [g] succeeds there, the loop
    returns. *)
Lemma sample_loop_progress remaining :
  forall i T Y,
    (forall j, (j < remaining)%nat ->
       exists t y, grid_point t0 step (i + Z.of_nat j) = Return t /\ g t = Return y) ->
    exists r, sample_loop g t0 step remaining i T Y = Return r.
Proof.
  induction remaining as [|remaining IH]; intros i T Y Hok; cbn [sample_loop].
  - eexists. reflexivity.
  - destruct (Hok O ltac:(lia)) as (t & y & Ht & Hy).
    unfold grid_point in Ht. unfold_bind.
    replace (i + Z.of_nat 0) with i in Ht by lia.
    destruct (float_of_int i) as [fi|e]; [|discriminate].
    injection Ht as <-. rewrite Hy.
    apply IH. intros j Hj.
    replace (i + 1 + Z.of_nat j) with (i + Z.of_nat (S j)) by lia.
    apply Hok. lia.
Qed.
End SamplerFacts.

Lemma clamp_points_spec num_points :
  2 <= clamp_points num_points
  /\ (2 <= num_points -> clamp_points num_points = num_points)
  /\ (num_points < 2 -> clamp_points num_points = 2).
Proof. unfold clamp_points. destruct (Z.ltb_spec num_points 2); lia. Qed.

(** What a returned curve is made of. *)
Lemma smooth_exact_curve_Return g t0 t_end num_points T Y :
  smooth_exact_curve g t0 t_end num_points = Return (T, Y) ->
  exists step,
    grid_step t0 t_end (clamp_points num_points) = Return step
    /\ Z.of_nat (length T) = clamp_points num_points
    /\ length Y = length T
    /\ forall i, 0 <= i < clamp_points num_points ->
         grid_point t0 step i = Return (List.nth (Z.to_nat i) T 0%float)
         /\ g (List.nth (Z.to_nat i) T 0%float)
            = Return (List.nth (Z.to_nat i) Y 0%float).
Proof.
  unfold smooth_exact_curve. unfold_bind.
  destruct (grid_step t0 t_end (clamp_points num_points)) as [step|e]; [|discriminate].
  intros H. apply sample_loop_Return in H as (ts & ys & -> & -> & Hts & Hys & Hpt).
  pose proof (clamp_points_spec num_points) as (Hn & _).
  exists step. cbn [app]. do 3 (split; [first [reflexivity | lia]|]).
  intros i Hi. specialize (Hpt (Z.to_nat i) ltac:(lia)).
  replace (0 + Z.of_nat (Z.to_nat i)) with i in Hpt by lia. exact Hpt.
Qed.

(** ** Adding a zero *)

Module FloatZero.

Lemma is_finite_cases (x : float) :
  PrimFloat.is_finite x = true ->
  (exists s, Prim2SF x = S754_zero s) \/ (exists s m e, Prim2SF x = S754_finite s m e).
Proof.
  unfold PrimFloat.is_finite, PrimFloat.is_nan, PrimFloat.is_infinity.
  rewrite !FloatAxioms.eqb_spec, FloatAxioms.abs_spec.
  change (Prim2SF infinity) with (S754_infinity false).
  destruct (Prim2SF x) as [s|s| |s m e]; cbn; try discriminate; eauto.
  destruct s; discriminate.
Qed.

(** [t0 + 0 * step == t0] when [step] is finite and [t0] is a number. *)
Lemma add_zero_mul (t0 step : float) :
  PrimFloat.is_finite step = true -> PrimFloat.is_nan t0 = false ->
  (t0 + 0 * step =? t0)%float = true.
Proof.
  intros Hstep Ht0.
  unfold PrimFloat.is_nan in Ht0.
  rewrite negb_false_iff, FloatAxioms.eqb_spec in Ht0.
  rewrite FloatAxioms.eqb_spec, add_spec, mul_spec.
  change (Prim2SF 0) with (S754_zero false).
  unfold SFeqb in *.
  destruct (is_finite_cases step Hstep) as [[s ->]|(s & m & e & ->)];
    destruct (Prim2SF t0) as [[]|[]| |[] mt et]; destruct s;
    cbn in *; try discriminate; try reflexivity;
    rewrite Z.compare_refl, Pos.compare_cont_refl; reflexivity.
Qed.

End FloatZero.

(** ** Values as integers

    Sums and products of binary64 values through their keys: the rounding is
    monotone, so the points of a forward grid never decrease. *)

Module FloatKey.
Import FloatRound.

Lemma shr_iter_loc n m :
  0 <= m ->
  shr_r (Nat.iter (S n) shr_1 (Build_shr_record m false false))
  = Z.odd (m / 2 ^ Z.of_nat n)
  /\ (shr_s (Nat.iter (S n) shr_1 (Build_shr_record m false false)) = false
      <-> m mod 2 ^ Z.of_nat n = 0).
Proof.
  intros Hm. induction n as [|n IH].
  - cbn [Nat.iter]. rewrite (shr_1_spec _ _ _ Hm). cbn [shr_r shr_s].
    cbn. rewrite Z.div_1_r, Z.mod_1_r. tauto.
  - destruct IH as [IHr IHs].
    pose proof (shr_iter_spec (S n) m Hm) as [Hsm _].
    rewrite (Nat.iter_succ (S n)).
    destruct (Nat.iter (S n) shr_1 _) as [mj r s]. cbn [shr_m shr_r shr_s] in *.
    assert (Hp : 0 < 2 ^ Z.of_nat (S n)) by (apply pow2_pos; lia).
    assert (Hmj : 0 <= mj). { subst mj. apply Z.div_pos; lia. }
    rewrite (shr_1_spec _ _ _ Hmj). cbn [shr_r shr_s].
    split; [subst mj; reflexivity|].
    assert (Hpn : 0 < 2 ^ Z.of_nat n) by (apply pow2_pos; lia).
    assert (Hpow : 2 ^ Z.of_nat (S n) = 2 * 2 ^ Z.of_nat n).
    { rewrite Nat2Z.inj_succ, Z.pow_succ_r by lia. reflexivity. }
    (* m mod 2^(n+1) = (m / 2^n mod 2) * 2^n + m mod 2^n *)
    pose proof (Z.div_mod m (2 ^ Z.of_nat n) ltac:(lia)) as Hdm.
    pose proof (Z.mod_pos_bound m (2 ^ Z.of_nat n) Hpn) as Hb.
    pose proof (Z.div_mod (m / 2 ^ Z.of_nat n) 2 ltac:(lia)) as Hdm2.
    pose proof (Z.mod_pos_bound (m / 2 ^ Z.of_nat n) 2 ltac:(lia)) as Hb2.
    assert (Hrem : m mod 2 ^ Z.of_nat (S n)
                   = (m / 2 ^ Z.of_nat n) mod 2 * 2 ^ Z.of_nat n + m mod 2 ^ Z.of_nat n).
    { symmetry. apply Z.mod_unique_pos with (q := m / 2 ^ Z.of_nat n / 2); [nia|].
      rewrite Hpow. nia. }
    rewrite Hrem. rewrite orb_false_iff, IHr, IHs.
    rewrite <- Z.negb_even, negb_false_iff.
    rewrite Zmod_even in *. destruct (Z.even (m / 2 ^ Z.of_nat n)); split; intros; try split; try reflexivity; try nia; intuition (try discriminate; nia).
Qed.

Lemma rnd_digit_one V : rnd_digit V 1 = V.
Proof. unfold rnd_digit. rewrite Z.mod_1_r, Z.div_1_r. reflexivity. Qed.

Lemma rnd_digit_bounds V q : V / q <= rnd_digit V q <= V / q + 1.
Proof.
  unfold rnd_digit. destruct (_ <? _); [lia|].
  destruct (_ =? _); [destruct (Z.even _); lia|lia].
Qed.

Lemma rnd_digit_exact V q : 0 < q -> V mod q = 0 -> rnd_digit V q = V / q.
Proof.
  intros Hq H0. unfold rnd_digit. rewrite H0.
  destruct (Z.ltb_spec (2 * 0) q); [reflexivity|lia].
Qed.

(* the mantissa after the first shift and the rounding *)
Lemma shr_fexp_rne m1 e1 :
  0 < m1 -> e1 <= fexp64 (Zdigits2 m1 + e1) ->
  exists mrs,
    shr_fexp prec emax m1 e1 loc_Exact = (mrs, fexp64 (Zdigits2 m1 + e1))
    /\ round_nearest_even (shr_m mrs) (loc_of_shr_record mrs)
       = rnd_digit m1 (2 ^ (fexp64 (Zdigits2 m1 + e1) - e1)).
Proof.
  intros Hm Hle. unfold shr_fexp, shr. cbn [shr_record_of_loc].
  destruct (fexp64 (Zdigits2 m1 + e1) - e1) as [|p|p] eqn:Hn; try lia.
  - eexists. split; [f_equal; lia|]. cbn. rewrite rnd_digit_one. reflexivity.
  - rewrite iter_pos_nat.
    destruct (Pos.to_nat p) as [|n] eqn:Hp; [lia|].
    pose proof (shr_iter_spec (S n) m1 ltac:(lia)) as [Hsm _].
    pose proof (shr_iter_loc n m1 ltac:(lia)) as [Hr Hs].
    assert (HN : Zpos p = Z.of_nat (S n)) by lia.
    destruct (Nat.iter (S n) shr_1 _) as [m' r s]. cbn [shr_m shr_r shr_s] in *.
    eexists. split; [f_equal; lia|]. cbn [shr_m].
    rewrite HN.
    assert (Hpn : 0 < 2 ^ Z.of_nat n) by (apply pow2_pos; lia).
    assert (Hpow : 2 ^ Z.of_nat (S n) = 2 * 2 ^ Z.of_nat n).
    { rewrite Nat2Z.inj_succ, Z.pow_succ_r by lia. reflexivity. }
    pose proof (Z.div_mod m1 (2 ^ Z.of_nat n) ltac:(lia)) as Hdm.
    pose proof (Z.mod_pos_bound m1 (2 ^ Z.of_nat n) Hpn) as Hb.
    pose proof (Z.div_mod (m1 / 2 ^ Z.of_nat n) 2 ltac:(lia)) as Hdm2.
    pose proof (Z.mod_pos_bound (m1 / 2 ^ Z.of_nat n) 2 ltac:(lia)) as Hb2.
    assert (Hrem : m1 mod 2 ^ Z.of_nat (S n)
                   = (m1 / 2 ^ Z.of_nat n) mod 2 * 2 ^ Z.of_nat n + m1 mod 2 ^ Z.of_nat n).
    { symmetry. apply Z.mod_unique_pos with (q := m1 / 2 ^ Z.of_nat n / 2); [nia|].
      rewrite Hpow. nia. }
    unfold rnd_digit. rewrite <- Hsm, Hrem, Hpow.
    rewrite <- Z.negb_even in Hr. rewrite Zmod_even in *.
    destruct (Z.even (m1 / 2 ^ Z.of_nat n)); cbn in Hr; subst r.
    + (* the bit below the cut is 1 *)
      destruct s; cbn [loc_of_shr_record round_nearest_even].
      * assert (m1 mod 2 ^ Z.of_nat n <> 0) by (intros H0; apply Hs in H0; discriminate).
        destruct (Z.ltb_spec (2 * (0 * 2 ^ Z.of_nat n + m1 mod 2 ^ Z.of_nat n)) (2 * 2 ^ Z.of_nat n)); [|lia].
        reflexivity.
      * assert (H0 : m1 mod 2 ^ Z.of_nat n = 0) by (apply Hs; reflexivity).
        rewrite H0.
        destruct (Z.ltb_spec (2 * (0 * 2 ^ Z.of_nat n + 0)) (2 * 2 ^ Z.of_nat n)); [|lia].
        reflexivity.
    + destruct s; cbn [loc_of_shr_record round_nearest_even].
      * assert (m1 mod 2 ^ Z.of_nat n <> 0) by (intros H0; apply Hs in H0; discriminate).
        destruct (Z.ltb_spec (2 * (1 * 2 ^ Z.of_nat n + m1 mod 2 ^ Z.of_nat n)) (2 * 2 ^ Z.of_nat n)); [lia|].
        destruct (Z.eqb_spec (2 * (1 * 2 ^ Z.of_nat n + m1 mod 2 ^ Z.of_nat n)) (2 * 2 ^ Z.of_nat n)); [lia|].
        reflexivity.
      * assert (H0 : m1 mod 2 ^ Z.of_nat n = 0) by (apply Hs; reflexivity).
        rewrite H0.
        destruct (Z.ltb_spec (2 * (1 * 2 ^ Z.of_nat n + 0)) (2 * 2 ^ Z.of_nat n)); [lia|].
        destruct (Z.eqb_spec (2 * (1 * 2 ^ Z.of_nat n + 0)) (2 * 2 ^ Z.of_nat n)); [|lia].
        reflexivity.
Qed.

Lemma round_aux_value s m1 e1 :
  0 < m1 -> -1073 <= Zdigits2 m1 + e1 -> e1 <= fexp64 (Zdigits2 m1 + e1) ->
  exists mr er,
    binary_round_aux prec emax s m1 e1 loc_Exact
    = (if er <=? 971 then S754_finite s mr er else S754_infinity s)
    /\ fexp64 (digits mr + er) = er
    /\ fexp64 (Zdigits2 m1 + e1) <= er
    /\ Zpos mr * 2 ^ (er - fexp64 (Zdigits2 m1 + e1))
       = rnd_digit m1 (2 ^ (fexp64 (Zdigits2 m1 + e1) - e1))
    /\ 0 < m1 / 2 ^ (fexp64 (Zdigits2 m1 + e1) - e1)
    /\ Zdigits2 (m1 / 2 ^ (fexp64 (Zdigits2 m1 + e1) - e1))
       + fexp64 (Zdigits2 m1 + e1) = Zdigits2 m1 + e1.
Proof.
  intros Hm Hk Hle.
  set (e' := fexp64 (Zdigits2 m1 + e1)) in *.
  set (n := e' - e1).
  pose proof (Zdigits2_pos m1 Hm) as Hd1.
  assert (Hn : 0 <= n < Zdigits2 m1).
  { unfold n, e' in *. rewrite fexp64_eq in *. lia. }
  destruct (Zdigits2_div m1 n Hm Hn) as [Hm' Hdm'].
  set (m' := m1 / 2 ^ n) in *.
  unfold binary_round_aux.
  destruct (shr_fexp_rne m1 e1 Hm Hle) as (mrs & -> & Hrne).
  fold e' n in Hrne |- *. rewrite Hrne.
  set (m'' := rnd_digit m1 (2 ^ n)).
  assert (Hb : m' <= m'' <= m' + 1) by apply rnd_digit_bounds.
  assert (Hm'' : 0 < m'') by lia.
  pose proof (Zdigits2_bounds m' Hm') as [Hlo' Hhi'].
  pose proof (Zdigits2_bounds m'' Hm'') as [Hlo'' Hhi''].
  pose proof (Zdigits2_pos m' Hm') as Hdp.
  assert (Hd'' : Zdigits2 m'' = Zdigits2 m'
                 \/ (Zdigits2 m'' = Zdigits2 m' + 1 /\ m'' = 2 ^ Zdigits2 m')).
  { destruct (Z.lt_ge_cases m'' (2 ^ Zdigits2 m')) as [Hlt|Hge].
    - left. apply Zdigits2_unique; [|assumption]. lia.
    - right. assert (m'' = 2 ^ Zdigits2 m') by lia. split; [|assumption].
      apply Zdigits2_unique; [|assumption].
      replace (Zdigits2 m' + 1 - 1) with (Zdigits2 m') by lia.
      replace (Zdigits2 m' + 1) with (Z.succ (Zdigits2 m')) by lia.
      rewrite Z.pow_succ_r by lia. lia. }
  assert (Hke : Zdigits2 m' + e' = Zdigits2 m1 + e1) by (rewrite Hdm'; unfold n; lia).
  assert (Hk' : fexp64 (Zdigits2 m' + e') = e') by (rewrite Hke; reflexivity).
  assert (Hle2 : e' <= fexp64 (Zdigits2 m'' + e')).
  { rewrite fexp64_eq in *. lia. }
  assert (He' : -1074 <= e') by (unfold e'; rewrite fexp64_eq; lia).
  destruct (shr_fexp_spec m'' e' Hm'' He' Hle2) as (r2 & s2 & -> & _).
  cbn [shr_m].
  set (er := fexp64 (Zdigits2 m'' + e')) in *.
  set (n2 := er - e').
  pose proof (Zdigits2_pos m'' Hm'') as Hdp''.
  assert (Hn2 : n2 = 0 \/ (n2 = 1 /\ m'' = 2 ^ Zdigits2 m' /\ 2 <= Zdigits2 m'')).
  { unfold n2, er. destruct Hd'' as [Heq|[Heq Hpow]]; rewrite Heq.
    - left. lia.
    - rewrite fexp64_eq in *. lia. }
  assert (Hdiv : m'' = (m'' / 2 ^ n2) * 2 ^ n2).
  { destruct Hn2 as [->|[-> [Hpow _]]].
    - cbn. rewrite Z.div_1_r. lia.
    - rewrite Hpow. replace (Zdigits2 m') with (Z.succ (Zdigits2 m' - 1)) by lia.
      rewrite Z.pow_succ_r by lia. change (2 ^ 1) with 2.
      rewrite (Z.mul_comm 2), Z.div_mul by lia. reflexivity. }
  assert (Hn2' : 0 <= n2 < Zdigits2 m'') by lia.
  destruct (Zdigits2_div m'' n2 Hm'' Hn2') as [Hmr Hdmr].
  destruct (m'' / 2 ^ n2) as [|mr|mr] eqn:Hq; try lia.
  exists mr, er.
  split; [reflexivity|]. split.
  { unfold digits. change (Zpos (digits2_pos mr)) with (Zdigits2 (Zpos mr)).
    rewrite Hdmr. unfold n2. replace (Zdigits2 m'' - (er - e') + er) with (Zdigits2 m'' + e') by lia.
    reflexivity. }
  split; [lia|]. split; [symmetry; exact Hdiv|].
  split; [exact Hm'|exact Hke].
Qed.

Lemma scale_pos e : -2200 <= e -> 0 < scale e.
Proof. intros. apply pow2_pos. lia. Qed.

Lemma scale_split a b : -2200 <= a <= b -> scale b = scale a * 2 ^ (b - a).
Proof. intros H. unfold scale. rewrite <- pow2_add by lia. f_equal. lia. Qed.

Lemma Zdigits2_mono a b : 0 < a <= b -> Zdigits2 a <= Zdigits2 b.
Proof.
  intros [Ha Hab]. pose proof (Zdigits2_bounds a Ha) as [Hlo _].
  pose proof (Zdigits2_bounds b ltac:(lia)) as [_ Hhi].
  destruct (Z.le_gt_cases (Zdigits2 a) (Zdigits2 b)) as [|Hgt]; [assumption|exfalso].
  pose proof (Zdigits2_pos b ltac:(lia)).
  assert (2 ^ Zdigits2 b <= 2 ^ (Zdigits2 a - 1)) by (apply Z.pow_le_mono_r; lia).
  lia.
Qed.

Lemma Zdigits2_scale m a : 0 < m -> 0 <= a -> Zdigits2 (m * 2 ^ a) = Zdigits2 m + a.
Proof.
  intros Hm Ha. pose proof (Zdigits2_bounds m Hm) as [Hlo Hhi].
  pose proof (Zdigits2_pos m Hm). pose proof (pow2_pos a Ha).
  apply Zdigits2_unique; [|nia].
  replace (Zdigits2 m + a - 1) with (Zdigits2 m - 1 + a) by lia.
  rewrite !pow2_add by lia. nia.
Qed.

Lemma rnd_digit_scale V q c :
  0 < q -> 0 < c -> rnd_digit (V * c) (q * c) = rnd_digit V q.
Proof.
  intros Hq Hc. unfold rnd_digit.
  rewrite Z.div_mul_cancel_r, Z.mul_mod_distr_r by lia.
  replace (2 * (V mod q * c)) with (2 * (V mod q) * c) by lia.
  destruct (Z.ltb_spec (2 * (V mod q) * c) (q * c)), (Z.ltb_spec (2 * (V mod q)) q);
    try nia; try reflexivity.
  destruct (Z.eqb_spec (2 * (V mod q) * c) (q * c)), (Z.eqb_spec (2 * (V mod q)) q);
    try nia; reflexivity.
Qed.

(* the value that [round_aux_value] gives, in units *)
Lemma rounded_units m1 e1 (mr : positive) er :
  0 < m1 -> -2200 <= e1 -> e1 <= fexp64 (Zdigits2 m1 + e1) ->
  fexp64 (Zdigits2 m1 + e1) <= er ->
  Zpos mr * 2 ^ (er - fexp64 (Zdigits2 m1 + e1))
  = rnd_digit m1 (2 ^ (fexp64 (Zdigits2 m1 + e1) - e1)) ->
  Zpos mr * scale er = round_units (m1 * scale e1).
Proof.
  intros Hm He Hle Her Hval. unfold round_units, ulp_exponent.
  assert (Hd : Zdigits2 (m1 * scale e1) = Zdigits2 m1 + (e1 + 2200))
    by (unfold scale; apply Zdigits2_scale; lia).
  rewrite Hd.
  replace (Zdigits2 m1 + (e1 + 2200) - 2200) with (Zdigits2 m1 + e1) by lia.
  set (e' := fexp64 (Zdigits2 m1 + e1)) in *.
  rewrite (scale_split e1 e') by lia.
  rewrite (Z.mul_comm (scale e1) (2 ^ (e' - e1))).
  rewrite rnd_digit_scale by (try apply pow2_pos; try apply scale_pos; lia).
  rewrite <- Hval.
  rewrite (scale_split e1 er) by lia.
  replace (er - e1) with (e' - e1 + (er - e')) by lia.
  rewrite pow2_add by lia. ring.
Qed.

Lemma rnd_digit_mono_rem V1 V2 q :
  0 < q -> V1 <= V2 -> V1 / q = V2 / q -> rnd_digit V1 q <= rnd_digit V2 q.
Proof.
  intros Hq Hle HF.
  pose proof (Z.div_mod V1 q ltac:(lia)) as H1.
  pose proof (Z.div_mod V2 q ltac:(lia)) as H2.
  assert (Hrem : V1 mod q <= V2 mod q) by (rewrite HF in H1; nia).
  unfold rnd_digit. rewrite HF.
  destruct (Z.ltb_spec (2 * (V1 mod q)) q), (Z.ltb_spec (2 * (V2 mod q)) q);
    try lia;
    destruct (Z.eqb_spec (2 * (V1 mod q)) q), (Z.eqb_spec (2 * (V2 mod q)) q);
    try lia; destruct (Z.even (V2 / q)); lia.
Qed.

Lemma round_units_mono V1 V2 :
  scale (-1074) <= V1 <= V2 -> round_units V1 <= round_units V2.
Proof.
  intros [Hmin Hle].
  assert (Hu : 0 < scale (-1074)) by (apply scale_pos; lia).
  assert (HV1 : 0 < V1) by lia. assert (HV2 : 0 < V2) by lia.
  pose proof (Zdigits2_mono V1 V2 ltac:(lia)) as Hd.
  assert (Hdmin : 1127 <= Zdigits2 V1).
  { pose proof (Zdigits2_mono (scale (-1074)) V1 ltac:(lia)) as H.
    change (Zdigits2 (scale (-1074))) with 1127 in H. exact H. }
  pose proof (Zdigits2_bounds V1 HV1) as [Hlo1 Hhi1].
  pose proof (Zdigits2_bounds V2 HV2) as [Hlo2 Hhi2].
  unfold round_units, ulp_exponent.
  set (k1 := Zdigits2 V1 - 2200). set (k2 := Zdigits2 V2 - 2200).
  assert (Hg1 : -1074 <= fexp64 k1 <= k1 - 1)
    by (unfold k1; rewrite fexp64_eq; lia).
  assert (Hg2 : -1074 <= fexp64 k2 <= k2 - 1)
    by (unfold k2; rewrite fexp64_eq; lia).
  assert (Hg : fexp64 k1 <= fexp64 k2)
    by (unfold k1, k2; rewrite !fexp64_eq; lia).
  set (g1 := fexp64 k1) in *. set (g2 := fexp64 k2) in *.
  pose proof (scale_pos g1 ltac:(lia)) as Hq1.
  pose proof (scale_pos g2 ltac:(lia)) as Hq2.
  pose proof (rnd_digit_bounds V1 (scale g1)) as Hb1.
  pose proof (rnd_digit_bounds V2 (scale g2)) as Hb2.
  destruct (Z.eq_dec g1 g2) as [Heq|Hne].
  - rewrite <- Heq in *.
    pose proof (Z.div_le_mono V1 V2 (scale g1) Hq1 Hle) as HF.
    destruct (Z.eq_dec (V1 / scale g1) (V2 / scale g1)) as [HFe|HFn].
    + pose proof (rnd_digit_mono_rem V1 V2 (scale g1) Hq1 Hle HFe). nia.
    + nia.
  - (* the values are in different binades *)
    assert (Hk : k1 < k2) by (unfold g1, g2, k1, k2 in *; rewrite !fexp64_eq in *; lia).
    (* the rounding of V1 is at most the power of two above it *)
    assert (HP1 : 2 ^ Zdigits2 V1 = scale g1 * 2 ^ (k1 - g1)).
    { unfold scale. rewrite <- pow2_add by lia. f_equal. unfold k1. lia. }
    assert (HF1 : V1 / scale g1 < 2 ^ (k1 - g1)).
    { apply Z.div_lt_upper_bound; lia. }
    assert (HR1 : rnd_digit V1 (scale g1) * scale g1 <= 2 ^ Zdigits2 V1) by nia.
    (* the rounding of V2 is at least the power of two below it *)
    assert (HP2 : 2 ^ (Zdigits2 V2 - 1) = scale g2 * 2 ^ (k2 - 1 - g2)).
    { unfold scale. rewrite <- pow2_add by lia. f_equal. unfold k2. lia. }
    assert (HF2 : 2 ^ (k2 - 1 - g2) <= V2 / scale g2).
    { apply Z.div_le_lower_bound; lia. }
    assert (HR2 : 2 ^ (Zdigits2 V2 - 1) <= rnd_digit V2 (scale g2) * scale g2) by nia.
    assert (2 ^ Zdigits2 V1 <= 2 ^ (Zdigits2 V2 - 1))
      by (apply Z.pow_le_mono_r; unfold k1, k2 in Hk; lia).
    lia.
Qed.

(* a canonical value is its own rounding *)
Lemma round_units_canonical m e :
  fexp64 (digits m + e) = e -> round_units (Zpos m * scale e) = Zpos m * scale e.
Proof.
  intros Hc. pose proof (canonical_ge_emin m e Hc) as He.
  unfold round_units, ulp_exponent.
  assert (Hd : Zdigits2 (Zpos m * scale e) = Zdigits2 (Zpos m) + (e + 2200))
    by (unfold scale; apply Zdigits2_scale; lia).
  rewrite Hd. replace (Zdigits2 (Zpos m) + (e + 2200) - 2200) with (digits m + e)
    by (unfold digits; cbn; lia).
  rewrite Hc. pose proof (scale_pos e ltac:(lia)).
  rewrite rnd_digit_exact by (try apply Z.mod_mul; lia).
  rewrite Z.div_mul by lia. reflexivity.
Qed.

Lemma scale_weight e : -1074 <= e -> scale e = weight e * 2 ^ 1126.
Proof.
  intros He. unfold scale, weight. rewrite <- pow2_add by lia. f_equal. lia.
Qed.

Lemma canonical_digits m e : fexp64 (digits m + e) = e -> digits m <= 53.
Proof. rewrite fexp64_eq. lia. Qed.

Lemma finite_below_overflow m e :
  fexp64 (digits m + e) = e -> e <= 971 -> 0 < Zpos m * scale e < scale 1024.
Proof.
  intros Hc He. pose proof (canonical_digits m e Hc) as Hd.
  pose proof (canonical_ge_emin m e Hc) as Hmin.
  pose proof (digits_bounds m) as [_ Hhi]. pose proof (digits_pos m).
  pose proof (scale_pos e ltac:(lia)).
  assert (2 ^ digits m <= 2 ^ 53) by (apply Z.pow_le_mono_r; lia).
  assert (scale e <= scale 971) by (unfold scale; apply Z.pow_le_mono_r; lia).
  assert (2 ^ 53 * scale 971 = scale 1024) by reflexivity.
  nia.
Qed.

Lemma canonical_not_ltb_units ma ea mb eb :
  fexp64 (digits ma + ea) = ea -> fexp64 (digits mb + eb) = eb ->
  Zpos ma * scale ea <= Zpos mb * scale eb ->
  SFltb (S754_finite false mb eb) (S754_finite false ma ea) = false.
Proof.
  intros Ha Hb Hv. apply canonical_not_ltb; try assumption.
  rewrite !scale_weight in Hv by (eapply canonical_ge_emin; eassumption).
  assert (0 < 2 ^ 1126) by (apply pow2_pos; lia). nia.
Qed.

(* the key of an infinity is above the finite ones *)
Lemma huge_above : 0 < scale 1024 < huge.
Proof. split; reflexivity. Qed.

Lemma huge_half : exists h, 2 ^ 4999 = h /\ scale 1024 < h /\ h + h = huge.
Proof. exists (2 ^ 4999). repeat split. Qed.

(* values that are numbers are ordered as their keys *)
Lemma key_not_ltb a b :
  valid_binary a = true -> valid_binary b = true ->
  is_number_sf a = true -> is_number_sf b = true ->
  key a <= key b -> SFltb b a = false.
Proof.
  intros Ha Hb Hna Hnb Hk.
  destruct a as [sa|sa| |sa ma ea], b as [sb|sb| |sb mb eb];
    try discriminate Hna; try discriminate Hnb;
    try (destruct (valid_finite _ _ _ Ha) as [Hca Hea];
         pose proof (finite_below_overflow _ _ Hca Hea));
    try (destruct (valid_finite _ _ _ Hb) as [Hcb Heb];
         pose proof (finite_below_overflow _ _ Hcb Heb));
    try destruct sa; try destruct sb; cbn [key] in Hk; try reflexivity;
    try (exfalso; pose proof huge_above; lia).
  - change (S754_finite true mb eb) with (SFopp (S754_finite false mb eb)).
    change (S754_finite true ma ea) with (SFopp (S754_finite false ma ea)).
    rewrite SFltb_opp. apply canonical_not_ltb_units; try assumption. lia.
  - apply canonical_not_ltb_units; assumption.
Qed.

Lemma key_ltb_lt a b :
  valid_binary a = true -> valid_binary b = true ->
  SFltb a b = true -> key a < key b.
Proof.
  intros Ha Hb Hlt.
  destruct (Z.lt_ge_cases (key a) (key b)) as [|Hge]; [assumption|exfalso].
  assert (is_number_sf a = true /\ is_number_sf b = true) as [Hna Hnb].
  { destruct a, b; try discriminate; split; reflexivity. }
  rewrite (key_not_ltb b a Hb Ha Hnb Hna Hge) in Hlt. discriminate.
Qed.

Lemma cap_mono V1 V2 : V1 <= V2 -> cap V1 <= cap V2.
Proof.
  intros Hle. unfold cap.
  assert (Hh : scale 1024 < huge) by reflexivity.
  destruct (Z.ltb_spec V1 (scale 1024)), (Z.ltb_spec V2 (scale 1024)); lia.
Qed.

Lemma cap_pos V : 0 < V -> 0 < cap V.
Proof.
  intros. unfold cap. destruct (Z.ltb_spec V (scale 1024)); [lia|reflexivity].
Qed.

(* what the rounding of a positive value is, as a key *)
Lemma round_aux_key s m1 e1 :
  0 < m1 -> -2200 <= e1 -> -1073 <= Zdigits2 m1 + e1 ->
  e1 <= fexp64 (Zdigits2 m1 + e1) ->
  valid_binary (binary_round_aux prec emax s m1 e1 loc_Exact) = true
  /\ is_number_sf (binary_round_aux prec emax s m1 e1 loc_Exact) = true
  /\ key (binary_round_aux prec emax s m1 e1 loc_Exact)
     = if s then - cap (round_units (m1 * scale e1))
       else cap (round_units (m1 * scale e1)).
Proof.
  intros Hm He Hk Hle.
  destruct (round_aux_value s m1 e1 Hm Hk Hle)
    as (mr & er & -> & Hcan & Her & Hval & _ & _).
  rewrite <- (rounded_units m1 e1 mr er Hm He Hle Her Hval).
  destruct (Z.leb_spec er 971) as [Hfin|Hinf].
  - pose proof (finite_below_overflow mr er Hcan Hfin) as Hb.
    split; [|split; [reflexivity|]].
    + cbn. unfold bounded, canonical_mantissa. apply andb_true_intro.
      split; [apply Z.eqb_eq; exact Hcan|apply Z.leb_le; exact Hfin].
    + cbn [key]. unfold cap.
      destruct (Z.ltb_spec (Zpos mr * scale er) (scale 1024)); [reflexivity|lia].
  - split; [reflexivity|]. split; [reflexivity|].
    assert (Hd : digits mr = 53) by (rewrite fexp64_eq in Hcan; lia).
    pose proof (digits_bounds mr) as [Hlo _]. rewrite Hd in Hlo.
    assert (scale 972 <= scale er) by (unfold scale; apply Z.pow_le_mono_r; lia).
    assert (2 ^ (53 - 1) * scale 972 = scale 1024) by reflexivity.
    assert (0 < scale 972) by reflexivity.
    cbn [key]. unfold cap.
    destruct (Z.ltb_spec (Zpos mr * scale er) (scale 1024)); [nia|reflexivity].
Qed.

(* the alignment before the rounding keeps the value *)
Lemma shl_align_units m e :
  -1074 <= e ->
  exists mz ez,
    shl_align m e (fexp64 (Zpos (digits2_pos m) + e)) = (mz, ez)
    /\ -1074 <= ez
    /\ ez <= fexp64 (Zdigits2 (Zpos mz) + ez)
    /\ -1073 <= Zdigits2 (Zpos mz) + ez
    /\ Zpos mz * scale ez = Zpos m * scale e.
Proof.
  intros He. set (t := fexp64 (Zpos (digits2_pos m) + e)).
  assert (Ht : -1074 <= t) by (unfold t; rewrite fexp64_eq; lia).
  pose proof (digits_pos m) as Hdp. unfold digits in Hdp.
  destruct (Z.le_gt_cases e t) as [Hle|Hgt].
  - exists m, e. rewrite shl_align_id by assumption.
    repeat split; try assumption. cbn [Zdigits2]. lia.
  - destruct (shl_align_spec m e t ltac:(lia)) as [H2 H1].
    destruct (shl_align m e t) as [mz ez]. cbn [fst snd] in *. subst ez.
    exists mz, t. split; [reflexivity|]. split; [assumption|].
    assert (Hd : Zdigits2 (Zpos mz) = digits m + (e - t)).
    { rewrite H1. apply (Zdigits2_scale (Zpos m)); lia. }
    split; [|split].
    + rewrite Hd. replace (digits m + (e - t) + t) with (digits m + e) by lia.
      unfold t, digits. lia.
    + rewrite Hd. unfold digits. lia.
    + rewrite H1, (scale_split t e) by lia. ring.
Qed.

Lemma binary_round_key s m e :
  -1074 <= e ->
  valid_binary (binary_round prec emax s m e) = true
  /\ is_number_sf (binary_round prec emax s m e) = true
  /\ key (binary_round prec emax s m e)
     = if s then - cap (round_units (Zpos m * scale e))
       else cap (round_units (Zpos m * scale e)).
Proof.
  intros He. unfold binary_round.
  destruct (shl_align_units m e He) as (mz & ez & -> & Hez & Hle & Hk & Hv).
  rewrite <- Hv. apply round_aux_key; try assumption; lia.
Qed.

Lemma round_units_pos V : scale (-1074) <= V -> 0 < round_units V.
Proof.
  intros HV.
  pose proof (round_units_mono (scale (-1074)) V ltac:(lia)) as H.
  change (round_units (scale (-1074))) with (scale (-1074)) in H.
  assert (0 < scale (-1074)) by reflexivity. lia.
Qed.

(* [round_key] is monotone on the values that sums of floats take *)
Lemma round_key_mono A B :
  (A = 0 \/ scale (-1074) <= Z.abs A) -> (B = 0 \/ scale (-1074) <= Z.abs B) ->
  A <= B -> round_key A <= round_key B.
Proof.
  intros HA HB Hle. unfold round_key.
  assert (Hu : 0 < scale (-1074)) by reflexivity.
  destruct (Z.eqb_spec A 0) as [->|HA0], (Z.eqb_spec B 0) as [->|HB0].
  - lia.
  - destruct (Z.ltb_spec 0 B); [|lia].
    apply Z.lt_le_incl, cap_pos, round_units_pos. lia.
  - destruct (Z.ltb_spec 0 A); [lia|].
    pose proof (cap_pos (round_units (- A)) (round_units_pos (- A) ltac:(lia))). lia.
  - destruct (Z.ltb_spec 0 A), (Z.ltb_spec 0 B); try lia.
    + apply cap_mono, round_units_mono. lia.
    + pose proof (cap_pos (round_units (- A)) (round_units_pos (- A) ltac:(lia))).
      pose proof (cap_pos (round_units B) (round_units_pos B ltac:(lia))). lia.
    + pose proof (cap_mono _ _ (round_units_mono (- B) (- A) ltac:(lia))). lia.
Qed.

(* the converse: what is not below has the larger key *)
Lemma key_le_of_not_ltb a b :
  valid_binary a = true -> valid_binary b = true ->
  is_number_sf a = true -> is_number_sf b = true ->
  SFltb a b = false -> key b <= key a.
Proof.
  intros Ha Hb Hna Hnb Hlt.
  destruct (Z.le_gt_cases (key b) (key a)) as [|Hgt]; [assumption|exfalso].
  (* the comparison is then [Eq] or [Gt]; neither fits the keys *)
  assert (Hcmp : SFcompare a b = Some Eq \/ SFltb b a = true).
  { revert Hlt. clear Hgt Ha Hb. unfold SFltb.
    destruct a as [[]|[]| |[] ma ea], b as [[]|[]| |[] mb eb];
      try discriminate Hna; try discriminate Hnb;
      cbn; auto;
      destruct (Z.compare_spec ea eb), (Z.compare_spec eb ea); try lia; auto;
      try discriminate;
      change (PosDef.Pos.compare_cont Eq ma mb) with (Pos.compare ma mb);
      change (PosDef.Pos.compare_cont Eq mb ma) with (Pos.compare mb ma);
      rewrite (Pos.compare_antisym ma mb);
      destruct (Pos.compare ma mb); cbn; auto; discriminate. }
  destruct Hcmp as [Heq|Hgt'].
  - assert (key a = key b); [|lia].
    revert Heq. clear.
    destruct a as [[]|[]| |[] ma ea], b as [[]|[]| |[] mb eb]; cbn;
      try discriminate; try reflexivity;
      destruct (Z.compare_spec ea eb); try discriminate;
      change (PosDef.Pos.compare_cont Eq ma mb) with (Pos.compare ma mb);
      destruct (Pos.compare_spec ma mb); try discriminate; subst; reflexivity.
  - pose proof (key_ltb_lt b a Hb Ha Hgt'). lia.
Qed.

(* every key is a whole number of smallest positive values *)
Lemma key_multiple x :
  valid_binary x = true -> exists c, key x = c * scale (-1074).
Proof.
  intros Hx. destruct x as [s|s| |s m e].
  - exists 0. reflexivity.
  - exists (if s then - 2 ^ (5000 - 1126) else 2 ^ (5000 - 1126)).
    destruct s; cbn [key]; unfold huge, scale;
      rewrite ?Z.mul_opp_l, <- pow2_add by lia; reflexivity.
  - exists 0. reflexivity.
  - destruct (valid_finite _ _ _ Hx) as [Hc _].
    pose proof (canonical_ge_emin _ _ Hc) as He.
    exists (if s then - (Zpos m * 2 ^ (e + 1074)) else Zpos m * 2 ^ (e + 1074)).
    destruct s; cbn [key]; rewrite (scale_split (-1074) e) by lia;
      replace (e - -1074) with (e + 1074) by lia; ring.
Qed.

Lemma key_sum_admissible x u :
  valid_binary x = true -> valid_binary u = true -> admissible (key x + key u).
Proof.
  intros Hx Hu. destruct (key_multiple x Hx) as (c & ->).
  destruct (key_multiple u Hu) as (d & ->).
  assert (0 < scale (-1074)) by reflexivity.
  unfold admissible. destruct (Z.eq_dec (c + d) 0) as [H0|Hn]; [left; nia|right].
  replace (c * scale (-1074) + d * scale (-1074)) with ((c + d) * scale (-1074)) by ring.
  rewrite Z.abs_mul. rewrite (Z.abs_eq (scale (-1074))) by lia. nia.
Qed.

Lemma round_key_canonical s m e :
  fexp64 (digits m + e) = e -> e <= 971 ->
  round_key (key (S754_finite s m e)) = key (S754_finite s m e).
Proof.
  intros Hc He. pose proof (finite_below_overflow m e Hc He) as Hb.
  unfold round_key. destruct s; cbn [key].
  - destruct (Z.eqb_spec (- (Zpos m * scale e)) 0); [lia|].
    destruct (Z.ltb_spec 0 (- (Zpos m * scale e))); [lia|].
    rewrite Z.opp_involutive, round_units_canonical by assumption.
    unfold cap. destruct (Z.ltb_spec (Zpos m * scale e) (scale 1024)); [reflexivity|lia].
  - destruct (Z.eqb_spec (Zpos m * scale e) 0); [lia|].
    destruct (Z.ltb_spec 0 (Zpos m * scale e)); [|lia].
    rewrite round_units_canonical by assumption.
    unfold cap. destruct (Z.ltb_spec (Zpos m * scale e) (scale 1024)); [reflexivity|lia].
Qed.

Lemma round_key_huge A : 2 ^ 4999 <= A -> round_key A = huge.
Proof.
  intros HA.
  assert (Hu : scale (-1074) <= 2 ^ 4999) by (vm_compute; discriminate).
  assert (Hr : round_units (2 ^ 4999) = 2 ^ 4999) by (vm_compute; reflexivity).
  assert (Ho : scale 1024 <= 2 ^ 4999) by (vm_compute; discriminate).
  pose proof huge_above as Hh.
  revert HA Hu Hr Ho. generalize (2 ^ 4999). intros h HA Hu Hr Ho.
  pose proof (round_units_mono h A (conj Hu HA)) as Hm.
  assert (Hp : 0 < scale (-1074)) by reflexivity.
  unfold round_key.
  destruct (Z.eqb_spec A 0); [lia|]. destruct (Z.ltb_spec 0 A); [|lia].
  unfold cap. destruct (Z.ltb_spec (round_units A) (scale 1024)); [lia|reflexivity].
Qed.

(* the sum of a finite value and of a value that is not negative, as a key *)
Lemma SFadd_key x u :
  valid_binary x = true -> valid_binary u = true ->
  (exists s, x = S754_zero s) \/ (exists s m e, x = S754_finite s m e) ->
  is_number_sf u = true -> 0 <= key u ->
  valid_binary (SFadd prec emax x u) = true
  /\ is_number_sf (SFadd prec emax x u) = true
  /\ key (SFadd prec emax x u) = round_key (key x + key u).
Proof.
  intros Hx Hu Hfin Hnu Hpos.
  destruct u as [su|su| |su mu eu]; try discriminate Hnu.
  - (* u = 0 *)
    destruct Hfin as [[sx ->]|(sx & mx & ex & ->)].
    + destruct sx, su; repeat split; reflexivity.
    + destruct (valid_finite _ _ _ Hx) as [Hcx Hex].
      cbn [SFadd]. split; [exact Hx|]. split; [reflexivity|].
      change (key (S754_zero su)) with 0. rewrite Z.add_0_r. symmetry.
      apply round_key_canonical; assumption.
  - (* u = +infinity *)
    destruct su; [cbn [key] in Hpos; pose proof huge_above; lia|].
    destruct huge_half as (h & Hh & Hhuge & Hhh).
    destruct Hfin as [[sx ->]|(sx & mx & ex & ->)].
    + cbn [SFadd]. split; [reflexivity|]. split; [reflexivity|].
      change (key (S754_zero sx)) with 0. rewrite Z.add_0_l.
      rewrite round_key_huge; [reflexivity|]. cbn [key]. unfold huge.
      apply Z.pow_le_mono_r; lia.
    + destruct (valid_finite _ _ _ Hx) as [Hcx Hex].
      pose proof (finite_below_overflow _ _ Hcx Hex).
      cbn [SFadd]. split; [reflexivity|]. split; [reflexivity|].
      rewrite round_key_huge; [reflexivity|].
      rewrite Hh. destruct sx; cbn [key]; lia.
  - destruct (valid_finite _ _ _ Hu) as [Hcu Heu].
    pose proof (finite_below_overflow _ _ Hcu Heu) as Hbu.
    destruct su; [cbn [key] in Hpos; lia|].
    destruct Hfin as [[sx ->]|(sx & mx & ex & ->)].
    + cbn [SFadd]. split; [exact Hu|]. split; [reflexivity|].
      change (key (S754_zero sx)) with 0. rewrite Z.add_0_l. symmetry.
      apply round_key_canonical; assumption.
    + destruct (valid_finite _ _ _ Hx) as [Hcx Hex].
      pose proof (canonical_ge_emin _ _ Hcx) as Hex'.
      pose proof (canonical_ge_emin _ _ Hcu) as Heu'.
      cbn [SFadd]. set (ez := Z.min ex eu).
      assert (Hez : -1074 <= ez) by (unfold ez; lia).
      destruct (shl_align_spec mx ex ez ltac:(unfold ez; lia)) as [_ HX].
      destruct (shl_align_spec mu eu ez ltac:(unfold ez; lia)) as [_ HU].
      set (X := fst (shl_align mx ex ez)) in *.
      set (U := fst (shl_align mu eu ez)) in *.
      assert (HVx : Zpos mx * scale ex = Zpos X * scale ez).
      { rewrite HX, (scale_split ez ex) by (unfold ez; lia). ring. }
      assert (HVu : Zpos mu * scale eu = Zpos U * scale ez).
      { rewrite HU, (scale_split ez eu) by (unfold ez; lia). ring. }
      pose proof (scale_pos ez ltac:(lia)) as HW.
      assert (HS : key (S754_finite sx mx ex) + key (S754_finite false mu eu)
                   = (cond_Zopp sx (Zpos X) + cond_Zopp false (Zpos U)) * scale ez).
      { destruct sx; cbn [key cond_Zopp]; rewrite HVx, HVu; ring. }
      rewrite HS.
      destruct (cond_Zopp sx (Zpos X) + cond_Zopp false (Zpos U)) as [|p|p] eqn:HSum;
        cbn [binary_normalize].
      * split; [reflexivity|]. split; [reflexivity|]. reflexivity.
      * destruct (binary_round_key false p ez Hez) as (Hv & Hn & Hk).
        split; [exact Hv|]. split; [exact Hn|]. rewrite Hk.
        unfold round_key.
        destruct (Z.eqb_spec (Zpos p * scale ez) 0); [lia|].
        destruct (Z.ltb_spec 0 (Zpos p * scale ez)); [reflexivity|lia].
      * destruct (binary_round_key true p ez Hez) as (Hv & Hn & Hk).
        split; [exact Hv|]. split; [exact Hn|]. rewrite Hk.
        unfold round_key.
        destruct (Z.eqb_spec (Zneg p * scale ez) 0); [lia|].
        destruct (Z.ltb_spec 0 (Zneg p * scale ez)); [lia|].
        replace (- (Zneg p * scale ez)) with (Zpos p * scale ez) by lia.
        reflexivity.
Qed.

(* the digits of a product *)
Lemma digits_mul ma mb : digits ma + digits mb - 1 <= digits (ma * mb).
Proof.
  pose proof (digits_bounds ma) as [Ha _]. pose proof (digits_bounds mb) as [Hb _].
  pose proof (digits_bounds (ma * mb)) as [_ Hab].
  pose proof (digits_pos ma). pose proof (digits_pos mb).
  pose proof (digits_pos (ma * mb)).
  rewrite Pos2Z.inj_mul in Hab.
  assert (Hlo : 2 ^ (digits ma - 1 + (digits mb - 1)) <= Zpos ma * Zpos mb).
  { rewrite pow2_add by lia.
    pose proof (pow2_pos (digits ma - 1) ltac:(lia)).
    pose proof (pow2_pos (digits mb - 1) ltac:(lia)). nia. }
  destruct (Z.le_gt_cases (digits ma + digits mb - 1) (digits (ma * mb)))
    as [|Hgt]; [assumption|exfalso].
  assert (2 ^ digits (ma * mb) <= 2 ^ (digits ma - 1 + (digits mb - 1)))
    by (apply Z.pow_le_mono_r; lia).
  lia.
Qed.

(* the product of two mantissas is rounded without being aligned *)
Lemma round_product_key s ma ea ms es :
  fexp64 (digits ma + ea) = ea -> fexp64 (digits ms + es) = es ->
  scale (-1074) <= Zpos (ma * ms) * scale (ea + es) ->
  let p := binary_round_aux prec emax s (Zpos (ma * ms)) (ea + es) loc_Exact in
  valid_binary p = true /\ is_number_sf p = true
  /\ key p = if s then - cap (round_units (Zpos (ma * ms) * scale (ea + es)))
             else cap (round_units (Zpos (ma * ms) * scale (ea + es))).
Proof.
  intros Ha Hs HV. cbv zeta.
  pose proof (digits_mul ma ms) as Hd.
  pose proof (digits_pos ma). pose proof (digits_pos ms).
  pose proof (canonical_ge_emin _ _ Ha). pose proof (canonical_ge_emin _ _ Hs).
  rewrite fexp64_eq in Ha, Hs.
  assert (He : -2200 <= ea + es) by lia.
  apply round_aux_key; try lia; cbn [Zdigits2];
    change (Zpos (digits2_pos (ma * ms))) with (digits (ma * ms)).
  - pose proof (digits_bounds (ma * ms)) as [_ Hup].
    pose proof (digits_pos (ma * ms)) as Hdp.
    destruct (Z.le_gt_cases (-1073) (digits (ma * ms) + (ea + es)))
      as [|Hsmall]; [assumption|exfalso].
    assert (Hpow : 2 ^ digits (ma * ms) * scale (ea + es)
                   = 2 ^ (digits (ma * ms) + (ea + es) + 2200)).
    { unfold scale.
      rewrite <- (pow2_add (digits (ma * ms)) (ea + es + 2200)) by lia.
      f_equal. lia. }
    assert (Hle : 2 ^ (digits (ma * ms) + (ea + es) + 2200) <= 2 ^ 1126)
      by (apply Z.pow_le_mono_r; lia).
    change (scale (-1074)) with (2 ^ 1126) in HV.
    pose proof (scale_pos (ea + es) He). nia.
  - rewrite fexp64_eq. lia.
Qed.

(* an integer of the sampler's range, as a float *)
Lemma normalize_int_key z :
  1 <= z <= 2 ^ 1023 ->
  exists m e,
    binary_normalize prec emax z 0 false = S754_finite false m e
    /\ valid_binary (S754_finite false m e) = true
    /\ Zpos m * scale e = round_units (z * scale 0).
Proof.
  intros Hz. destruct z as [|p|p]; try lia. cbn [binary_normalize].
  destruct (binary_round_key false p 0 ltac:(lia)) as (Hv & Hn & Hk).
  assert (Hu : scale (-1074) <= Zpos p * scale 0).
  { assert (scale (-1074) <= scale 0) by (vm_compute; discriminate).
    assert (0 < scale 0) by reflexivity. nia. }
  pose proof (round_units_pos _ Hu) as Hpos.
  assert (Hb : round_units (Zpos p * scale 0) < scale 1024).
  { assert (Hr : round_units (2 ^ 1023 * scale 0) < scale 1024)
      by (vm_compute; reflexivity).
    assert (Zpos p * scale 0 <= 2 ^ 1023 * scale 0).
    { assert (0 < scale 0) by reflexivity. nia. }
    pose proof (round_units_mono (Zpos p * scale 0) (2 ^ 1023 * scale 0) ltac:(lia)).
    lia. }
  pose proof huge_above as Hh.
  unfold cap in Hk.
  destruct (Z.ltb_spec (round_units (Zpos p * scale 0)) (scale 1024)); [|lia].
  destruct (binary_round prec emax false p 0) as [sr|sr| |sr mr er];
    try discriminate Hn; cbn [key] in Hk; try lia.
  - destruct sr; cbv iota in Hk; lia.
  - destruct sr; cbv iota in Hk; [exfalso|exists mr, er; auto].
    destruct (valid_finite _ _ _ Hv) as [Hc _].
    pose proof (canonical_ge_emin _ _ Hc).
    pose proof (scale_pos er ltac:(lia)). nia.
Qed.

(* products by a step that is not negative grow with the integer factor *)
Lemma SFmul_key_mono ma ea mb eb s :
  valid_binary (S754_finite false ma ea) = true ->
  valid_binary (S754_finite false mb eb) = true ->
  valid_binary s = true ->
  (exists ss, s = S754_zero ss) \/ (exists ms es, s = S754_finite false ms es) ->
  scale 0 <= Zpos ma * scale ea <= Zpos mb * scale eb ->
  let pa := SFmul prec emax (S754_finite false ma ea) s in
  let pb := SFmul prec emax (S754_finite false mb eb) s in
  valid_binary pa = true /\ valid_binary pb = true
  /\ is_number_sf pa = true /\ is_number_sf pb = true
  /\ 0 <= key pa <= key pb.
Proof.
  intros Ha Hb Hs Hshape Hab. cbv zeta.
  destruct Hshape as [[ss ->]|(ms & es & ->)]; cbn [SFmul xorb].
  - repeat (split; [reflexivity|]). cbn [key]. lia.
  - destruct (valid_finite _ _ _ Ha) as [Hca _].
    destruct (valid_finite _ _ _ Hb) as [Hcb _].
    destruct (valid_finite _ _ _ Hs) as [Hcs _].
    pose proof (canonical_ge_emin _ _ Hca) as Hea.
    pose proof (canonical_ge_emin _ _ Hcb) as Heb.
    pose proof (canonical_ge_emin _ _ Hcs) as Hes.
    assert (Hsplit : forall e, -1074 <= e ->
               scale (e + es) * 2 ^ 2200 = scale e * scale es).
    { intros e He. unfold scale.
      rewrite <- (pow2_add (e + es + 2200) 2200), <- (pow2_add (e + 2200) (es + 2200))
        by lia.
      f_equal. lia. }
    assert (Hp : 0 < 2 ^ 2200) by (apply pow2_pos; lia).
    assert (Hks : scale (-1074) <= Zpos ms * scale es).
    { rewrite (scale_split (-1074) es) by lia.
      assert (0 < 2 ^ (es - -1074)) by (apply pow2_pos; lia).
      assert (0 < scale (-1074)) by reflexivity.
      assert (1 <= Zpos ms * 2 ^ (es - -1074)) by nia.
      rewrite (Z.mul_comm (scale (-1074))), Z.mul_assoc. nia. }
    assert (Hu0 : scale 0 = 2 ^ 2200) by reflexivity.
    assert (HXa : Zpos (ma * ms) * scale (ea + es) * 2 ^ 2200
                  = (Zpos ma * scale ea) * (Zpos ms * scale es)).
    { rewrite Pos2Z.inj_mul, <- Z.mul_assoc, (Hsplit ea Hea). ring. }
    assert (HXb : Zpos (mb * ms) * scale (eb + es) * 2 ^ 2200
                  = (Zpos mb * scale eb) * (Zpos ms * scale es)).
    { rewrite Pos2Z.inj_mul, <- Z.mul_assoc, (Hsplit eb Heb). ring. }
    assert (Hu : 0 < scale (-1074)) by reflexivity.
    assert (HVa : scale (-1074) <= Zpos (ma * ms) * scale (ea + es)) by nia.
    assert (HVab : Zpos (ma * ms) * scale (ea + es) <= Zpos (mb * ms) * scale (eb + es))
      by nia.
    destruct (round_product_key false ma ea ms es Hca Hcs HVa) as (Hva & Hna & Hka).
    destruct (round_product_key false mb eb ms es Hcb Hcs ltac:(lia))
      as (Hvb & Hnb & Hkb).
    repeat (split; [assumption|]). rewrite Hka, Hkb.
    pose proof (round_units_pos _ HVa) as Hpa.
    pose proof (cap_pos _ Hpa).
    pose proof (round_units_mono _ _ (conj HVa HVab)) as Hm.
    pose proof (cap_mono _ _ Hm). lia.
Qed.

(* the offsets [float(i) * step] are numbers, not negative, and grow with [i] *)
Lemma offsets_grow s i j :
  valid_binary s = true -> forward_step s -> 0 <= i <= j -> j <= 2 ^ 1023 ->
  let pi := SFmul prec emax (binary_normalize prec emax i 0 false) s in
  let pj := SFmul prec emax (binary_normalize prec emax j 0 false) s in
  valid_binary pi = true /\ valid_binary pj = true
  /\ is_number_sf pi = true /\ is_number_sf pj = true
  /\ 0 <= key pi <= key pj.
Proof.
  intros Hs Hf Hij Hj. cbv zeta.
  assert (Hzero : let p := SFmul prec emax (binary_normalize prec emax 0 0 false) s in
                  valid_binary p = true /\ is_number_sf p = true /\ key p = 0).
  { destruct Hf as [[ss ->]|(ms & es & ->)]; repeat split. }
  assert (Hu : scale (-1074) <= scale 0) by (vm_compute; discriminate).
  assert (Hu0 : 0 < scale 0) by reflexivity.
  assert (Hone : round_units (scale 0) = scale 0) by (vm_compute; reflexivity).
  destruct (Z.eq_dec i 0) as [->|Hi].
  - destruct Hzero as (Hv0 & Hn0 & Hk0). rewrite Hk0.
    destruct (Z.eq_dec j 0) as [->|Hj0].
    + rewrite Hk0. repeat (split; [assumption|]). lia.
    + destruct (normalize_int_key j ltac:(lia)) as (mj & ej & -> & Hvj & Hkj).
      assert (Hbj : scale 0 <= Zpos mj * scale ej).
      { rewrite Hkj, <- Hone. apply round_units_mono. nia. }
      destruct (SFmul_key_mono mj ej mj ej s Hvj Hvj Hs Hf ltac:(lia))
        as (Hv & _ & Hn & _ & Hk).
      repeat (split; [assumption|]). lia.
  - destruct (normalize_int_key i ltac:(lia)) as (mi & ei & -> & Hvi & Hki).
    destruct (normalize_int_key j ltac:(lia)) as (mj & ej & -> & Hvj & Hkj).
    apply SFmul_key_mono; try assumption.
    rewrite Hki, Hkj. split.
    + rewrite <- Hone at 1. apply round_units_mono. nia.
    + apply round_units_mono. nia.
Qed.

(* the points [t0 + float(i) * step] of a forward grid never decrease *)
Lemma SF_grid_never_decreases x s i j :
  valid_binary x = true -> valid_binary s = true ->
  (exists sx, x = S754_zero sx) \/ (exists sx mx ex, x = S754_finite sx mx ex) ->
  forward_step s -> 0 <= i <= j -> j <= 2 ^ 1023 ->
  SFltb
    (SFadd prec emax x (SFmul prec emax (binary_normalize prec emax j 0 false) s))
    (SFadd prec emax x (SFmul prec emax (binary_normalize prec emax i 0 false) s))
  = false.
Proof.
  intros Hx Hs Hfx Hf Hij Hj.
  destruct (offsets_grow s i j Hs Hf Hij Hj) as (Hvi & Hvj & Hni & Hnj & Hk).
  destruct (SFadd_key x _ Hx Hvi Hfx Hni ltac:(lia)) as (Hvti & Hnti & Hkti).
  destruct (SFadd_key x _ Hx Hvj Hfx Hnj ltac:(lia)) as (Hvtj & Hntj & Hktj).
  apply key_not_ltb; try assumption.
  rewrite Hkti, Hktj.
  apply round_key_mono; [apply key_sum_admissible|apply key_sum_admissible|lia];
    assumption.
Qed.

Lemma forward_step_cases (step : float) :
  PrimFloat.is_finite step = true -> (step <? 0)%float = false ->
  forward_step (Prim2SF step).
Proof.
  intros Hfin Hneg. rewrite FloatAxioms.ltb_spec in Hneg.
  change (Prim2SF 0) with (S754_zero false) in Hneg.
  destruct (FloatZero.is_finite_cases step Hfin) as [[ss Hz]|(ss & ms & es & Hf)].
  - left. eauto.
  - right. rewrite Hf in *. destruct ss; [discriminate|eauto].
Qed.

Lemma Prim2SF_float_of_Z z :
  0 <= z <= 2 ^ 1023 -> Prim2SF (float_of_Z z) = binary_normalize prec emax z 0 false.
Proof.
  intros Hz. unfold float_of_Z. apply Prim2SF_SF2Prim.
  destruct (Z.eq_dec z 0) as [->|Hne]; [reflexivity|].
  destruct (normalize_int_key z ltac:(lia)) as (m & e & -> & Hv & _). exact Hv.
Qed.

Lemma grid_never_decreases (t0 step : float) i j :
  PrimFloat.is_finite t0 = true -> PrimFloat.is_finite step = true ->
  (step <? 0)%float = false -> 0 <= i <= j -> j <= 2 ^ 1023 ->
  (t0 + float_of_Z j * step <? t0 + float_of_Z i * step)%float = false.
Proof.
  intros Ht0 Hstep Hneg Hij Hj.
  rewrite FloatAxioms.ltb_spec, !add_spec, !mul_spec, !Prim2SF_float_of_Z by lia.
  apply SF_grid_never_decreases; try assumption; try apply Prim2SF_valid.
  - apply FloatZero.is_finite_cases; assumption.
  - apply forward_step_cases; assumption.
Qed.

Lemma key_sign s m e :
  valid_binary (S754_finite s m e) = true ->
  if s then key (S754_finite s m e) < 0 else 0 < key (S754_finite s m e).
Proof.
  intros Hv. destruct (valid_finite _ _ _ Hv) as [Hc _].
  pose proof (canonical_ge_emin _ _ Hc).
  pose proof (scale_pos e ltac:(lia)). destruct s; cbn [key]; nia.
Qed.

(* [x - y] is not negative when [x] is not below [y] *)
Lemma SFsub_not_negative x y :
  valid_binary x = true -> valid_binary y = true ->
  finite_sf x = true -> finite_sf y = true -> key y <= key x ->
  not_negative (SFsub prec emax x y) = true.
Proof.
  intros Hx Hy Hfx Hfy Hk.
  destruct x as [sx|sx| |sx mx ex], y as [sy|sy| |sy my ey]; try discriminate.
  - destruct sx, sy; reflexivity.
  - pose proof (key_sign _ _ _ Hy) as Hs. cbn [SFsub not_negative].
    destruct sy; [reflexivity|]. cbn [key] in *. lia.
  - pose proof (key_sign _ _ _ Hx) as Hs. cbn [SFsub not_negative].
    destruct sx; [|reflexivity]. cbn [key] in *. lia.
  - destruct (valid_finite _ _ _ Hx) as [Hcx _].
    destruct (valid_finite _ _ _ Hy) as [Hcy _].
    pose proof (canonical_ge_emin _ _ Hcx) as Hex.
    pose proof (canonical_ge_emin _ _ Hcy) as Hey.
    cbn [SFsub]. set (ez := Z.min ex ey).
    assert (Hez : -1074 <= ez) by (unfold ez; lia).
    destruct (shl_align_spec mx ex ez ltac:(unfold ez; lia)) as [_ HX].
    destruct (shl_align_spec my ey ez ltac:(unfold ez; lia)) as [_ HY].
    set (X := fst (shl_align mx ex ez)) in *.
    set (Y := fst (shl_align my ey ez)) in *.
    assert (HVx : Zpos mx * scale ex = Zpos X * scale ez).
    { rewrite HX, (scale_split ez ex) by (unfold ez; lia). ring. }
    assert (HVy : Zpos my * scale ey = Zpos Y * scale ez).
    { rewrite HY, (scale_split ez ey) by (unfold ez; lia). ring. }
    pose proof (scale_pos ez ltac:(lia)) as HW.
    assert (Hd : 0 <= cond_Zopp sx (Zpos X) - cond_Zopp sy (Zpos Y)).
    { destruct sx, sy; cbn [key cond_Zopp] in *; rewrite HVx, HVy in Hk; nia. }
    destruct (cond_Zopp sx (Zpos X) - cond_Zopp sy (Zpos Y)) as [|p|p];
      cbn [binary_normalize]; [reflexivity| |lia].
    destruct (binary_round_spec false p ez Hez) as (mr & er & -> & _).
    destruct (er <=? 971); reflexivity.
Qed.

(* a quotient of values that are not negative is not negative, when it is a
   number *)
Lemma SFdiv_not_negative d a :
  not_negative d = true -> not_negative a = true ->
  finite_sf (SFdiv prec emax d a) = true ->
  not_negative (SFdiv prec emax d a) = true.
Proof.
  intros Hd Ha.
  destruct d as [sd|sd| |sd md ed], a as [sa|sa| |sa ma ea]; try discriminate;
    cbn [SFdiv not_negative] in *; try reflexivity.
  apply negb_true_iff in Hd, Ha. subst sd sa. cbn [xorb].
  destruct (SFdiv_core_binary _ _ _ _ _ _) as [[mz ez] lz].
  unfold binary_round_aux.
  destruct (shr_fexp _ _ _ _ _) as [mrs' e'].
  destruct (shr_fexp _ _ _ _ _) as [mrs'' e''].
  destruct (shr_m mrs''); try reflexivity; try discriminate.
  destruct (e'' <=? emax - prec); reflexivity.
Qed.

(* a finite difference comes from finite values *)
Lemma SFsub_finite x y :
  finite_sf (SFsub prec emax x y) = true -> finite_sf x = true /\ finite_sf y = true.
Proof.
  destruct x as [sx|sx| |sx mx ex], y as [sy|sy| |sy my ey];
    try destruct sx; try destruct sy; cbn [SFsub finite_sf];
    try discriminate; auto.
Qed.

Lemma SFdiv_finite d a :
  finite_sf a = true -> finite_sf (SFdiv prec emax d a) = true -> finite_sf d = true.
Proof.
  destruct d as [sd|sd| |sd md ed], a as [sa|sa| |sa ma ea];
    cbn [SFdiv finite_sf]; try discriminate; auto.
Qed.

Lemma is_finite_sf (x : float) :
  PrimFloat.is_finite x = finite_sf (Prim2SF x).
Proof.
  unfold PrimFloat.is_finite, PrimFloat.is_nan, PrimFloat.is_infinity.
  rewrite !FloatAxioms.eqb_spec, FloatAxioms.abs_spec.
  change (Prim2SF infinity) with (S754_infinity false).
  destruct (Prim2SF x) as [[]|[]| |[] m e]; cbn; try reflexivity;
    rewrite Z.compare_refl, Pos.compare_cont_refl; reflexivity.
Qed.

(* with [t0 <= t_end] a finite step is a forward step, and [t0] is finite *)
Lemma step_forward (t0 t_end : float) n :
  2 <= n <= 2 ^ 1023 ->
  PrimFloat.is_finite ((t_end - t0) / float_of_Z (n - 1)) = true ->
  (t_end <? t0)%float = false ->
  PrimFloat.is_finite t0 = true
  /\ ((t_end - t0) / float_of_Z (n - 1) <? 0)%float = false.
Proof.
  intros Hn Hfin Hle.
  rewrite is_finite_sf, div_spec, sub_spec, Prim2SF_float_of_Z in Hfin by lia.
  rewrite is_finite_sf.
  rewrite !FloatAxioms.ltb_spec, div_spec, sub_spec, Prim2SF_float_of_Z in * by lia.
  change (Prim2SF 0) with (S754_zero false).
  unfold SF64div, SF64sub in *.
  destruct (normalize_int_key (n - 1) ltac:(lia)) as (ma & ea & Ha & Hva & _).
  rewrite Ha in *.
  pose proof (SFdiv_finite _ (S754_finite false ma ea) eq_refl Hfin) as Hd.
  destruct (SFsub_finite _ _ Hd) as [Hfe Hf0].
  split; [exact Hf0|].
  pose proof (Prim2SF_valid t0) as Hv0. pose proof (Prim2SF_valid t_end) as Hve.
  assert (Hk : key (Prim2SF t0) <= key (Prim2SF t_end)).
  { apply key_le_of_not_ltb; try assumption.
    - destruct (Prim2SF t_end); try discriminate; reflexivity.
    - destruct (Prim2SF t0); try discriminate; reflexivity. }
  pose proof (SFsub_not_negative _ _ Hve Hv0 Hfe Hf0 Hk) as Hnn.
  pose proof (SFdiv_not_negative _ (S754_finite false ma ea) Hnn eq_refl Hfin) as Hq.
  destruct (SFdiv _ _ _ _) as [sq|sq| |sq mq eq]; try discriminate.
  - destruct sq; reflexivity.
  - cbn in Hq. apply negb_true_iff in Hq. subst sq. reflexivity.
Qed.

End FloatKey.

(** ** Integers as floats *)

Lemma float_of_int_small z :
  0 <= z <= 2 ^ 1023 -> float_of_int z = Return (float_of_Z z).
Proof.
  intros Hz. unfold float_of_int.
  destruct (Z.eq_dec z 0) as [->|Hne]; [reflexivity|].
  destruct (FloatRound.float_of_Z_small z ltac:(lia)) as [-> _]. reflexivity.
Qed.

Lemma grid_step_small t0 t_end n :
  2 <= n <= 2 ^ 1023 ->
  grid_step t0 t_end n = Return ((t_end - t0) / float_of_Z (n - 1))%float.
Proof.
  intros Hn. unfold grid_step. rewrite float_of_int_small by lia.
  unfold_bind. unfold float_div.
  destruct (FloatRound.float_of_Z_small (n - 1) ltac:(lia)) as [_ ->]. reflexivity.
Qed.

Lemma grid_point_small t0 step i :
  0 <= i <= 2 ^ 1023 ->
  grid_point t0 step i = Return (t0 + float_of_Z i * step)%float.
Proof.
  intros Hi. unfold grid_point. rewrite float_of_int_small by lia. reflexivity.
Qed.

(** The values of [t] of a returned curve are the grid. *)
Lemma smooth_exact_curve_times g t0 t_end num_points T Y :
  clamp_points num_points <= 2 ^ 1023 ->
  smooth_exact_curve g t0 t_end num_points = Return (T, Y) ->
  T = grid_times t0 t_end (clamp_points num_points).
Proof.
  intros Hn Hs. pose proof (clamp_points_spec num_points) as (Hn2 & _).
  destruct (smooth_exact_curve_Return _ _ _ _ _ _ Hs)
    as (step & Hstep & HT & _ & Hpt).
  rewrite grid_step_small in Hstep by lia. injection Hstep as <-.
  apply (List.nth_ext _ _ 0%float
           (grid_time t0 t_end (clamp_points num_points) (Z.of_nat 0))).
  - unfold grid_times. rewrite length_map, length_seq. lia.
  - intros i Hi. unfold grid_times.
    rewrite (List.map_nth (fun i => grid_time t0 t_end (clamp_points num_points) (Z.of_nat i))
               (seq 0 (Z.to_nat (clamp_points num_points))) O i).
    rewrite List.seq_nth by lia. cbn [Nat.add].
    destruct (Hpt (Z.of_nat i) ltac:(lia)) as (Hg & _).
    rewrite grid_point_small, Nat2Z.id in Hg by lia.
    injection Hg as Hg. rewrite <- Hg. reflexivity.
Qed.

(** ** The exact-curve sampler: the claims *)

(** C5, as the code has it: with [n] the point count clamped to at least 2
    (and at most [2 ^ 1023], so that [float(n - 1)] is finite), when [g]
    succeeds at every grid point [t0 + float(i) * ((t_end - t0) / float(n - 1))],
    [0 <= i < n], [smooth_exact_curve] returns exactly these [n] values of
    [t], in order, with the values of [g] there; the first one equals [t0]
    when the step is finite and [t0] is a number; the last one is what the
    formula gives at [i = n - 1], which need not be [t_end].  From 2 to 10
    with 5 points the values of [t] are 2, 4, 6, 8, 10. *)
Theorem smooth_exact_curve_grid :
  (forall g t0 t_end num_points,
      clamp_points num_points <= 2 ^ 1023 ->
      (forall i, 0 <= i < clamp_points num_points ->
         succeeds (g (grid_time t0 t_end (clamp_points num_points) i)) = true) ->
      exists Y,
        smooth_exact_curve g t0 t_end num_points
        = Return (grid_times t0 t_end (clamp_points num_points), Y)
        /\ map g (grid_times t0 t_end (clamp_points num_points)) = map Return Y
        /\ Z.of_nat (length (grid_times t0 t_end (clamp_points num_points)))
           = clamp_points num_points)
  /\ (forall t0 t_end n,
        PrimFloat.is_finite ((t_end - t0) / float_of_Z (n - 1)) = true ->
        PrimFloat.is_nan t0 = false ->
        (grid_time t0 t_end n 0 =? t0)%float = true)
  /\ (forall num_points,
        2 <= clamp_points num_points
        /\ (2 <= num_points -> clamp_points num_points = num_points)
        /\ (num_points < 2 -> clamp_points num_points = 2))
  /\ (forall g,
        smooth_exact_curve (total_curve g) 2 10 5
        = Return ([2; 4; 6; 8; 10]%float, map g [2; 4; 6; 8; 10]%float)).
Proof.
  split; [|split; [|split]].
  - intros g t0 t_end num_points Hmax Hok.
    pose proof (clamp_points_spec num_points) as (Hn & _).
    set (n := clamp_points num_points) in *.
    set (step := ((t_end - t0) / float_of_Z (n - 1))%float).
    destruct (sample_loop_progress g t0 step (Z.to_nat n) 0 [] []) as ([T Y] & Hr).
    { intros j Hj. specialize (Hok (Z.of_nat j) ltac:(lia)).
      rewrite grid_point_small by lia. unfold grid_time in Hok. fold step in Hok.
      destruct (g _) as [y|e] eqn:Hg; [|discriminate].
      eexists _, y. split; [reflexivity|exact Hg]. }
    assert (Hs : smooth_exact_curve g t0 t_end num_points = Return (T, Y)).
    { unfold smooth_exact_curve. fold n. rewrite grid_step_small by lia.
      unfold_bind. exact Hr. }
    pose proof (smooth_exact_curve_times g t0 t_end num_points T Y Hmax Hs) as HT.
    destruct (smooth_exact_curve_Return _ _ _ _ _ _ Hs)
      as (step' & _ & HlenT & HlenY & Hpt).
    exists Y. fold n in HT, HlenT, Hpt. rewrite <- HT.
    split; [exact Hs|]. split; [|exact HlenT].
    apply (List.nth_ext _ _ (g 0%float) (Return 0%float)).
    + rewrite !length_map. lia.
    + intros i Hi. rewrite length_map in Hi.
      rewrite (List.map_nth g T 0%float i), (List.map_nth Return Y 0%float i).
      destruct (Hpt (Z.of_nat i) ltac:(lia)) as (_ & Hg).
      rewrite Nat2Z.id in Hg. exact Hg.
  - intros t0 t_end n Hfin Hnan. unfold grid_time.
    change (float_of_Z 0) with 0%float.
    apply FloatZero.add_zero_mul; assumption.
  - exact clamp_points_spec.
  - intros g. reflexivity.
Qed.

(** [1 / (t - 4)] on 50 points from 0 to 1. *)
Lemma smooth_exact_curve_grid_witness :
  (exists Y,
      smooth_exact_curve pole_at_four 0 1 50
      = Return (grid_times 0 1 (clamp_points 50), Y)
      /\ map pole_at_four (grid_times 0 1 (clamp_points 50)) = map Return Y
      /\ Z.of_nat (length (grid_times 0 1 (clamp_points 50))) = clamp_points 50)
  /\ (grid_time 0 1 50 0 =? 0)%float = true.
Proof.
  destruct smooth_exact_curve_grid as (H1 & H2 & _).
  split.
  - apply (H1 pole_at_four 0%float 1%float 50).
    + vm_compute. discriminate.
    + intros i Hi. change (clamp_points 50) with 50 in *.
      assert (Hc : exists k, (k < 50)%nat /\ i = Z.of_nat k).
      { exists (Z.to_nat i). lia. }
      destruct Hc as (k & Hk & ->).
      do 50 (destruct k as [|k]; [vm_compute; reflexivity|]). lia.
  - apply H2; reflexivity.
Defined.

(** C5, a counterexample: from 0 to 1 with 50 points the last value of [t] is
    0.99999999999999989, not [t_end]; from -1e308 to 1e308 the first one is
    not a number. *)
Lemma smooth_exact_curve_misses_t_end :
  (exists T Y,
      smooth_exact_curve (total_curve (fun t => t)) 0 1 50 = Return (T, Y)
      /\ (0 <? 1)%float = true
      /\ List.last T 0%float = 0.99999999999999989%float
      /\ (List.last T 0 =? 1)%float = false)
  /\ (exists T Y,
        smooth_exact_curve (total_curve (fun t => t)) (-1e308) 1e308 5 = Return (T, Y)
        /\ (-1e308 <? 1e308)%float = true
        /\ List.nth 0 T 0%float = nan
        /\ (List.nth 0 T 0 =? -1e308)%float = false).
Proof.
  split; eexists _, _; (split; [vm_compute; reflexivity|]);
    repeat split; vm_compute; reflexivity.
Qed.

(** C6: when [g] raises at a grid point, [smooth_exact_curve] raises and
    returns no curve; and a curve that it returns has a value of [g] at
    every one of its points, which are as many as the (clamped) count. *)
Theorem smooth_exact_curve_all_or_nothing g t0 t_end num_points :
  (forall i e,
      clamp_points num_points <= 2 ^ 1023 ->
      0 <= i < clamp_points num_points ->
      g (grid_time t0 t_end (clamp_points num_points) i) = Raise e ->
      exists e', smooth_exact_curve g t0 t_end num_points = Raise e')
  /\ (forall T Y,
        smooth_exact_curve g t0 t_end num_points = Return (T, Y) ->
        Z.of_nat (length T) = clamp_points num_points
        /\ length Y = length T
        /\ forall i, (i < length T)%nat ->
             g (List.nth i T 0%float) = Return (List.nth i Y 0%float)).
Proof.
  split.
  - intros i e Hmax Hi Hg.
    pose proof (clamp_points_spec num_points) as (Hn & _).
    destruct (smooth_exact_curve g t0 t_end num_points) as [[T Y]|e'] eqn:Hs.
    + exfalso.
      destruct (smooth_exact_curve_Return _ _ _ _ _ _ Hs)
        as (step & Hstep & _ & _ & Hpt).
      rewrite grid_step_small in Hstep by lia. injection Hstep as <-.
      destruct (Hpt i Hi) as (Ht & Hg').
      rewrite grid_point_small in Ht by lia. injection Ht as Heq.
      unfold grid_time in Hg. rewrite Heq, Hg' in Hg. discriminate.
    + exists e'. reflexivity.
  - intros T Y Hs.
    destruct (smooth_exact_curve_Return _ _ _ _ _ _ Hs)
      as (step & _ & HT & HY & Hpt).
    do 2 (split; [assumption|]).
    intros i Hi. destruct (Hpt (Z.of_nat i) ltac:(lia)) as (_ & Hg).
    rewrite Nat2Z.id in Hg. exact Hg.
Qed.

(** [1 / (t - 4)] on five points from 2 to 10: the second grid point is 4. *)
Lemma smooth_exact_curve_all_or_nothing_witness :
  (exists e', smooth_exact_curve pole_at_four 2 10 5 = Raise e')
  /\ (Z.of_nat (length [0; 1]%float) = clamp_points 0
      /\ length [-0.25; -0.33333333333333331]%float = length [0; 1]%float
      /\ forall i, (i < length [0; 1]%float)%nat ->
           pole_at_four (List.nth i [0; 1]%float 0%float)
           = Return (List.nth i [-0.25; -0.33333333333333331]%float 0%float)).
Proof.
  split.
  - apply (proj1 (smooth_exact_curve_all_or_nothing pole_at_four 2 10 5)
             1 ZeroDivisionError).
    + vm_compute. discriminate.
    + change (clamp_points 5) with 5. lia.
    + reflexivity.
  - apply (proj2 (smooth_exact_curve_all_or_nothing pole_at_four 0 1 0)).
    reflexivity.
Defined.

(** ** The error analyzer *)

Module FloatMax.

Lemma SFltb_below_trans a b c :
  SFltb a c = true -> SFltb a b = false -> SFeqb b b = true ->
  SFltb b c = true.
Proof.
  unfold SFltb, SFeqb.
  destruct a as [[]| []| |[] ma ea], b as [[]| []| |[] mb eb],
           c as [[]| []| |[] mc ec]; FloatOrder.by_cases.
Qed.

(** [b <= a < c] gives [b < c]. *)
Lemma ltb_below_trans (a b c : float) :
  (a <? c)%float = true -> (a <? b)%float = false ->
  PrimFloat.is_nan b = false -> (b <? c)%float = true.
Proof.
  unfold PrimFloat.is_nan.
  rewrite negb_false_iff, FloatAxioms.eqb_spec, !FloatAxioms.ltb_spec.
  apply SFltb_below_trans.
Qed.


Lemma update_max_not_nan m e :
  PrimFloat.is_nan m = false -> PrimFloat.is_nan (update_max m e) = false.
Proof.
  intros Hm. unfold update_max. destruct (m <? e)%float eqn:Hlt; [|exact Hm].
  apply (FloatOrder.ltb_not_nan _ _ Hlt).
Qed.



End FloatMax.

Section AnalyzerFacts.
Variable g : float -> result float.



End AnalyzerFacts.



(** ** The values of [t] *)

Section TimeFacts.
Variable f : float -> float -> result float.
Variables t_end delta_t t0 y0 : float.

(** What the loop returns is a state that some number of iterations
    reaches. *)
Lemma euler_loop_iterates fuel :
  forall k t y tv yv r,
    iterates f t_end delta_t t0 y0 k t y tv yv ->
    euler_loop f t_end delta_t fuel t y tv yv = Some r ->
    exists k' t' y',
      iterates f t_end delta_t t0 y0 k' t' y' (t_values r) (y_values r).
Proof.
  induction fuel as [|fuel IH]; intros k t y tv yv r Hit; cbn [euler_loop];
    destruct (t <? t_end)%float eqn:Hlt.
  - discriminate.
  - intros [= <-]. eauto.
  - destruct (f y t) as [slope|e] eqn:Hf.
    + apply (IH (S k)). apply iterates_S; assumption.
    + intros [= <-]. eauto.
  - intros [= <-]. eauto.
Qed.

(** Each value of [t] but the first is the one before plus [delta_t], and
    each but the last is below [t_end]. *)
Lemma iterates_steps k t y tv yv :
  iterates f t_end delta_t t0 y0 k t y tv yv ->
  length tv = S k /\ List.nth k tv 0%float = t
  /\ forall j, (j < k)%nat ->
       List.nth (S j) tv 0%float = (List.nth j tv 0 + delta_t)%float
       /\ (List.nth j tv 0 <? t_end)%float = true.
Proof.
  induction 1 as [|k t y tv yv slope Hk IH Hlt Hf].
  - repeat split; try reflexivity; lia.
  - destruct IH as (Hlen & Hlast & Hsteps).
    split; [rewrite length_app; cbn; lia|]. split.
    + rewrite app_nth2 by lia. rewrite Hlen, Nat.sub_diag. reflexivity.
    + intros j Hj. destruct (Nat.eq_dec j k) as [->|Hne].
      * rewrite app_nth2 by lia. rewrite Hlen, Nat.sub_diag.
        rewrite app_nth1 by lia. rewrite Hlast. split; [reflexivity|exact Hlt].
      * rewrite !app_nth1 by lia. apply Hsteps. lia.
Qed.
End TimeFacts.

(** Values that go up from each one to the next go up all along. *)
Lemma adjacent_increasing (ts : list float) :
  (forall j, (S j < length ts)%nat ->
     (List.nth j ts 0 <? List.nth (S j) ts 0)%float = true) ->
  forall i j, (i < j < length ts)%nat ->
    (List.nth i ts 0 <? List.nth j ts 0)%float = true.
Proof.
  intros Hadj i j. induction j as [|j IH]; intros Hij; [lia|].
  destruct (Nat.eq_dec i j) as [->|Hne].
  - apply Hadj. lia.
  - apply FloatOrder.ltb_trans with (y := List.nth j ts 0%float).
    + apply IH. lia.
    + apply Hadj. lia.
Qed.

(** Values none of which is below the one before, all numbers but possibly
    the last, never go down. *)
Lemma adjacent_never_decreasing (ts : list float) :
  (forall j, (S j < length ts)%nat ->
     (List.nth (S j) ts 0 <? List.nth j ts 0)%float = false
     /\ PrimFloat.is_nan (List.nth j ts 0%float) = false) ->
  forall i j, (i < j < length ts)%nat ->
    (List.nth j ts 0 <? List.nth i ts 0)%float = false.
Proof.
  intros Hadj i j. induction j as [|j IH]; intros Hij; [lia|].
  destruct (Nat.eq_dec i j) as [->|Hne].
  - apply Hadj. lia.
  - destruct (Hadj j ltac:(lia)) as (Hstep & Hnan).
    destruct (List.nth (S j) ts 0 <? List.nth i ts 0)%float eqn:Hlt; [|reflexivity].
    rewrite (FloatMax.ltb_below_trans _ _ _ Hlt Hstep Hnan) in IH.
    discriminate IH. lia.
Qed.

(** The values of [t] of a grid that goes forward never decrease. *)
Lemma grid_times_never_decrease t0 t_end n :
  2 <= n <= 2 ^ 1023 ->
  PrimFloat.is_finite ((t_end - t0) / float_of_Z (n - 1)) = true ->
  (t_end <? t0)%float = false ->
  forall i j, (i <= j < length (grid_times t0 t_end n))%nat ->
    (List.nth j (grid_times t0 t_end n) 0 <? List.nth i (grid_times t0 t_end n) 0)%float
    = false.
Proof.
  intros Hn Hfin Hle i j Hij.
  destruct (FloatKey.step_forward t0 t_end n Hn Hfin Hle) as [Hf0 Hneg].
  assert (Hlen : length (grid_times t0 t_end n) = Z.to_nat n)
    by (unfold grid_times; rewrite length_map, length_seq; reflexivity).
  rewrite Hlen in Hij.
  assert (Hnth : forall k, (k < Z.to_nat n)%nat ->
            List.nth k (grid_times t0 t_end n) 0%float
            = grid_time t0 t_end n (Z.of_nat k)).
  { intros k Hk.
    rewrite (List.nth_indep _ 0%float (grid_time t0 t_end n (Z.of_nat 0)))
      by (rewrite Hlen; exact Hk).
    unfold grid_times.
    rewrite (List.map_nth (fun i => grid_time t0 t_end n (Z.of_nat i))
               (seq 0 (Z.to_nat n)) O k).
    rewrite List.seq_nth by exact Hk. reflexivity. }
  rewrite !Hnth by lia. unfold grid_time.
  apply FloatKey.grid_never_decreases; try assumption; lia.
Qed.

(** C9, as the code has it: in a trajectory that [euler_method] returns, each
    value of [t] but the first is the one before plus [delta_t], and each but
    the last is below [t_end]; with [delta_t > 0] the values of [t] never
    decrease; and when no addition is absorbed by rounding ([t < t + delta_t]
    at every [t] but the last), they are strictly increasing.  In a curve
    that [smooth_exact_curve] returns, the values of [t] are
    [t0 + float(i) * step], [i = 0, 1, ..., n - 1], for the one
    [step = (t_end - t0) / float(n - 1)]; when this step is finite and
    [t_end] is not below [t0], they never decrease. *)
Theorem times_of_trajectory_and_curve :
  (forall f t0 y0 t_end delta_t fuel r,
      euler_method fuel f t0 y0 t_end delta_t = Some r ->
      (forall j, (S j < length (t_values r))%nat ->
         List.nth (S j) (t_values r) 0%float
         = (List.nth j (t_values r) 0 + delta_t)%float
         /\ (List.nth j (t_values r) 0 <? t_end)%float = true)
      /\ ((0 <? delta_t)%float = true ->
          forall i j, (i < j < length (t_values r))%nat ->
            (List.nth j (t_values r) 0 <? List.nth i (t_values r) 0)%float = false)
      /\ ((forall j, (S j < length (t_values r))%nat ->
             (List.nth j (t_values r) 0 <? List.nth j (t_values r) 0 + delta_t)%float
             = true) ->
          forall i j, (i < j < length (t_values r))%nat ->
            (List.nth i (t_values r) 0 <? List.nth j (t_values r) 0)%float = true))
  /\ (forall g t0 t_end num_points T Y,
        clamp_points num_points <= 2 ^ 1023 ->
        smooth_exact_curve g t0 t_end num_points = Return (T, Y) ->
        T = grid_times t0 t_end (clamp_points num_points)
        /\ (PrimFloat.is_finite
              ((t_end - t0) / float_of_Z (clamp_points num_points - 1)) = true ->
            (t_end <? t0)%float = false ->
            forall i j, (i <= j < length T)%nat ->
              (List.nth j T 0 <? List.nth i T 0)%float = false)).
Proof.
  split.
  - intros f t0 y0 t_end delta_t fuel r Hr.
    destruct (euler_loop_iterates f t_end delta_t t0 y0 fuel O t0 y0 [t0] [y0] r
                (iterates_O _ _ _ _ _) Hr) as (k & t & y & Hit).
    destruct (iterates_steps _ _ _ _ _ _ _ _ _ _ Hit) as (Hlen & _ & Hsteps).
    assert (Hadj : forall j, (S j < length (t_values r))%nat ->
              List.nth (S j) (t_values r) 0%float
              = (List.nth j (t_values r) 0 + delta_t)%float
              /\ (List.nth j (t_values r) 0 <? t_end)%float = true).
    { intros j Hj. apply Hsteps. lia. }
    split; [exact Hadj|]. split.
    + intros Hpos. apply adjacent_never_decreasing.
      intros j Hj. destruct (Hadj j Hj) as (-> & Hbelow). split.
      * apply FloatRound.add_not_below, Hpos.
      * apply (FloatOrder.ltb_not_nan _ _ Hbelow).
    + intros Hup. apply adjacent_increasing.
      intros j Hj. destruct (Hadj j Hj) as (-> & _). apply Hup, Hj.
  - intros g t0 t_end num_points T Y Hmax Hs.
    pose proof (smooth_exact_curve_times g t0 t_end num_points T Y Hmax Hs) as HT.
    split; [exact HT|]. intros Hfin Hle. rewrite HT.
    apply grid_times_never_decrease; try assumption.
    pose proof (clamp_points_spec num_points) as (Hn2 & _). lia.
Qed.

(** The three points of a run that stops at a failure, and the grid from 2
    to 10. *)
Lemma times_of_trajectory_and_curve_witness :
  ((forall j, (S j < length [0; 0.5; 1]%float)%nat ->
      List.nth (S j) [0; 0.5; 1]%float 0%float
      = (List.nth j [0; 0.5; 1]%float 0 + 0.5)%float
      /\ (List.nth j [0; 0.5; 1]%float 0 <? 5)%float = true)
   /\ (forall i j, (i < j < length [0; 0.5; 1]%float)%nat ->
         (List.nth j [0; 0.5; 1]%float 0 <? List.nth i [0; 0.5; 1]%float 0)%float
         = false)
   /\ (forall i j, (i < j < length [0; 0.5; 1]%float)%nat ->
         (List.nth i [0; 0.5; 1]%float 0 <? List.nth j [0; 0.5; 1]%float 0)%float
         = true))
  /\ [2; 4; 6; 8; 10]%float = grid_times 2 10 (clamp_points 5)
  /\ (forall i j, (i <= j < length [2; 4; 6; 8; 10]%float)%nat ->
        (List.nth j [2; 4; 6; 8; 10]%float 0 <? List.nth i [2; 4; 6; 8; 10]%float 0)%float
        = false).
Proof.
  split.
  - destruct (proj1 times_of_trajectory_and_curve fails_from_one 0 1 5 0.5 10%nat
                (EulerOutput [0; 0.5; 1] [1; 1.5; 2.25]
                   [ErrorEvaluatingF 2.25 1; ReprOf ValueError; StoppingEarly])
                eq_refl)%float as (H1 & H2 & H3).
    split; [exact H1|]. split.
    + apply H2. reflexivity.
    + apply H3. intros [|[|j]] Hj; [reflexivity|reflexivity|cbn in Hj; lia].
  - destruct (proj2 times_of_trajectory_and_curve (total_curve (fun t => t))
                2%float 10%float 5 [2; 4; 6; 8; 10]%float [2; 4; 6; 8; 10]%float)
      as (H1 & H2).
    + vm_compute. discriminate.
    + reflexivity.
    + split; [exact H1|]. apply H2; reflexivity.
Defined.

(** C9, counterexamples: at [t = 1e17] adding [delta_t = 1] changes nothing,
    and the derivative [1 / (1 - y)] raises at its second invocation, so the
    trajectory has the same [t] twice; from -1e308 to 1e308 the step of the
    curve overflows and its first [t] is not a number; from 0 to 1 with 50
    points the gaps between consecutive values of [t] are not all equal. *)
Lemma times_can_repeat_or_be_uneven :
  ((0 <? 1)%float = true /\ (1e17 <? 2e17)%float = true
   /\ euler_method 3 pole_at_y_one 1e17 0 2e17 1
      = Some (EulerOutput [1e17; 1e17]%float [0; 1]%float
                [ErrorEvaluatingF 1 1e17; ReprOf ZeroDivisionError; StoppingEarly])
   /\ (1e17 <? 1e17)%float = false)
  /\ ((-1e308 <? 1e308)%float = true
      /\ exists T Y,
           smooth_exact_curve (total_curve (fun t => t)) (-1e308) 1e308 5 = Return (T, Y)
           /\ (List.nth 0 T 0 <=? List.nth 1 T 0)%float = false)
  /\ (exists T Y,
        smooth_exact_curve (total_curve (fun t => t)) 0 1 50 = Return (T, Y)
        /\ (List.nth 2 T 0 - List.nth 1 T 0)%float = 0.020408163265306121%float
        /\ (List.nth 3 T 0 - List.nth 2 T 0)%float = 0.020408163265306124%float
        /\ (List.nth 2 T 0 - List.nth 1 T 0 =? List.nth 3 T 0 - List.nth 2 T 0)%float
           = false).
Proof.
  split; [|split].
  - repeat split; vm_compute; reflexivity.
  - split; [reflexivity|]. eexists _, _.
    split; [vm_compute; reflexivity|]. vm_compute. reflexivity.
  - eexists _, _. split; [vm_compute; reflexivity|].
    repeat split; vm_compute; reflexivity.
Qed.

(** ** The integrator: when it returns *)

Section EulerForever.
Variable f : float -> float -> result float.
Variables t_end delta_t : float.
Hypothesis f_returns : forall y t, succeeds (f y t) = true.

(** A loop whose [t] stays below [t_end] is still running at every bound. *)
Lemma euler_loop_still_running (below : float -> Prop) :
  (forall t, below t -> (t <? t_end)%float = true /\ below (t + delta_t)%float) ->
  forall fuel t y tv yv,
    below t -> euler_loop f t_end delta_t fuel t y tv yv = None.
Proof using f_returns.
  intros Hinv. induction fuel as [|fuel IH]; intros t y tv yv Ht;
    destruct (Hinv t Ht) as [Hlt Hnext]; cbn [euler_loop]; rewrite Hlt.
  - reflexivity.
  - specialize (f_returns y t). destruct (f y t) as [slope|e]; [|discriminate].
    apply IH. exact Hnext.
Qed.
End EulerForever.

(** Values that are not numbers. *)
Module FloatNan.

Lemma is_nan_eq (x : float) : PrimFloat.is_nan x = true -> x = nan.
Proof.
  unfold PrimFloat.is_nan. rewrite FloatAxioms.eqb_spec. intros H.
  apply Prim2SF_inj. change (Prim2SF nan) with S754_nan.
  destruct (Prim2SF x) as [[]|[]| |[] m e]; try discriminate H; try reflexivity;
    cbn in H; rewrite Z.compare_refl, Pos.compare_cont_refl in H; discriminate H.
Qed.

Lemma add_nan (x : float) : (x + nan)%float = nan.
Proof.
  apply Prim2SF_inj. rewrite add_spec. change (Prim2SF nan) with S754_nan.
  unfold SF64add. destruct (Prim2SF x) as [[]|[]| |[] m e]; reflexivity.
Qed.

Lemma nan_add (x : float) : (nan + x)%float = nan.
Proof.
  apply Prim2SF_inj. rewrite add_spec. change (Prim2SF nan) with S754_nan.
  reflexivity.
Qed.

Lemma nan_mul (x : float) : (nan * x)%float = nan.
Proof.
  apply Prim2SF_inj. rewrite mul_spec. change (Prim2SF nan) with S754_nan.
  reflexivity.
Qed.

Lemma nan_not_below (x : float) : (nan <? x)%float = false.
Proof.
  rewrite FloatAxioms.ltb_spec. change (Prim2SF nan) with S754_nan. reflexivity.
Qed.

End FloatNan.

(** For a derivative that returns at the points of the recurrence, the
    states the loop goes through are these points. *)
Lemma iterates_recurrence f f' t_end delta_t t0 y0 n :
  (forall k, (k < n)%nat ->
     (fst (euler_point f' delta_t t0 y0 k) <? t_end)%float = true
     /\ f (snd (euler_point f' delta_t t0 y0 k)) (fst (euler_point f' delta_t t0 y0 k))
        = Return (f' (snd (euler_point f' delta_t t0 y0 k))
                     (fst (euler_point f' delta_t t0 y0 k)))) ->
  iterates f t_end delta_t t0 y0 n
    (fst (euler_point f' delta_t t0 y0 n)) (snd (euler_point f' delta_t t0 y0 n))
    (map fst (euler_points f' delta_t t0 y0 n))
    (map snd (euler_points f' delta_t t0 y0 n)).
Proof.
  induction n as [|n IH]; intros Hlt.
  - constructor.
  - unfold euler_points. rewrite seq_S, !map_app. cbn [map Nat.add euler_point].
    destruct (Hlt n ltac:(lia)) as [Hbelow Hf].
    apply iterates_S.
    + apply IH. intros k Hk. apply Hlt. lia.
    + exact Hbelow.
    + exact Hf.
Qed.

(** A larger [t] below [t_end] is nearer to it. *)
Lemma steps_left_decreases t_end t t' :
  (t <? t_end)%float = true -> (t <? t')%float = true ->
  (steps_left t_end t' < steps_left t_end t)%nat.
Proof.
  rewrite !FloatAxioms.ltb_spec. intros Hend Hnext.
  apply FloatKey.key_ltb_lt in Hend; try apply Prim2SF_valid.
  apply FloatKey.key_ltb_lt in Hnext; try apply Prim2SF_valid.
  unfold steps_left. lia.
Qed.

Lemma SFleb_neq_ltb a b :
  SFleb a b = true -> SFeqb b a = false -> SFltb a b = true.
Proof.
  unfold SFltb, SFleb, SFeqb.
  destruct a as [[]| []| |[] ma ea], b as [[]| []| |[] mb eb]; FloatOrder.by_cases.
Qed.

(** [a <= b] and [b != a] give [a < b]. *)
Lemma leb_neq_ltb (x y : float) :
  (x <=? y)%float = true -> (y =? x)%float = false -> (x <? y)%float = true.
Proof.
  rewrite FloatAxioms.leb_spec, FloatAxioms.eqb_spec, FloatAxioms.ltb_spec.
  apply SFleb_neq_ltb.
Qed.

(** Below [c], a sum with a positive [d] that is not the same value again is
    larger, or is not a number (and then below nothing). *)
Lemma add_grows_or_leaves (t d c : float) :
  (0 <? d)%float = true -> (t <? c)%float = true ->
  (t + d =? t)%float = false ->
  (t <? t + d)%float = true \/ (t + d <? c)%float = false.
Proof.
  intros Hd Hc Hne.
  destruct (PrimFloat.is_nan (t + d)) eqn:Hnan.
  - right. destruct (t + d <? c)%float eqn:Hlt; [|reflexivity].
    apply FloatOrder.ltb_not_nan in Hlt as [Hn _]. congruence.
  - left. apply leb_neq_ltb; [|exact Hne].
    apply FloatOrder.not_ltb_leb.
    + apply FloatRound.add_not_below, Hd.
    + exact Hnan.
    + apply (FloatOrder.ltb_not_nan _ _ Hc).
Qed.

(** The values of [t] leave [t < t_end]: there are finitely many binary64
    values, so they cannot grow below [t_end] for ever. *)
Lemma euler_time_leaves delta_t t0 t_end :
  (forall k, (euler_time delta_t t0 k <? t_end)%float = true ->
     (euler_time delta_t t0 k <? euler_time delta_t t0 (S k))%float = true
     \/ (euler_time delta_t t0 (S k) <? t_end)%float = false) ->
  exists n,
    (forall k, (k < n)%nat -> (euler_time delta_t t0 k <? t_end)%float = true)
    /\ (euler_time delta_t t0 n <? t_end)%float = false.
Proof.
  intros Hgrow.
  assert (H : forall m j, (steps_left t_end (euler_time delta_t t0 j) <= m)%nat ->
            exists n, (forall k, (j <= k < j + n)%nat ->
                         (euler_time delta_t t0 k <? t_end)%float = true)
                      /\ (euler_time delta_t t0 (j + n) <? t_end)%float = false).
  { induction m as [|m IH]; intros j Hm;
      destruct (euler_time delta_t t0 j <? t_end)%float eqn:Hlt;
      try (exists O; rewrite Nat.add_0_r; split; [intros k Hk; lia|exact Hlt]);
      destruct (Hgrow j Hlt) as [Hup|Hout];
      try (exists 1%nat; replace (j + 1)%nat with (S j) by lia;
           split; [intros k Hk; replace k with j by lia; exact Hlt|exact Hout]);
      pose proof (steps_left_decreases _ _ _ Hlt Hup) as Hdec; [lia|].
    destruct (IH (S j) ltac:(lia)) as (n & Hbelow & Hout).
    exists (S n). split.
    - intros k Hk. destruct (Nat.eq_dec k j) as [->|Hne]; [exact Hlt|].
      apply Hbelow. lia.
    - replace (j + S n)%nat with (S j + n)%nat by lia. exact Hout. }
  destruct (H _ O (Nat.le_refl _)) as (n & Hbelow & Hout).
  exists n. split; [intros k Hk; apply Hbelow; lia|exact Hout].
Qed.

(** While every [t] of the recurrence is below [t_end], the loop goes on. *)
Lemma euler_loop_never_leaves f t_end delta_t t0 :
  (forall y t, succeeds (f y t) = true) ->
  (forall k, (euler_time delta_t t0 k <? t_end)%float = true) ->
  forall fuel y tv yv, euler_loop f t_end delta_t fuel t0 y tv yv = None.
Proof.
  intros Hf Hbelow fuel y tv yv.
  apply (euler_loop_still_running f t_end delta_t Hf
           (fun t => exists k, t = euler_time delta_t t0 k)); [|exists O; reflexivity].
  intros t (k & ->). split; [apply Hbelow|]. exists (S k). reflexivity.
Qed.

(** With a positive step, a [t] that is not below [c] is followed by none
    that is. *)
Lemma euler_time_out_stays (d c t0 : float) n :
  (0 <? d)%float = true ->
  (euler_time d t0 n <? c)%float = false ->
  forall k, (n <= k)%nat -> (euler_time d t0 k <? c)%float = false.
Proof.
  intros Hd Hn k Hk. induction Hk as [|k Hk IH]; [exact Hn|].
  cbn [euler_time]. destruct (euler_time d t0 k + d <? c)%float eqn:Hlt; [|reflexivity].
  exfalso. destruct (PrimFloat.is_nan (euler_time d t0 k)) eqn:Hnan.
  - apply FloatOrder.ltb_not_nan in Hlt as [Hs _].
    apply FloatNan.is_nan_eq in Hnan. rewrite Hnan, FloatNan.nan_add in Hs.
    discriminate.
  - rewrite (FloatMax.ltb_below_trans _ _ _ Hlt (FloatRound.add_not_below _ _ Hd) Hnan)
      in IH.
    discriminate.
Qed.

(** C2, as the code has it.  The recurrence is
    [(t, y) -> (t + delta_t, y + delta_t * f(y, t))] from [(t0, y0)], in
    binary64; its [t] after [k] steps is [euler_time delta_t t0 k].
    - When [t] is below [t_end] for [n] steps and no longer after them, and
      [f] returns a number at each of the [n] points it is called at,
      [euler_method] returns, its trajectory is the [n + 1] points of the
      recurrence, and nothing is printed.
    - With [delta_t > 0] there is such an [n] as soon as no addition below
      [t_end] is absorbed by rounding ([t + delta_t == t] is false there).
    - When [t] stays below [t_end] for ever (as it does once an addition is
      absorbed) and [f] never raises, [euler_method] does not return.
    - [f(y, t) = y] from [(0, 1)] to [t_end = 1] with [delta_t = 0.5] gives
      [(0, 1), (0.5, 1.5), (1.0, 2.25)]. *)
Theorem euler_method_follows_recurrence :
  (forall f f' t0 y0 t_end delta_t n fuel,
      (forall k, (k < n)%nat ->
         (euler_time delta_t t0 k <? t_end)%float = true
         /\ f (snd (euler_point f' delta_t t0 y0 k)) (euler_time delta_t t0 k)
            = Return (f' (snd (euler_point f' delta_t t0 y0 k))
                         (euler_time delta_t t0 k))) ->
      (euler_time delta_t t0 n <? t_end)%float = false ->
      (n <= fuel)%nat ->
      exists r,
        euler_method fuel f t0 y0 t_end delta_t = Some r
        /\ trajectory r = euler_points f' delta_t t0 y0 n
        /\ printed r = [])
  /\ (forall t0 t_end delta_t,
        (0 <? delta_t)%float = true ->
        (forall k, (euler_time delta_t t0 k <? t_end)%float = true ->
           (euler_time delta_t t0 k + delta_t =? euler_time delta_t t0 k)%float = false) ->
        exists n,
          (forall k, (k < n)%nat -> (euler_time delta_t t0 k <? t_end)%float = true)
          /\ (euler_time delta_t t0 n <? t_end)%float = false)
  /\ (forall f t0 y0 t_end delta_t,
        (forall y t, succeeds (f y t) = true) ->
        (forall k, (euler_time delta_t t0 k <? t_end)%float = true) ->
        forall fuel, euler_method fuel f t0 y0 t_end delta_t = None)
  /\ (exists r,
        euler_method 2 (never_fails (fun y _ => y)) 0 1 1 0.5 = Some r
        /\ trajectory r = [(0, 1); (0.5, 1.5); (1, 2.25)]%float).
Proof.
  split; [|split; [|split]].
  - intros f f' t0 y0 t_end delta_t n fuel Hlt Hstop Hfuel.
    assert (Hit : iterates f t_end delta_t t0 y0 n
                    (fst (euler_point f' delta_t t0 y0 n))
                    (snd (euler_point f' delta_t t0 y0 n))
                    (map fst (euler_points f' delta_t t0 y0 n))
                    (map snd (euler_points f' delta_t t0 y0 n))).
    { apply iterates_recurrence. intros k Hk. rewrite fst_euler_point.
      apply Hlt, Hk. }
    eexists. split; [|split].
    + unfold euler_method.
      replace fuel with (n + (fuel - n))%nat by lia.
      rewrite (iterates_loop _ _ _ _ _ _ _ _ _ _ Hit).
      rewrite fst_euler_point.
      destruct (fuel - n)%nat; cbn [euler_loop]; rewrite Hstop; reflexivity.
    + unfold trajectory. cbn [t_values y_values]. apply combine_fst_snd.
    + reflexivity.
  - intros t0 t_end delta_t Hpos Hne. apply euler_time_leaves.
    intros k Hk. cbn [euler_time]. apply add_grows_or_leaves; auto.
  - intros f t0 y0 t_end delta_t Hf Hbelow fuel. unfold euler_method.
    apply euler_loop_never_leaves; assumption.
  - eexists. split; reflexivity.
Qed.

(** A derivative that would raise from [t = 1] on, with [t_end = 1]; the
    steps of a half from 0 to 1; and the step 1 from 1e17, which changes
    nothing. *)
Lemma euler_method_follows_recurrence_witness :
  (exists r,
     euler_method 7 fails_from_one 0 1 1 0.5 = Some r
     /\ trajectory r = euler_points (fun y _ => y) 0.5 0 1 2
     /\ printed r = [])
  /\ (exists n,
        (forall k, (k < n)%nat -> (euler_time 0.5 0 k <? 1)%float = true)
        /\ (euler_time 0.5 0 n <? 1)%float = false)
  /\ euler_method 1000 (never_fails (fun y _ => y)) 1e17 1 2e17 1 = None.
Proof.
  destruct euler_method_follows_recurrence as (H1 & H2 & H3 & _).
  split; [|split].
  - apply (H1 fails_from_one (fun y _ => y) 0 1 1 0.5 2%nat 7%nat)%float.
    + intros k Hk. destruct k as [|[|k]]; [split; reflexivity|split; reflexivity|lia].
    + reflexivity.
    + lia.
  - apply (H2 0 1 0.5)%float; [reflexivity|].
    intros k Hk. destruct k as [|[|k]]; [reflexivity|reflexivity|].
    rewrite (euler_time_out_stays 0.5 1 0 2 eq_refl eq_refl (S (S k)))%float in Hk
      by lia.
    discriminate Hk.
  - apply (H3 (never_fails (fun y _ => y)) 1e17 1 2e17 1)%float.
    + reflexivity.
    + intros k. replace (euler_time 1 1e17 k) with 1e17%float; [reflexivity|].
      induction k as [|k IH]; [reflexivity|]. cbn [euler_time]. rewrite <- IH.
      reflexivity.
Defined.

(** C2, counterexample: [delta_t = 1 > 0] and [t_end = 2e17 > t0 = 1e17],
    with [f(y, t) = y], which never raises; [1e17 + 1] is [1e17] again, so
    [t] stays below [t_end] and [euler_method] returns no trajectory, however
    many iterations it is given. *)
Lemma euler_method_returns_nothing_when_step_is_absorbed :
  (0 <? 1)%float = true /\ (1e17 <? 2e17)%float = true
  /\ forall fuel, euler_method fuel (never_fails (fun y _ => y)) 1e17 0 2e17 1 = None.
Proof.
  split; [reflexivity|]. split; [reflexivity|].
  intros fuel. unfold euler_method.
  apply (euler_loop_still_running (never_fails (fun y _ => y)) _ _ (fun _ _ => eq_refl)
           (fun t => t = 1e17%float));
    [|reflexivity].
  intros t ->. split; reflexivity.
Qed.

(** ** The sandbox *)

(** C1, at the expressions ["sin"] and ["__builtins__"], which [compile]
    accepts as it accepts any expression.  The function that
    [build_f_function] (or [build_g_function]) returns has no check of what
    [eval] returns: for ["sin"] it returns the function [math.sin], for
    ["__builtins__"], a name that is neither in [make_safe_eval_env] nor
    bound by the call, it returns [None], and it raises in neither case.
    With [f(y, t) = sin] entered at the prompt, [euler_method] gets the
    function as a slope; [delta_t * slope] raises [TypeError] outside its
    [try], and [main] ends with this exception after "Computing Euler
    steps...", with no table and no figure. *)
Theorem sandbox_returns_what_is_no_number :
  (forall (world : Type) (py : interpreter) (y : value) (t : float) (w : world),
      call_f (eval_code py) (build_f_function (Name "sin")) y t w
      = (Return (VCallable math_sin), w)
      /\ call_g (eval_code py) (build_g_function (Name "sin")) t w
         = (Return (VCallable math_sin), w)
      /\ call_f (eval_code py) (build_f_function (Name "__builtins__")) y t w
         = (Return VNone, w)
      /\ call_g (eval_code py) (build_g_function (Name "__builtins__")) t w
         = (Return VNone, w))
  /\ make_safe_eval_env !! "__builtins__" = None
  /\ (forall y t, f_locals y t !! "__builtins__" = None)
  /\ (forall t, g_locals t !! "__builtins__" = None)
  /\ (exists out,
        main expr string unit sample_compile_names sample_strip sample_float_of_str
          (eval_code floats_only) sample_runtime 5 tt ["sin"; "t"; "0.5"; ""; "1"; "1"]
        = Some (Failed (Uncaught TypeError), [], out)
        /\ plotted out = []
        /\ computed_counts out = []
        /\ List.last out PrintBanner = Print "Computing Euler steps...").
Proof.
  split; [|split; [|split; [|split]]].
  - intros world py y t w.
    split; [reflexivity|]. split; [reflexivity|]. split; reflexivity.
  - vm_compute. reflexivity.
  - intros y t. vm_compute. reflexivity.
  - intros t. vm_compute. reflexivity.
  - eexists. split; [vm_compute; reflexivity|].
    split; [reflexivity|]. split; reflexivity.
Qed.

(** * Further properties of the code *)

(** ** The integrator: how a run ends *)

Section EulerExit.
Variable f : float -> float -> result float.
Variables t_end delta_t t0 y0 : float.

(** What the loop returns is a state that some number of iterations reaches,
    left either because [t < t_end] fails or because [f] raises there. *)
Lemma euler_loop_exit fuel :
  forall k t y tv yv r,
    iterates f t_end delta_t t0 y0 k t y tv yv ->
    euler_loop f t_end delta_t fuel t y tv yv = Some r ->
    exists k' t' y',
      iterates f t_end delta_t t0 y0 k' t' y' (t_values r) (y_values r)
      /\ (((t' <? t_end)%float = false /\ printed r = [])
          \/ ((t' <? t_end)%float = true
              /\ exists e, f y' t' = Raise e
                   /\ printed r = [ErrorEvaluatingF y' t'; ReprOf e; StoppingEarly])).
Proof.
  induction fuel as [|fuel IH]; intros k t y tv yv r Hit; cbn [euler_loop];
    destruct (t <? t_end)%float eqn:Hlt.
  - discriminate.
  - intros [= <-]. exists k, t, y. split; [exact Hit|]. left. split; [exact Hlt|reflexivity].
  - destruct (f y t) as [slope|e] eqn:Hf.
    + apply (IH (S k)). apply iterates_S; assumption.
    + intros [= <-]. exists k, t, y. split; [exact Hit|]. right.
      split; [exact Hlt|]. exists e. split; [exact Hf|reflexivity].
  - intros [= <-]. exists k, t, y. split; [exact Hit|]. left. split; [exact Hlt|reflexivity].
Qed.

(** Each value of [y] but the first is one Euler step from the point
    before, with a call of [f] that returned. *)
Lemma iterates_y_steps k t y tv yv :
  iterates f t_end delta_t t0 y0 k t y tv yv ->
  length tv = S k /\ length yv = S k
  /\ List.nth k tv 0%float = t /\ List.nth k yv 0%float = y
  /\ forall j, (j < k)%nat ->
       exists slope,
         f (List.nth j yv 0%float) (List.nth j tv 0%float) = Return slope
         /\ List.nth (S j) yv 0%float = (List.nth j yv 0 + delta_t * slope)%float.
Proof.
  induction 1 as [|k t y tv yv slope Hk IH Hlt Hf].
  - do 4 (split; [reflexivity|]). intros j Hj. lia.
  - destruct IH as (Hlt' & Hly & Hlast & Hylast & Hsteps).
    split; [rewrite length_app; cbn; lia|].
    split; [rewrite length_app; cbn; lia|].
    split; [rewrite app_nth2 by lia; rewrite Hlt', Nat.sub_diag; reflexivity|].
    split; [rewrite app_nth2 by lia; rewrite Hly, Nat.sub_diag; reflexivity|].
    intros j Hj. destruct (Nat.eq_dec j k) as [->|Hne].
    + exists slope.
      rewrite (@app_nth1 _ yv _ _ k), (@app_nth1 _ tv _ _ k) by lia.
      rewrite (@app_nth2 _ yv _ _ (S k)) by lia.
      rewrite Hly, Nat.sub_diag, Hlast, Hylast. split; [exact Hf|reflexivity].
    + rewrite !app_nth1 by lia. apply Hsteps. lia.
Qed.
End EulerExit.

(** X1: a run of [euler_method] ends in one of two ways.  Either nothing is
    printed and the last [t] is not below [t_end]; or the three lines of the
    failure are printed, they name the last point of the trajectory, [f]
    raised the exception they show at that point, and the last [t] is below
    [t_end]. *)
Theorem euler_method_exit f t0 y0 t_end delta_t fuel r :
  euler_method fuel f t0 y0 t_end delta_t = Some r ->
  let t_last := List.last (t_values r) t0 in
  let y_last := List.last (y_values r) y0 in
  ((t_last <? t_end)%float = false /\ printed r = [])
  \/ ((t_last <? t_end)%float = true
      /\ exists e, f y_last t_last = Raise e
           /\ printed r = [ErrorEvaluatingF y_last t_last; ReprOf e; StoppingEarly]).
Proof.
  intros Hr. cbv zeta.
  destruct (euler_loop_exit f t_end delta_t t0 y0 fuel O t0 y0 [t0] [y0] r
              (iterates_O _ _ _ _ _) Hr) as (k & t & y & Hit & Hend).
  destruct (iterates_shape _ _ _ _ _ _ _ _ _ _ Hit) as (_ & _ & _ & _ & -> & ->).
  exact Hend.
Qed.

Lemma euler_method_exit_witness :
  ((List.last [0; 0.5; 1]%float 0%float <? 5)%float = false
   /\ [ErrorEvaluatingF 2.25 1; ReprOf ValueError; StoppingEarly] = [])
  \/ ((List.last [0; 0.5; 1]%float 0%float <? 5)%float = true
      /\ exists e, fails_from_one (List.last [1; 1.5; 2.25]%float 1%float) (List.last [0; 0.5; 1]%float 0%float)
                   = Raise e
           /\ [ErrorEvaluatingF 2.25 1; ReprOf ValueError; StoppingEarly]
              = [ErrorEvaluatingF (List.last [1; 1.5; 2.25]%float 1%float)
                   (List.last [0; 0.5; 1]%float 0%float); ReprOf e; StoppingEarly]).
Proof.
  apply (euler_method_exit fails_from_one 0 1 5 0.5 10%nat
           (EulerOutput [0; 0.5; 1] [1; 1.5; 2.25]
              [ErrorEvaluatingF 2.25 1; ReprOf ValueError; StoppingEarly]))%float.
  reflexivity.
Defined.

(** X2: in every trajectory that [euler_method] returns, whatever [f] is, each
    point but the first comes from the one before by one Euler step:
    [f] returned a slope there, and the next [y] is [y + delta_t * slope]. *)
Theorem euler_method_points_are_steps f t0 y0 t_end delta_t fuel r :
  euler_method fuel f t0 y0 t_end delta_t = Some r ->
  forall j, (S j < length (y_values r))%nat ->
    exists slope,
      f (List.nth j (y_values r) 0%float) (List.nth j (t_values r) 0%float) = Return slope
      /\ List.nth (S j) (y_values r) 0%float
         = (List.nth j (y_values r) 0 + delta_t * slope)%float
      /\ List.nth (S j) (t_values r) 0%float
         = (List.nth j (t_values r) 0 + delta_t)%float.
Proof.
  intros Hr j Hj.
  destruct (euler_loop_exit f t_end delta_t t0 y0 fuel O t0 y0 [t0] [y0] r
              (iterates_O _ _ _ _ _) Hr) as (k & t & y & Hit & _).
  destruct (iterates_y_steps _ _ _ _ _ _ _ _ _ _ Hit) as (_ & Hly & _ & _ & Hy).
  destruct (iterates_steps _ _ _ _ _ _ _ _ _ _ Hit) as (_ & _ & Ht).
  destruct (Hy j ltac:(lia)) as (slope & Hf & Hnext).
  exists slope. split; [exact Hf|]. split; [exact Hnext|]. apply Ht. lia.
Qed.

Lemma euler_method_points_are_steps_witness :
  exists slope,
    fails_from_one (List.nth 1 [1; 1.5; 2.25]%float 0%float)
      (List.nth 1 [0; 0.5; 1]%float 0%float) = Return slope
    /\ List.nth 2 [1; 1.5; 2.25]%float 0%float
       = (List.nth 1 [1; 1.5; 2.25]%float 0 + 0.5 * slope)%float
    /\ List.nth 2 [0; 0.5; 1]%float 0%float
       = (List.nth 1 [0; 0.5; 1]%float 0 + 0.5)%float.
Proof.
  apply (euler_method_points_are_steps fails_from_one 0 1 5 0.5 10%nat
           (EulerOutput [0; 0.5; 1] [1; 1.5; 2.25]
              [ErrorEvaluatingF 2.25 1; ReprOf ValueError; StoppingEarly]) eq_refl 1%nat)%float.
  cbn. lia.
Defined.

(** ** Sums of finite values *)

Module FloatSum.
Import FloatRound FloatKey.

(* the sum of two finite values of any sign, as a key *)
Lemma SFadd_key_finite x u :
  valid_binary x = true -> valid_binary u = true ->
  finite_sf x = true -> finite_sf u = true ->
  valid_binary (SFadd prec emax x u) = true
  /\ is_number_sf (SFadd prec emax x u) = true
  /\ key (SFadd prec emax x u) = round_key (key x + key u).
Proof.
  intros Hx Hu Hfx Hfu.
  destruct x as [sx|sx| |sx mx ex], u as [su|su| |su mu eu];
    try discriminate Hfx; try discriminate Hfu.
  - destruct sx, su; (split; [reflexivity|split; reflexivity]).
  - destruct (valid_finite _ _ _ Hu) as [Hcu Heu].
    cbn [SFadd]. split; [exact Hu|]. split; [reflexivity|].
    change (key (S754_zero sx)) with 0. rewrite Z.add_0_l. symmetry.
    apply round_key_canonical; assumption.
  - destruct (valid_finite _ _ _ Hx) as [Hcx Hex].
    cbn [SFadd]. split; [exact Hx|]. split; [reflexivity|].
    change (key (S754_zero su)) with 0. rewrite Z.add_0_r. symmetry.
    apply round_key_canonical; assumption.
  - destruct (valid_finite _ _ _ Hx) as [Hcx Hex].
    destruct (valid_finite _ _ _ Hu) as [Hcu Heu].
    pose proof (canonical_ge_emin _ _ Hcx) as Hex'.
    pose proof (canonical_ge_emin _ _ Hcu) as Heu'.
    cbn [SFadd]. set (ez := Z.min ex eu).
    assert (Hez : -1074 <= ez) by (unfold ez; lia).
    destruct (shl_align_spec mx ex ez ltac:(unfold ez; lia)) as [_ HX].
    destruct (shl_align_spec mu eu ez ltac:(unfold ez; lia)) as [_ HU].
    set (X := fst (shl_align mx ex ez)) in *.
    set (U := fst (shl_align mu eu ez)) in *.
    assert (HVx : Zpos mx * scale ex = Zpos X * scale ez).
    { rewrite HX, (scale_split ez ex) by (unfold ez; lia). ring. }
    assert (HVu : Zpos mu * scale eu = Zpos U * scale ez).
    { rewrite HU, (scale_split ez eu) by (unfold ez; lia). ring. }
    pose proof (scale_pos ez ltac:(lia)) as HW.
    assert (HS : key (S754_finite sx mx ex) + key (S754_finite su mu eu)
                 = (cond_Zopp sx (Zpos X) + cond_Zopp su (Zpos U)) * scale ez).
    { destruct sx, su; cbn [key cond_Zopp]; rewrite HVx, HVu; ring. }
    rewrite HS.
    destruct (cond_Zopp sx (Zpos X) + cond_Zopp su (Zpos U)) as [|p|p] eqn:HSum;
      cbn [binary_normalize].
    + split; [reflexivity|]. split; reflexivity.
    + destruct (binary_round_key false p ez Hez) as (Hv & Hn & Hk).
      split; [exact Hv|]. split; [exact Hn|]. rewrite Hk.
      unfold round_key.
      destruct (Z.eqb_spec (Zpos p * scale ez) 0); [lia|].
      destruct (Z.ltb_spec 0 (Zpos p * scale ez)); [reflexivity|lia].
    + destruct (binary_round_key true p ez Hez) as (Hv & Hn & Hk).
      split; [exact Hv|]. split; [exact Hn|]. rewrite Hk.
      unfold round_key.
      destruct (Z.eqb_spec (Zneg p * scale ez) 0); [lia|].
      destruct (Z.ltb_spec 0 (Zneg p * scale ez)); [lia|].
      replace (- (Zneg p * scale ez)) with (Zpos p * scale ez) by lia.
      reflexivity.
Qed.

(* a finite value is the rounding of its own key *)
Lemma round_key_of_key x :
  valid_binary x = true -> finite_sf x = true -> round_key (key x) = key x.
Proof.
  intros Hx Hf. destruct x as [s|s| |s m e]; try discriminate Hf.
  - reflexivity.
  - destruct (valid_finite _ _ _ Hx) as [Hc He].
    apply round_key_canonical; assumption.
Qed.

Lemma key_admissible x : valid_binary x = true -> admissible (key x).
Proof.
  intros Hx. pose proof (key_sum_admissible x (S754_zero false) Hx eq_refl) as H.
  change (key (S754_zero false)) with 0 in H. rewrite Z.add_0_r in H. exact H.
Qed.

(* a strictly smaller key is a value below *)
Lemma key_lt_ltb a b :
  valid_binary a = true -> valid_binary b = true ->
  is_number_sf a = true -> is_number_sf b = true ->
  key a < key b -> SFltb a b = true.
Proof.
  intros Ha Hb Hna Hnb Hk.
  destruct (SFltb a b) eqn:Hlt; [reflexivity|exfalso].
  pose proof (key_le_of_not_ltb a b Ha Hb Hna Hnb Hlt). lia.
Qed.

(* adding the same value that is not negative keeps the order *)
Lemma SFadd_mono_left a b d :
  valid_binary a = true -> valid_binary b = true -> valid_binary d = true ->
  SFltb a b = true -> SFltb (S754_zero false) d = true ->
  SFltb (SFadd prec emax b d) (SFadd prec emax a d) = false.
Proof.
  intros Ha Hb Hd Hab Hpos.
  pose proof (key_ltb_lt a b Ha Hb Hab) as Hk.
  destruct d as [sd|sd| |sd md ed]; try discriminate Hpos;
    (destruct sd; [discriminate Hpos|]).
  - (* d = +infinity *)
    destruct a as [sa|[]| |sa ma ea], b as [sb|[]| |sb mb eb];
      try discriminate Hab; try reflexivity; destruct sa; try destruct sb;
      try discriminate Hab; reflexivity.
  - destruct a as [sa|sa| |sa ma ea]; try discriminate Hab.
    + (* a = 0 *)
      destruct b as [sb|sb| |sb mb eb]; try discriminate Hab.
      * destruct sb; [discriminate Hab|]. reflexivity.
      * destruct (SFadd_key_finite (S754_zero sa) (S754_finite false md ed) Ha Hd eq_refl eq_refl)
          as (Hva & Hna & Hka).
        destruct (SFadd_key_finite (S754_finite sb mb eb) (S754_finite false md ed)
                    Hb Hd eq_refl eq_refl) as (Hvb & Hnb & Hkb).
        apply key_not_ltb; try assumption. rewrite Hka, Hkb.
        apply round_key_mono; try (apply key_sum_admissible; assumption). lia.
    + (* a = -infinity *)
      destruct sa; [|destruct b as [sb|[]| |[] mb eb]; discriminate Hab].
      cbn [SFadd]. unfold SFltb.
      destruct (SFadd prec emax b (S754_finite false md ed)) as [|[]| |[] ? ?]; reflexivity.
    + destruct b as [sb|sb| |sb mb eb]; try discriminate Hab.
      * destruct (SFadd_key_finite (S754_finite sa ma ea) (S754_finite false md ed)
                    Ha Hd eq_refl eq_refl) as (Hva & Hna & Hka).
        destruct (SFadd_key_finite (S754_zero sb) (S754_finite false md ed) Hb Hd eq_refl eq_refl)
          as (Hvb & Hnb & Hkb).
        apply key_not_ltb; try assumption. rewrite Hka, Hkb.
        apply round_key_mono; try (apply key_sum_admissible; assumption). lia.
      * destruct sb; [destruct sa; discriminate Hab|].
        change (SFadd prec emax (S754_infinity false) (S754_finite false md ed))
          with (S754_infinity false).
        unfold SFltb.
        destruct (SFadd prec emax _ _) as [|[]| |[] ? ?]; reflexivity.
      * destruct (SFadd_key_finite (S754_finite sa ma ea) (S754_finite false md ed)
                    Ha Hd eq_refl eq_refl) as (Hva & Hna & Hka).
        destruct (SFadd_key_finite (S754_finite sb mb eb) (S754_finite false md ed)
                    Hb Hd eq_refl eq_refl) as (Hvb & Hnb & Hkb).
        apply key_not_ltb; try assumption. rewrite Hka, Hkb.
        apply round_key_mono; try (apply key_sum_admissible; assumption). lia.
Qed.

Lemma add_mono_left (a b d : float) :
  (a <? b)%float = true -> (0 <? d)%float = true ->
  (b + d <? a + d)%float = false.
Proof.
  rewrite !FloatAxioms.ltb_spec, !add_spec. change (Prim2SF 0) with (S754_zero false).
  apply SFadd_mono_left; apply Prim2SF_valid.
Qed.

(* a value below [c] stays below it when what is added is not positive *)
Lemma SFadd_stays_below a c d :
  valid_binary a = true -> valid_binary c = true -> valid_binary d = true ->
  SFltb a c = true -> SFleb d (S754_zero false) = true ->
  SFltb (SFadd prec emax a d) c = true.
Proof.
  intros Ha Hc Hd Hac Hneg.
  pose proof (key_ltb_lt a c Ha Hc Hac) as Hk.
  assert (Hnc : is_number_sf c = true) by (destruct a, c; try discriminate Hac; reflexivity).
  destruct d as [sd|sd| |sd md ed]; try discriminate Hneg.
  - (* d = 0 *)
    destruct a as [sa|sa| |sa ma ea]; try discriminate Hac.
    + destruct (SFadd_key_finite (S754_zero sa) (S754_zero sd) Ha Hd eq_refl eq_refl)
        as (Hv & Hn & Hka).
      apply key_lt_ltb; try assumption. rewrite Hka. exact Hk.
    + destruct sa; [exact Hac|destruct c as [|[]| |[] ? ?]; discriminate Hac].
    + cbn [SFadd]. exact Hac.
  - (* d = -infinity *)
    destruct sd; [|discriminate Hneg].
    destruct a as [sa|sa| |sa ma ea]; try discriminate Hac.
    + destruct c as [sc|[]| |[] mc ec]; try discriminate Hac; reflexivity.
    + destruct sa; [exact Hac|destruct c as [|[]| |[] ? ?]; discriminate Hac].
    + destruct c as [sc|[]| |sc mc ec]; try discriminate Hac; try reflexivity;
        destruct sa, sc; try discriminate Hac; reflexivity.
  - destruct sd; [|discriminate Hneg].
    pose proof (key_sign _ _ _ Hd) as Hsd. cbv iota in Hsd.
    destruct a as [sa|sa| |sa ma ea]; try discriminate Hac.
    + destruct (SFadd_key_finite (S754_zero sa) (S754_finite true md ed) Ha Hd eq_refl eq_refl)
        as (Hv & Hn & Hka).
      apply key_lt_ltb; try assumption. rewrite Hka.
      pose proof (round_key_mono (key (S754_zero sa) + key (S754_finite true md ed))
                    (key (S754_zero sa))
                    (key_sum_admissible _ _ Ha Hd) (key_admissible _ Ha) ltac:(lia)) as Hm.
      rewrite (round_key_of_key _ Ha eq_refl) in Hm. lia.
    + destruct sa; [exact Hac|destruct c as [|[]| |[] ? ?]; discriminate Hac].
    + destruct (SFadd_key_finite (S754_finite sa ma ea) (S754_finite true md ed)
                  Ha Hd eq_refl eq_refl) as (Hv & Hn & Hka).
      apply key_lt_ltb; try assumption. rewrite Hka.
      pose proof (round_key_mono (key (S754_finite sa ma ea) + key (S754_finite true md ed))
                    (key (S754_finite sa ma ea))
                    (key_sum_admissible _ _ Ha Hd) (key_admissible _ Ha) ltac:(lia)) as Hm.
      rewrite (round_key_of_key _ Ha eq_refl) in Hm. lia.
Qed.

Lemma add_stays_below (a c d : float) :
  (a <? c)%float = true -> (d <=? 0)%float = true ->
  (a + d <? c)%float = true.
Proof.
  rewrite !FloatAxioms.ltb_spec, FloatAxioms.leb_spec, add_spec.
  change (Prim2SF 0) with (S754_zero false).
  apply SFadd_stays_below; apply Prim2SF_valid.
Qed.

End FloatSum.

(** X3: with [delta_t > 0], no [t] of a returned trajectory is above
    [t_end + delta_t]: the values of [t] go past [t_end] by one step at
    most. *)
Theorem euler_method_overshoots_by_one_step f t0 y0 t_end delta_t fuel r :
  euler_method fuel f t0 y0 t_end delta_t = Some r ->
  (0 <? delta_t)%float = true ->
  forall j, (S j < length (t_values r))%nat ->
    (t_end + delta_t <? List.nth (S j) (t_values r) 0)%float = false.
Proof.
  intros Hr Hpos j Hj.
  destruct (euler_loop_exit f t_end delta_t t0 y0 fuel O t0 y0 [t0] [y0] r
              (iterates_O _ _ _ _ _) Hr) as (k & t & y & Hit & _).
  destruct (iterates_steps _ _ _ _ _ _ _ _ _ _ Hit) as (Hlen & _ & Ht).
  destruct (Ht j ltac:(lia)) as (-> & Hbelow).
  apply FloatSum.add_mono_left; assumption.
Qed.

Lemma euler_method_overshoots_by_one_step_witness :
  (5 + 0.5 <? List.nth 2 [0; 0.5; 1]%float 0)%float = false.
Proof.
  apply (euler_method_overshoots_by_one_step fails_from_one 0 1 5 0.5 10%nat
           (EulerOutput [0; 0.5; 1] [1; 1.5; 2.25]
              [ErrorEvaluatingF 2.25 1; ReprOf ValueError; StoppingEarly])
           eq_refl eq_refl 1%nat)%float.
  cbn. lia.
Defined.

(** X4: [euler_method] has no guard of its own against a step that is not
    positive: with [t0 < t_end], [delta_t <= 0] and an [f] that never raises,
    the loop is still running after any number of iterations. *)
Theorem euler_method_never_returns_backwards f t0 y0 t_end delta_t :
  (forall y t, succeeds (f y t) = true) ->
  (t0 <? t_end)%float = true -> (delta_t <=? 0)%float = true ->
  forall fuel, euler_method fuel f t0 y0 t_end delta_t = None.
Proof.
  intros Hf Hlt Hneg fuel. unfold euler_method.
  apply (euler_loop_still_running f t_end delta_t Hf
           (fun t => (t <? t_end)%float = true)); [|exact Hlt].
  intros t Ht. split; [exact Ht|]. apply FloatSum.add_stays_below; assumption.
Qed.

Lemma euler_method_never_returns_backwards_witness :
  euler_method 1000 (never_fails (fun y _ => y)) 0 1 1 (-0.5) = None.
Proof.
  apply (euler_method_never_returns_backwards (never_fails (fun y _ => y)) 0 1 1 (-0.5))%float;
    reflexivity.
Defined.

(** X5: when [t0 + delta_t] is [t0] again (the step is lost in the rounding
    of the sum), [t0 < t_end] and [f] never raises, the loop is still running
    after any number of iterations, also with [delta_t > 0]: from 1e17 a step
    of 1 changes nothing. *)
Theorem euler_method_never_returns_absorbed f t0 y0 t_end delta_t :
  (forall y t, succeeds (f y t) = true) ->
  (t0 <? t_end)%float = true -> (t0 + delta_t)%float = t0 ->
  forall fuel, euler_method fuel f t0 y0 t_end delta_t = None.
Proof.
  intros Hf Hlt Habs fuel. unfold euler_method.
  apply (euler_loop_still_running f t_end delta_t Hf (fun t => t = t0)); [|reflexivity].
  intros t ->. split; [exact Hlt|exact Habs].
Qed.

Lemma euler_method_never_returns_absorbed_witness :
  (0 <? 1)%float = true
  /\ euler_method 1000 (never_fails (fun y _ => y)) 1e17 1 2e17 1 = None.
Proof.
  split; [reflexivity|].
  apply (euler_method_never_returns_absorbed (never_fails (fun y _ => y)) 1e17 1 2e17 1)%float;
    reflexivity.
Defined.

(** ** Integers as floats: where [OverflowError] starts *)

Module FloatOfInt.
Import FloatRound FloatKey.

Lemma threshold_rounds :
  round_units ((float_overflow_threshold - 1) * scale 0) < scale 1024
  /\ round_units (float_overflow_threshold * scale 0) = scale 1024
  /\ scale (-1074) <= scale 0 /\ 0 < scale 0.
Proof.
  split; [vm_compute; reflexivity|].
  split; [vm_compute; reflexivity|].
  split; [vm_compute; discriminate|reflexivity].
Qed.

(* an integer below the threshold is a finite float *)
Lemma normalize_int_below z :
  1 <= z < float_overflow_threshold ->
  exists m e,
    binary_normalize prec emax z 0 false = S754_finite false m e
    /\ valid_binary (S754_finite false m e) = true.
Proof.
  intros Hz. destruct z as [|p|p]; try lia. cbn [binary_normalize].
  destruct (binary_round_key false p 0 ltac:(lia)) as (Hv & Hn & Hk).
  destruct threshold_rounds as (Hlow & _ & Hs & Hs0).
  assert (Hu : scale (-1074) <= Zpos p * scale 0) by nia.
  pose proof (round_units_pos _ Hu) as Hpos.
  assert (Hb : round_units (Zpos p * scale 0) < scale 1024).
  { assert (Zpos p * scale 0 <= (float_overflow_threshold - 1) * scale 0) by nia.
    pose proof (round_units_mono (Zpos p * scale 0)
                  ((float_overflow_threshold - 1) * scale 0) ltac:(lia)).
    lia. }
  pose proof huge_above as Hh.
  unfold cap in Hk.
  destruct (Z.ltb_spec (round_units (Zpos p * scale 0)) (scale 1024)); [|lia].
  destruct (binary_round prec emax false p 0) as [sr|sr| |sr mr er];
    try discriminate Hn; cbn [key] in Hk; try lia.
  - destruct sr; cbv iota in Hk; lia.
  - pose proof (key_sign _ _ _ Hv) as Hsg.
    destruct sr; cbn [key] in Hsg; [lia|eauto].
Qed.

(* an integer from the threshold on is the float infinity *)
Lemma normalize_int_overflow z :
  float_overflow_threshold <= z ->
  binary_normalize prec emax z 0 false = S754_infinity false.
Proof.
  intros Hz.
  assert (Ht : 0 < float_overflow_threshold) by reflexivity.
  destruct z as [|p|p]; try lia. cbn [binary_normalize].
  destruct (binary_round_key false p 0 ltac:(lia)) as (Hv & Hn & Hk).
  destruct threshold_rounds as (_ & Hup & Hs & Hs0).
  assert (Hb : scale 1024 <= round_units (Zpos p * scale 0)).
  { rewrite <- Hup. apply round_units_mono. nia. }
  pose proof huge_above as Hh.
  unfold cap in Hk.
  destruct (Z.ltb_spec (round_units (Zpos p * scale 0)) (scale 1024)); [lia|].
  destruct (binary_round prec emax false p 0) as [sr|sr| |sr mr er];
    try discriminate Hn; cbn [key] in Hk; try lia.
  - destruct sr; [lia|reflexivity].
  - destruct (valid_finite _ _ _ Hv) as [Hc He].
    pose proof (finite_below_overflow _ _ Hc He). destruct sr; lia.
Qed.

End FloatOfInt.

(** [float(z)] for [z >= 0]: the value below the threshold, [OverflowError]
    from it on. *)
Lemma float_of_int_below z :
  0 <= z < float_overflow_threshold ->
  float_of_int z = Return (float_of_Z z)
  /\ (z <> 0 -> (float_of_Z z =? 0)%float = false).
Proof.
  intros Hz. unfold float_of_int, float_of_Z.
  destruct (Z.eq_dec z 0) as [->|Hne]; [split; [reflexivity|congruence]|].
  destruct (FloatOfInt.normalize_int_below z ltac:(lia)) as (m & e & -> & Hv).
  unfold PrimFloat.is_infinity.
  rewrite !FloatAxioms.eqb_spec, FloatAxioms.abs_spec, (Prim2SF_SF2Prim _ Hv).
  split; [reflexivity|]. intros _. reflexivity.
Qed.

Lemma float_of_int_overflow z :
  float_overflow_threshold <= z -> float_of_int z = Raise OverflowError.
Proof.
  intros Hz. unfold float_of_int, float_of_Z.
  rewrite (FloatOfInt.normalize_int_overflow z Hz). reflexivity.
Qed.

Lemma grid_step_below t0 t_end n :
  2 <= n <= float_overflow_threshold ->
  grid_step t0 t_end n = Return ((t_end - t0) / float_of_Z (n - 1))%float.
Proof.
  intros Hn. unfold grid_step.
  destruct (float_of_int_below (n - 1) ltac:(lia)) as [-> Hnz].
  unfold_bind. unfold float_div. rewrite Hnz by lia. reflexivity.
Qed.

Section SamplerFailures.
Variable g : float -> result float.
Variables t0 step : float.

(** The loop raises what [g] raises at the first grid point where it
    raises. *)
Lemma sample_loop_first_failure remaining :
  forall i T Y k e,
    0 <= i -> i + Z.of_nat remaining <= float_overflow_threshold ->
    (k < remaining)%nat ->
    (forall j, (j < k)%nat ->
       succeeds (g (t0 + float_of_Z (i + Z.of_nat j) * step)%float) = true) ->
    g (t0 + float_of_Z (i + Z.of_nat k) * step)%float = Raise e ->
    sample_loop g t0 step remaining i T Y = Raise e.
Proof.
  induction remaining as [|remaining IH]; intros i T Y k e Hi Hmax Hk Hok Hfail; [lia|].
  cbn [sample_loop].
  destruct (float_of_int_below i ltac:(lia)) as [-> _]. unfold_bind.
  destruct k as [|k].
  - rewrite Z.add_0_r in Hfail. rewrite Hfail. reflexivity.
  - pose proof (Hok O ltac:(lia)) as H0. rewrite Z.add_0_r in H0.
    destruct (g (t0 + float_of_Z i * step)%float) as [y|e']; [|discriminate].
    apply (IH (i + 1) _ _ k e); try lia.
    + intros j Hj. specialize (Hok (S j) ltac:(lia)).
      replace (i + 1 + Z.of_nat j) with (i + Z.of_nat (S j)) by lia. exact Hok.
    + replace (i + 1 + Z.of_nat k) with (i + Z.of_nat (S k)) by lia. exact Hfail.
Qed.

(** An exception of the loop is one that [g] raised at a grid point. *)
Lemma sample_loop_raise_origin remaining :
  forall i T Y e,
    0 <= i -> i + Z.of_nat remaining <= float_overflow_threshold ->
    sample_loop g t0 step remaining i T Y = Raise e ->
    exists j, (j < remaining)%nat
      /\ g (t0 + float_of_Z (i + Z.of_nat j) * step)%float = Raise e.
Proof.
  induction remaining as [|remaining IH]; intros i T Y e Hi Hmax; cbn [sample_loop];
    [discriminate|].
  destruct (float_of_int_below i ltac:(lia)) as [-> _]. unfold_bind.
  destruct (g (t0 + float_of_Z i * step)%float) as [y|e'] eqn:Hg.
  - intros Hr. apply IH in Hr; try lia. destruct Hr as (j & Hj & Hgj).
    exists (S j). split; [lia|].
    replace (i + Z.of_nat (S j)) with (i + 1 + Z.of_nat j) by lia. exact Hgj.
  - intros [= <-]. exists O. split; [lia|]. rewrite Z.add_0_r. exact Hg.
Qed.
End SamplerFailures.

(** X6: [smooth_exact_curve] re-raises the exception of the first grid point
    where [g] raises: when [g] returns at the grid points before point [k]
    and raises [e] there, the call raises [e]. *)
Theorem smooth_exact_curve_raises_first_failure g t0 t_end num_points k e :
  clamp_points num_points <= float_overflow_threshold ->
  0 <= k < clamp_points num_points ->
  (forall i, 0 <= i < k ->
     succeeds (g (grid_time t0 t_end (clamp_points num_points) i)) = true) ->
  g (grid_time t0 t_end (clamp_points num_points) k) = Raise e ->
  smooth_exact_curve g t0 t_end num_points = Raise e.
Proof.
  intros Hmax Hk Hok Hfail.
  pose proof (clamp_points_spec num_points) as (Hn2 & _).
  unfold smooth_exact_curve. rewrite grid_step_below by lia. unfold_bind.
  apply (sample_loop_first_failure g t0 _ _ 0 [] [] (Z.to_nat k) e); try lia.
  - intros j Hj. specialize (Hok (Z.of_nat j) ltac:(lia)). exact Hok.
  - rewrite Z2Nat.id by lia. exact Hfail.
Qed.

Lemma smooth_exact_curve_raises_first_failure_witness :
  smooth_exact_curve pole_at_four 2 10 5 = Raise ZeroDivisionError.
Proof.
  apply (smooth_exact_curve_raises_first_failure pole_at_four 2 10 5 1 ZeroDivisionError)%float.
  - vm_compute. discriminate.
  - change (clamp_points 5) with 5. lia.
  - intros i Hi. assert (i = 0) as -> by lia. reflexivity.
  - reflexivity.
Defined.

(** X7: the exceptions of [smooth_exact_curve] itself.  The clamp keeps the
    divisor [float(num_points - 1)] away from zero, so the division never
    raises; [float(num_points - 1)] raises [OverflowError] exactly from
    [num_points - 1 = 2 ^ 1024 - 2 ^ 970] on, before [g] is called; below
    that, an exception of the call is one that [g] raised at a grid
    point. *)
Theorem smooth_exact_curve_own_exceptions g t0 t_end num_points :
  (float_overflow_threshold <= clamp_points num_points - 1 ->
   smooth_exact_curve g t0 t_end num_points = Raise OverflowError)
  /\ (clamp_points num_points - 1 < float_overflow_threshold ->
      forall e, smooth_exact_curve g t0 t_end num_points = Raise e ->
        exists i, 0 <= i < clamp_points num_points
          /\ g (grid_time t0 t_end (clamp_points num_points) i) = Raise e).
Proof.
  pose proof (clamp_points_spec num_points) as (Hn2 & _). split.
  - intros Hbig. unfold smooth_exact_curve, grid_step.
    rewrite float_of_int_overflow by assumption. reflexivity.
  - intros Hsmall e. unfold smooth_exact_curve.
    rewrite grid_step_below by lia. unfold_bind. intros Hr.
    apply sample_loop_raise_origin in Hr; try lia.
    destruct Hr as (j & Hj & Hg).
    exists (Z.of_nat j). split; [lia|exact Hg].
Qed.

Lemma smooth_exact_curve_own_exceptions_witness :
  smooth_exact_curve pole_at_four 2 10 (2 ^ 1024) = Raise OverflowError
  /\ exists i, 0 <= i < clamp_points 5
       /\ pole_at_four (grid_time 2 10 (clamp_points 5) i) = Raise ZeroDivisionError.
Proof.
  split.
  - apply (proj1 (smooth_exact_curve_own_exceptions pole_at_four 2 10 (2 ^ 1024))).
    vm_compute. discriminate.
  - apply (proj2 (smooth_exact_curve_own_exceptions pole_at_four 2 10 5)).
    + vm_compute. reflexivity.
    + reflexivity.
Defined.

(** ** The error analyzer: lists of different lengths *)

Section AnalyzerBounds.
Variable g : float -> result float.

(** With [y_values] at least as long as [t_values], the loop returns, having
    compared every [t], or raises what [g] raised at one of them. *)
Lemma max_error_loop_outcome ts :
  forall ys m c,
    (length ts <= length ys)%nat ->
    (exists m', max_error_loop g ts ys m c = Return (m', c + Z.of_nat (length ts))
       /\ forall t, In t ts -> succeeds (g t) = true)
    \/ (exists e t, In t ts /\ g t = Raise e /\ max_error_loop g ts ys m c = Raise e).
Proof.
  induction ts as [|t ts IH]; intros ys m c Hlen; cbn [max_error_loop].
  - left. exists m. split; [f_equal; f_equal; cbn; lia|]. intros t [].
  - destruct ys as [|y_e ys]; [cbn in Hlen; lia|]. unfold_bind.
    destruct (g t) as [y_true|e] eqn:Hg.
    + destruct (IH ys (update_max m (abs_error y_e y_true)) (c + 1))
        as [(m' & Hr & Hok)|(e & t' & Hin & Hge & Hr)]; [cbn in Hlen; lia| |].
      * left. exists m'. split.
        -- rewrite Hr. f_equal. f_equal. cbn [length]. lia.
        -- intros t' [<-|Hin]; [rewrite Hg; reflexivity|apply Hok, Hin].
      * right. exists e, t'. split; [right; exact Hin|]. split; assumption.
    + right. exists e, t. split; [left; reflexivity|]. split; [exact Hg|reflexivity].
Qed.

(** With [y_values] the shorter list, [y_values[i]] raises [IndexError] at
    its length, unless [g] has raised before. *)
Lemma max_error_loop_short ts :
  forall ys m c,
    (length ys < length ts)%nat ->
    (forall j, (j < length ys)%nat -> succeeds (g (List.nth j ts 0%float)) = true) ->
    max_error_loop g ts ys m c = Raise IndexError.
Proof.
  induction ts as [|t ts IH]; intros ys m c Hlen Hok; [cbn in Hlen; lia|].
  cbn [max_error_loop]. destruct ys as [|y_e ys]; [reflexivity|]. unfold_bind.
  pose proof (Hok O ltac:(cbn; lia)) as H0. cbn in H0.
  destruct (g t) as [y_true|e]; [|discriminate].
  apply IH; [cbn in Hlen; lia|].
  intros j Hj. apply (Hok (S j)). cbn. lia.
Qed.

(** The values of [y_values] past the length of [t_values] are never
    read. *)
Lemma max_error_loop_ignores_rest ts :
  forall ys m c,
    (length ts <= length ys)%nat ->
    max_error_loop g ts ys m c = max_error_loop g ts (firstn (length ts) ys) m c.
Proof.
  induction ts as [|t ts IH]; intros ys m c Hlen; [reflexivity|].
  destruct ys as [|y_e ys]; [cbn in Hlen; lia|].
  cbn [max_error_loop length firstn]. unfold_bind.
  destruct (g t) as [y_true|e]; [|reflexivity].
  apply IH. cbn in Hlen. lia.
Qed.

(** The running maximum is a number that is not negative, whatever the
    errors are: one that is not a number is skipped. *)
Lemma update_max_not_negative m e :
  PrimFloat.is_nan m = false -> (m <? 0)%float = false ->
  PrimFloat.is_nan (update_max m e) = false /\ (update_max m e <? 0)%float = false.
Proof.
  intros Hnan Hneg. split; [apply FloatMax.update_max_not_nan; exact Hnan|].
  unfold update_max. destruct (m <? e)%float eqn:Hlt; [|exact Hneg].
  destruct (e <? 0)%float eqn:He; [|reflexivity].
  rewrite (FloatOrder.ltb_trans _ _ _ Hlt He) in Hneg. discriminate.
Qed.

Lemma max_error_loop_not_negative ts :
  forall ys m c m' c',
    PrimFloat.is_nan m = false -> (m <? 0)%float = false ->
    max_error_loop g ts ys m c = Return (m', c') ->
    PrimFloat.is_nan m' = false /\ (m' <? 0)%float = false
    /\ c' = c + Z.of_nat (length ts).
Proof.
  induction ts as [|t ts IH]; intros ys m c m' c' Hnan Hneg; cbn [max_error_loop].
  - intros [= <- <-]. cbn. split; [exact Hnan|]. split; [exact Hneg|lia].
  - destruct ys as [|y_e ys]; [discriminate|]. unfold_bind.
    destruct (g t) as [y_true|e]; [|discriminate].
    intros Hr.
    destruct (update_max_not_negative m (abs_error y_e y_true) Hnan Hneg) as [Hnan' Hneg'].
    destruct (IH _ _ _ _ _ Hnan' Hneg' Hr) as (H1 & H2 & H3).
    split; [exact H1|]. split; [exact H2|]. cbn [length]. lia.
Qed.
End AnalyzerBounds.

(** X8: [compute_max_error] with lists of different lengths.  When
    [y_values] is the shorter one and [g] returns at the first
    [len(y_values)] values of [t], the call raises [IndexError]; when it is
    the longer one, its values past [len(t_values)] are never read. *)
Theorem compute_max_error_length_mismatch g t_values y_values :
  ((length y_values < length t_values)%nat ->
   (forall j, (j < length y_values)%nat ->
      succeeds (g (List.nth j t_values 0%float)) = true) ->
   compute_max_error g t_values y_values = Raise IndexError)
  /\ ((length t_values <= length y_values)%nat ->
      compute_max_error g t_values y_values
      = compute_max_error g t_values (firstn (length t_values) y_values)).
Proof.
  split.
  - intros Hlen Hok. apply max_error_loop_short; assumption.
  - intros Hlen. apply max_error_loop_ignores_rest; assumption.
Qed.

Lemma compute_max_error_length_mismatch_witness :
  compute_max_error (total_curve (fun t => t)) [0; 1; 2]%float [1; 2]%float
  = Raise IndexError
  /\ compute_max_error (total_curve (fun t => t)) [0; 1]%float [1; 2; 7]%float
     = compute_max_error (total_curve (fun t => t)) [0; 1]%float
         (firstn (length [0; 1]%float) [1; 2; 7]%float).
Proof.
  split.
  - apply (proj1 (compute_max_error_length_mismatch (total_curve (fun t => t))
                    [0; 1; 2]%float [1; 2]%float)).
    + cbn. lia.
    + intros j Hj. reflexivity.
  - apply (proj2 (compute_max_error_length_mismatch (total_curve (fun t => t))
                    [0; 1]%float [1; 2; 7]%float)).
    cbn. lia.
Defined.

(** X9: what [compute_max_error] returns is never [nan] and never negative,
    even when some of the errors are not numbers (they are skipped by
    [err > max_err]), and the count is [len(t_values)]; on empty lists it is
    [(0.0, 0)]. *)
Theorem compute_max_error_result_is_a_number g t_values y_values max_err compared :
  compute_max_error g t_values y_values = Return (max_err, compared) ->
  PrimFloat.is_nan max_err = false
  /\ (max_err <? 0)%float = false
  /\ compared = Z.of_nat (length t_values)
  /\ (t_values = [] -> max_err = 0%float).
Proof.
  intros Hr.
  destruct (max_error_loop_not_negative g t_values y_values 0%float 0 max_err compared
              eq_refl eq_refl Hr) as (H1 & H2 & H3).
  split; [exact H1|]. split; [exact H2|]. split; [lia|].
  intros ->. cbn in Hr. congruence.
Qed.

Lemma compute_max_error_result_is_a_number_witness :
  PrimFloat.is_nan 0%float = false
  /\ (0 <? 0)%float = false
  /\ 2 = Z.of_nat (length [0; 1]%float)
  /\ ([0; 1]%float = [] -> 0%float = 0%float).
Proof.
  apply (compute_max_error_result_is_a_number (total_curve (fun _ => nan))
           [0; 1]%float [1; 2]%float 0%float 2).
  reflexivity.
Defined.

(** X10: [compute_max_error] on what [euler_method] returns never raises
    [IndexError] of its own, the two lists having one length: it returns,
    with every point compared, when [g] returns at every [t] of the
    trajectory, and otherwise raises what [g] raised at one of them. *)
Theorem compute_max_error_of_trajectory f g t0 y0 t_end delta_t fuel r :
  euler_method fuel f t0 y0 t_end delta_t = Some r ->
  (exists max_err,
      compute_max_error g (t_values r) (y_values r)
      = Return (max_err, Z.of_nat (length (trajectory r)))
      /\ forall t, In t (t_values r) -> succeeds (g t) = true)
  \/ (exists e t, In t (t_values r) /\ g t = Raise e
        /\ compute_max_error g (t_values r) (y_values r) = Raise e).
Proof.
  intros Hr. unfold euler_method in Hr.
  destruct (euler_loop_extends f t_end delta_t fuel t0 y0 [t0] [y0] r Hr)
    as (tv & yv & Ht & Hy & Hlen).
  assert (Hsame : length (t_values r) = length (y_values r))
    by (rewrite Ht, Hy, !length_app, Hlen; reflexivity).
  unfold trajectory. rewrite length_combine, <- Hsame, Nat.min_id.
  apply (max_error_loop_outcome g (t_values r) (y_values r) 0%float 0). lia.
Qed.

Lemma compute_max_error_of_trajectory_witness :
  (exists max_err,
      compute_max_error pole_at_four [0; 0.5; 1]%float [1; 1.5; 2.25]%float
      = Return (max_err,
                Z.of_nat (length (trajectory
                  (EulerOutput [0; 0.5; 1]%float [1; 1.5; 2.25]%float
                     [ErrorEvaluatingF 2.25 1; ReprOf ValueError; StoppingEarly]))))
      /\ forall t, In t [0; 0.5; 1]%float -> succeeds (pole_at_four t) = true)
  \/ (exists e t, In t [0; 0.5; 1]%float /\ pole_at_four t = Raise e
        /\ compute_max_error pole_at_four [0; 0.5; 1]%float [1; 1.5; 2.25]%float = Raise e).
Proof.
  apply (compute_max_error_of_trajectory fails_from_one pole_at_four 0 1 5 0.5 10%nat
           (EulerOutput [0; 0.5; 1] [1; 1.5; 2.25]
              [ErrorEvaluatingF 2.25 1; ReprOf ValueError; StoppingEarly]))%float.
  reflexivity.
Defined.

(** ** The table *)

(** The rows of a loop that stays inside both lists: the points from [i]
    on. *)
Lemma table_rows_inside ts ys remaining :
  forall i,
    (i + remaining <= length ts)%nat -> (i + remaining <= length ys)%nat ->
    table_rows ts ys remaining i
    = (map row_of (firstn remaining (skipn i (combine ts ys))), Return tt).
Proof.
  induction remaining as [|remaining IH]; intros i Ht Hy; [reflexivity|].
  cbn [table_rows].
  destruct (nth_error ts i) as [t|] eqn:Hti;
    [|apply nth_error_None in Hti; lia].
  destruct (nth_error ys i) as [y|] eqn:Hyi;
    [|apply nth_error_None in Hyi; lia].
  rewrite IH by lia.
  assert (Hsk : skipn i (combine ts ys) = (t, y) :: skipn (S i) (combine ts ys)).
  { clear IH. revert ys i Ht Hy Hti Hyi.
    induction ts as [|t' ts IHts]; intros ys i Ht Hy Hti Hyi; [destruct i; discriminate|].
    destruct ys as [|y' ys]; [destruct i; discriminate|].
    destruct i as [|i].
    - cbn in Hti, Hyi. injection Hti as ->. injection Hyi as ->. reflexivity.
    - cbn [combine skipn]. apply IHts; cbn in *; try lia; assumption. }
  rewrite Hsk. reflexivity.
Qed.

(** The rows of a loop that runs past the end of [y_values]: the points
    that exist, then [IndexError]. *)
Lemma table_rows_short ts ys remaining :
  forall i,
    (i + remaining <= length ts)%nat -> (i <= length ys < i + remaining)%nat ->
    table_rows ts ys remaining i
    = (map row_of (skipn i (combine ts ys)), Raise IndexError).
Proof.
  induction remaining as [|remaining IH]; intros i Ht Hy; [lia|].
  cbn [table_rows].
  destruct (nth_error ts i) as [t|] eqn:Hti;
    [|apply nth_error_None in Hti; lia].
  destruct (nth_error ys i) as [y|] eqn:Hyi.
  - assert (Hi : (i < length ys)%nat) by (apply nth_error_Some; congruence).
    rewrite IH by lia.
    assert (Hsk : skipn i (combine ts ys) = (t, y) :: skipn (S i) (combine ts ys)).
    { clear IH Hy Ht Hi. revert ys i Hti Hyi.
      induction ts as [|t' ts IHts]; intros ys i Hti Hyi; [destruct i; discriminate|].
      destruct ys as [|y' ys]; [destruct i; discriminate|].
      destruct i as [|i].
      - cbn in Hti, Hyi. injection Hti as ->. injection Hyi as ->. reflexivity.
      - cbn [combine skipn]. apply IHts; assumption. }
    rewrite Hsk. reflexivity.
  - apply nth_error_None in Hyi.
    rewrite skipn_all2; [reflexivity|]. rewrite length_combine. lia.
Qed.

(** The table when no index is out of range. *)
Lemma print_sample_table_returns t_values y_values count :
  (length t_values <= length y_values)%nat ->
  print_sample_table t_values y_values count
  = ([BlankLine; TableTitle; TableHeader; TableRule]
       ++ map row_of (firstn (Z.to_nat count) (combine t_values y_values))
       ++ (if count <? Z.of_nat (length t_values)
           then [MorePoints (Z.of_nat (length t_values) - count)] else []),
     Return tt).
Proof.
  intros Hlen.
  assert (Hpts : length (combine t_values y_values) = length t_values)
    by (rewrite length_combine; lia).
  unfold print_sample_table. cbv zeta.
  destruct (Z.ltb_spec (Z.of_nat (length t_values)) count) as [Hbig|Hsmall].
  - assert (H1 : (0 + Z.to_nat (Z.of_nat (length t_values)) <= length t_values)%nat) by lia.
    assert (H2 : (0 + Z.to_nat (Z.of_nat (length t_values)) <= length y_values)%nat) by lia.
    rewrite (table_rows_inside t_values y_values _ 0%nat H1 H2), List.skipn_O.
    rewrite Z.ltb_irrefl.
    destruct (Z.ltb_spec count (Z.of_nat (length t_values))); [lia|].
    rewrite (firstn_all2 (n := Z.to_nat count)) by lia.
    rewrite (firstn_all2 (n := Z.to_nat (Z.of_nat (length t_values)))) by lia.
    reflexivity.
  - rewrite table_rows_inside, List.skipn_O by lia. reflexivity.
Qed.

(** X11: the table of [print_sample_table] when [y_values] is at least as long
    as [t_values]: after the four lines of the heading come the rows of the
    first [count] points, all of them when there are fewer, then the line
    that counts the points not shown when there are more than [count].  With
    [count >= 0] every point is shown or counted; with [count < 0] no row is
    printed and the last line counts [n - count] points, more than there
    are. *)
Theorem print_sample_table_rows t_values y_values count :
  (length t_values <= length y_values)%nat ->
  let n := Z.of_nat (length t_values) in
  let points := combine t_values y_values in
  exists rows more,
    print_sample_table t_values y_values count
    = ([BlankLine; TableTitle; TableHeader; TableRule] ++ rows ++ more, Return tt)
    /\ rows = map row_of (firstn (Z.to_nat count) points)
    /\ more = (if count <? n then [MorePoints (n - count)] else [])
    /\ (0 <= count -> n <= count -> Z.of_nat (length rows) = n /\ more = [])
    /\ (0 <= count < n ->
        Z.of_nat (length rows) = count /\ more = [MorePoints (n - Z.of_nat (length rows))])
    /\ (count < 0 -> rows = [] /\ more = [MorePoints (n - count)] /\ n < n - count).
Proof.
  intros Hlen. cbv zeta.
  assert (Hpts : length (combine t_values y_values) = length t_values)
    by (rewrite length_combine; lia).
  eexists _, _.
  split; [apply print_sample_table_returns; exact Hlen|].
  split; [reflexivity|]. split; [reflexivity|].
  rewrite length_map, length_firstn, Hpts.
  split; [|split].
  - intros H0 Hn. destruct (Z.ltb_spec count (Z.of_nat (length t_values))); [lia|].
    split; [lia|reflexivity].
  - intros Hc. destruct (Z.ltb_spec count (Z.of_nat (length t_values))); [|lia].
    split; [lia|]. do 2 f_equal. lia.
  - intros Hc. destruct (Z.ltb_spec count (Z.of_nat (length t_values))); [|lia].
    replace (Z.to_nat count) with O by lia. split; [reflexivity|]. split; [reflexivity|lia].
Qed.

Lemma print_sample_table_rows_witness :
  exists rows more,
    print_sample_table [0; 0.5; 1]%float [1; 1.5; 2.25]%float 2
    = ([BlankLine; TableTitle; TableHeader; TableRule] ++ rows ++ more, Return tt)
    /\ rows = map row_of (firstn (Z.to_nat 2)
                (combine [0; 0.5; 1]%float [1; 1.5; 2.25]%float))
    /\ more = (if 2 <? Z.of_nat (length [0; 0.5; 1]%float)
               then [MorePoints (Z.of_nat (length [0; 0.5; 1]%float) - 2)] else [])
    /\ (0 <= 2 -> Z.of_nat (length [0; 0.5; 1]%float) <= 2 ->
        Z.of_nat (length rows) = Z.of_nat (length [0; 0.5; 1]%float) /\ more = [])
    /\ (0 <= 2 < Z.of_nat (length [0; 0.5; 1]%float) ->
        Z.of_nat (length rows) = 2
        /\ more = [MorePoints (Z.of_nat (length [0; 0.5; 1]%float) - Z.of_nat (length rows))])
    /\ (2 < 0 -> rows = [] /\ more = [MorePoints (Z.of_nat (length [0; 0.5; 1]%float) - 2)]
                 /\ Z.of_nat (length [0; 0.5; 1]%float)
                    < Z.of_nat (length [0; 0.5; 1]%float) - 2).
Proof.
  apply (print_sample_table_rows [0; 0.5; 1]%float [1; 1.5; 2.25]%float 2).
  cbn. lia.
Defined.

(** X12: when the loop of [print_sample_table] runs past the end of
    [y_values], the heading and a row for each value of [y_values] are
    printed, then [y_values[i]] raises [IndexError]: the line that counts the
    points not shown is not printed. *)
Theorem print_sample_table_short_y_values t_values y_values count :
  (length y_values < length t_values)%nat ->
  Z.of_nat (length y_values) < count ->
  print_sample_table t_values y_values count
  = ([BlankLine; TableTitle; TableHeader; TableRule]
       ++ map row_of (combine t_values y_values),
     Raise IndexError).
Proof.
  intros Hlen Hcount. unfold print_sample_table. cbv zeta.
  set (n := Z.of_nat (length t_values)).
  assert (Hrows : table_rows t_values y_values
                    (Z.to_nat (if n <? count then n else count)) 0
                  = (map row_of (skipn 0 (combine t_values y_values)), Raise IndexError)).
  { apply table_rows_short; destruct (Z.ltb_spec n count); unfold n in *; lia. }
  rewrite Hrows, List.skipn_O. reflexivity.
Qed.

Lemma print_sample_table_short_y_values_witness :
  print_sample_table [0; 0.5; 1]%float [1; 1.5]%float 10
  = ([BlankLine; TableTitle; TableHeader; TableRule]
       ++ map row_of (combine [0; 0.5; 1]%float [1; 1.5]%float),
     Raise IndexError).
Proof.
  apply (print_sample_table_short_y_values [0; 0.5; 1]%float [1; 1.5]%float 10);
    cbn; lia.
Defined.

(** X13: the table of a trajectory that [euler_method] returned is always
    printed to its end: the two lists have one length, so no index is out of
    range. *)
Theorem print_sample_table_of_trajectory f t0 y0 t_end delta_t fuel r count :
  euler_method fuel f t0 y0 t_end delta_t = Some r ->
  exists lines,
    print_sample_table (t_values r) (y_values r) count = (lines, Return tt)
    /\ (0 < count -> List.nth 4 lines BlankLine = TableRow t0 y0).
Proof.
  intros Hr. unfold euler_method in Hr.
  destruct (euler_loop_extends f t_end delta_t fuel t0 y0 [t0] [y0] r Hr)
    as (tv & yv & Ht & Hy & Hlen).
  assert (Hsame : (length (t_values r) <= length (y_values r))%nat)
    by (rewrite Ht, Hy, !length_app, Hlen; cbn; lia).
  rewrite (print_sample_table_returns _ _ count Hsame).
  eexists. split; [reflexivity|].
  intros Hc. rewrite Ht, Hy. cbn [app combine].
  destruct (Z.to_nat count) as [|k] eqn:Hk; [lia|]. reflexivity.
Qed.

Lemma print_sample_table_of_trajectory_witness :
  exists lines,
    print_sample_table [0; 0.5; 1]%float [1; 1.5; 2.25]%float 10 = (lines, Return tt)
    /\ (0 < 10 -> List.nth 4 lines BlankLine = TableRow 0 1).
Proof.
  apply (print_sample_table_of_trajectory fails_from_one 0 1 5 0.5 10%nat
           (EulerOutput [0; 0.5; 1] [1; 1.5; 2.25]
              [ErrorEvaluatingF 2.25 1; ReprOf ValueError; StoppingEarly]) 10)%float.
  reflexivity.
Defined.

(** ** The prompts *)

Ltac unfold_io :=
  unfold mbind, io_bind, mret, io_ret, write, write_all, fail, still_running, input in *.

Section PromptFacts.
Variables code E : Type.
Variable compile : string -> string -> code + E.
Variable strip : string -> string.
Variable float_of_str : string -> option float.

Lemma not_a_number_test allow_empty l :
  not_a_number strip float_of_str allow_empty l -> String.eqb (strip l) "" && allow_empty = false.
Proof.
  intros [_ Hne]. destruct allow_empty; [|apply andb_false_r].
  rewrite andb_true_r. apply String.eqb_neq. auto.
Qed.

(** The loop goes through the lines it does not accept, one iteration
    each. *)
Lemma prompt_float_skips prompt_text allow_empty default_value rejected :
  Forall (not_a_number strip float_of_str allow_empty) rejected ->
  forall fuel stdin,
    prompt_float E strip float_of_str (length rejected + fuel) prompt_text allow_empty
      default_value (rejected ++ stdin)
    = match prompt_float E strip float_of_str fuel prompt_text allow_empty
              default_value stdin with
      | None => None
      | Some (r, rest, out) => Some (r, rest, asked_again E prompt_text rejected ++ out)
      end.
Proof.
  induction 1 as [|l rejected Hl Hrej IH]; intros fuel stdin.
  - cbn. destruct (prompt_float _ _ _ _ _ _ _ _) as [[[r rest] out]|]; reflexivity.
  - cbn [length Nat.add app prompt_float]. unfold_io.
    rewrite (not_a_number_test _ _ Hl). destruct Hl as [-> _].
    fold (prompt_float E strip float_of_str). rewrite IH.
    destruct (prompt_float _ _ _ _ _ _ _ _) as [[[r rest] out]|]; reflexivity.
Qed.

(** An answer of [prompt_float] comes from the last line it read. *)
Lemma prompt_float_progress prompt_text allow_empty default_value fuel :
  forall stdin v rest out,
    prompt_float E strip float_of_str fuel prompt_text allow_empty default_value stdin
    = Some (Done v, rest, out) ->
    exists used l,
      stdin = used ++ l :: rest
      /\ (float_of_str (strip l) = Some v
          \/ (allow_empty = true /\ strip l = "" /\ default_value = Some v)).
Proof.
  induction fuel as [|fuel IH]; intros stdin v rest out; [discriminate|].
  cbn [prompt_float]. unfold_io. destruct stdin as [|l stdin]; [discriminate|].
  destruct (String.eqb (strip l) "" && allow_empty) eqn:Htest.
  - destruct default_value as [d|]; [|discriminate].
    intros [= <- <- <-]. exists [], l. split; [reflexivity|]. right.
    apply andb_true_iff in Htest as [Hempty ->]. apply String.eqb_eq in Hempty.
    repeat split; assumption.
  - destruct (float_of_str (strip l)) as [x|] eqn:Hx.
    + intros [= <- <- <-]. exists [], l. split; [reflexivity|]. left. exact Hx.
    + fold (prompt_float E strip float_of_str).
      destruct (prompt_float _ _ _ _ _ _ _ stdin) as [[[r rest'] out']|] eqn:Hrec;
        [|discriminate].
      destruct r as [v'|e]; intros [= <- <- <-].
      destruct (IH _ _ _ _ Hrec) as (used & l' & -> & Hl').
      exists (l :: used), l'. split; [reflexivity|exact Hl'].
Qed.

(** With more iterations allowed than lines to read, [prompt_float] ends. *)
Lemma prompt_float_terminates prompt_text allow_empty default_value fuel :
  forall stdin,
    (length stdin < fuel)%nat ->
    exists r,
      prompt_float E strip float_of_str fuel prompt_text allow_empty default_value stdin
      = Some r.
Proof.
  induction fuel as [|fuel IH]; intros stdin Hlen; [lia|].
  cbn [prompt_float]. unfold_io. destruct stdin as [|l stdin]; [eauto|].
  destruct (String.eqb (strip l) "" && allow_empty).
  - destruct default_value; eauto.
  - destruct (float_of_str (strip l)); [eauto|].
    fold (prompt_float E strip float_of_str).
    destruct (IH stdin ltac:(cbn in Hlen; lia)) as ([[r rest] out] & ->).
    destruct r; eauto.
Qed.

(** An answer of [prompt_positive_float] is the number on the last line
    read, and it passed the test [value <= 0.0]. *)
Lemma prompt_positive_float_answer prompt_text fuel :
  forall stdin v rest out,
    prompt_positive_float E strip float_of_str fuel prompt_text stdin
    = Some (Done v, rest, out) ->
    (v <=? 0)%float = false
    /\ exists used l, stdin = used ++ l :: rest /\ float_of_str (strip l) = Some v.
Proof.
  induction fuel as [|fuel IH]; intros stdin v rest out; [discriminate|].
  cbn [prompt_positive_float]. unfold mbind, io_bind.
  destruct (prompt_float _ _ _ _ _ _ _ stdin) as [[[r rest'] out']|] eqn:Hpf;
    [|discriminate].
  destruct r as [value|e]; [|discriminate].
  destruct (prompt_float_progress _ _ _ _ _ _ _ _ Hpf) as (used & l & -> & Hl).
  destruct Hl as [Hl|[Hae _]]; [|discriminate].
  destruct (value <=? 0)%float eqn:Htest.
  - unfold_io.
    destruct (prompt_positive_float _ _ _ _ _ rest') as [[[r2 rest2] out2]|] eqn:Hrec;
      [|discriminate].
    destruct r2 as [v2|e2]; intros [= <- <- <-].
    destruct (IH _ _ _ _ Hrec) as (Hv & used2 & l2 & -> & Hl2).
    split; [exact Hv|].
    exists (used ++ l :: used2), l2. split; [|exact Hl2].
    rewrite <- app_assoc. reflexivity.
  - unfold_io. intros [= <- <- <-].
    split; [exact Htest|]. exists used, l. split; [reflexivity|exact Hl].
Qed.

Lemma prompt_positive_float_terminates prompt_text fuel :
  forall stdin,
    (length stdin < fuel)%nat ->
    exists r, prompt_positive_float E strip float_of_str fuel prompt_text stdin = Some r.
Proof.
  induction fuel as [|fuel IH]; intros stdin Hlen; [lia|].
  cbn [prompt_positive_float]. unfold mbind, io_bind.
  destruct (prompt_float_terminates prompt_text false None (S fuel) stdin Hlen)
    as ([[r rest] out] & Hpf).
  rewrite Hpf. destruct r as [value|e]; [|eauto].
  destruct (prompt_float_progress _ _ _ _ _ _ _ _ Hpf) as (used & l & -> & _).
  rewrite length_app in Hlen. cbn [length] in Hlen.
  destruct (value <=? 0)%float.
  - unfold_io. destruct (IH rest ltac:(lia)) as ([[r2 rest2] out2] & ->). eauto.
  - unfold_io. eauto.
Qed.

(** What [prompt_expression] returns is the last line it read, stripped; it
    is not empty and [compile] accepted it. *)
Lemma prompt_expression_answer name var_hint fuel :
  forall stdin c text rest out,
    prompt_expression code E compile strip fuel name var_hint stdin
    = Some (Done (c, text), rest, out) ->
    text <> ""
    /\ compile text ("<user " +:+ name +:+ ">") = inl c
    /\ exists used l, stdin = used ++ l :: rest /\ text = strip l.
Proof.
  induction fuel as [|fuel IH]; intros stdin c text rest out; [discriminate|].
  cbn [prompt_expression]. unfold_io. destruct stdin as [|l stdin]; [discriminate|].
  destruct (String.eqb (strip l) "") eqn:Hempty.
  - fold (prompt_expression code E compile strip).
    destruct (prompt_expression _ _ _ _ _ _ _ stdin) as [[[r rest'] out']|] eqn:Hrec;
      [|discriminate].
    destruct r as [[c' text']|e]; intros [= <- <- <- <-].
    destruct (IH _ _ _ _ _ Hrec) as (H1 & H2 & used & l' & -> & Hl').
    split; [exact H1|]. split; [exact H2|].
    exists (l :: used), l'. split; [reflexivity|exact Hl'].
  - destruct (compile (strip l) _) as [c'|e] eqn:Hc.
    + intros [= <- <- <- <-]. apply String.eqb_neq in Hempty.
      split; [exact Hempty|]. split; [exact Hc|].
      exists [], l. split; reflexivity.
    + fold (prompt_expression code E compile strip).
      destruct (prompt_expression _ _ _ _ _ _ _ stdin) as [[[r rest'] out']|] eqn:Hrec;
        [|discriminate].
      destruct r as [[c' text']|e']; intros [= <- <- <- <-].
      destruct (IH _ _ _ _ _ Hrec) as (H1 & H2 & used & l' & -> & Hl').
      split; [exact H1|]. split; [exact H2|].
      exists (l :: used), l'. split; [reflexivity|exact Hl'].
Qed.

(** [prompt_expression] ends, and fails at the end of the input only. *)
Lemma prompt_expression_terminates name var_hint fuel :
  forall stdin,
    (length stdin < fuel)%nat ->
    exists r rest out,
      prompt_expression code E compile strip fuel name var_hint stdin
      = Some (r, rest, out)
      /\ match r with
         | Done _ => True
         | Failed e => e = EOFError /\ rest = []
         end.
Proof.
  induction fuel as [|fuel IH]; intros stdin Hlen; [lia|].
  cbn [prompt_expression]. unfold_io. destruct stdin as [|l stdin].
  - eexists _, _, _. split; [reflexivity|]. split; reflexivity.
  - destruct (String.eqb (strip l) "").
    + fold (prompt_expression code E compile strip).
      destruct (IH stdin ltac:(cbn in Hlen; lia)) as (r & rest & out & -> & Hr).
      destruct r; eexists _, _, _; (split; [reflexivity|exact Hr]).
    + destruct (compile (strip l) _) as [c|e].
      * eexists _, _, _. split; [reflexivity|exact I].
      * fold (prompt_expression code E compile strip).
        destruct (IH stdin ltac:(cbn in Hlen; lia)) as (r & rest & out & -> & Hr).
        destruct r; eexists _, _, _; (split; [reflexivity|exact Hr]).
Qed.
End PromptFacts.

(** ** The prompts of [main] *)

Lemma plotted_app {E} (a b : list (output E)) : plotted (a ++ b) = plotted a ++ plotted b.
Proof. apply flat_map_app. Qed.

(** How a sequence of two programs ends. *)
Lemma io_bind_Some {E A B} (m : io E A) (k : A -> io E B) stdin r rest out :
  mbind k m stdin = Some (r, rest, out) ->
  (exists e, m stdin = Some (Failed e, rest, out) /\ r = Failed e)
  \/ (exists a rest1 out1 out2,
        m stdin = Some (Done a, rest1, out1)
        /\ k a rest1 = Some (r, rest, out2)
        /\ out = out1 ++ out2).
Proof.
  unfold mbind, io_bind.
  destruct (m stdin) as [[[[a|e] rest1] out1]|]; [| |discriminate].
  - destruct (k a rest1) as [[[r2 rest2] out2]|] eqn:Hk; [|discriminate].
    intros [= <- <- <-]. right. exists a, rest1, out1, out2. auto.
  - intros [= <- <- <-]. left. eauto.
Qed.

Lemma write_Some {E} (o : output E) stdin r rest out :
  write o stdin = Some (r, rest, out) -> r = Done tt /\ rest = stdin /\ out = [o].
Proof. unfold write. intros [= <- <- <-]. auto. Qed.

Section MainFacts.
Variables code E : Type.
Variable compile : string -> string -> code + E.
Variable strip : string -> string.
Variable float_of_str : string -> option float.

(** The prompts write texts only, and stop at the end of the input only. *)
Lemma prompt_float_end prompt_text allow_empty default_value fuel :
  forall stdin r rest out,
    prompt_float E strip float_of_str fuel prompt_text allow_empty default_value stdin
    = Some (r, rest, out) ->
    plotted out = []
    /\ forall e, r = Failed e ->
         (e = EOFError /\ rest = [])
         \/ (allow_empty = true /\ default_value = None /\ e = Uncaught TypeError).
Proof.
  induction fuel as [|fuel IH]; intros stdin r rest out; [discriminate|].
  cbn [prompt_float]. unfold_io. destruct stdin as [|l stdin].
  - intros [= <- <- <-]. split; [reflexivity|]. intros e [= <-]. left. auto.
  - destruct (String.eqb (strip l) "" && allow_empty) eqn:Htest.
    + apply andb_true_iff in Htest as [_ ->].
      destruct default_value as [d|]; intros [= <- <- <-]; (split; [reflexivity|]).
      * intros e [=].
      * intros e [= <-]. right. auto.
    + destruct (float_of_str (strip l)).
      * intros [= <- <- <-]. split; [reflexivity|]. intros e [=].
      * fold (prompt_float E strip float_of_str).
        destruct (prompt_float _ _ _ _ _ _ _ stdin) as [[[r' rest'] out']|] eqn:Hrec;
          [|discriminate].
        destruct (IH _ _ _ _ Hrec) as [Hp Hf].
        destruct r' as [v|e']; intros [= <- <- <-]; (split; [exact Hp|]).
        -- intros e [=].
        -- exact Hf.
Qed.

Lemma prompt_positive_float_end prompt_text fuel :
  forall stdin r rest out,
    prompt_positive_float E strip float_of_str fuel prompt_text stdin
    = Some (r, rest, out) ->
    plotted out = [] /\ forall e, r = Failed e -> e = EOFError /\ rest = [].
Proof.
  induction fuel as [|fuel IH]; intros stdin r rest out; [discriminate|].
  cbn [prompt_positive_float]. intros H.
  apply io_bind_Some in H as [(e & Hm & ->)|(v & rest1 & out1 & out2 & Hm & H & ->)];
    destruct (prompt_float_end _ _ _ _ _ _ _ _ Hm) as [Hp Hf].
  - split; [exact Hp|]. intros e' [= <-].
    destruct (Hf e eq_refl) as [?|(? & _)]; [assumption|discriminate].
  - rewrite plotted_app, Hp. destruct (v <=? 0)%float.
    + apply io_bind_Some in H as [(e & Hw & ->)|(u & rest2 & out3 & out4 & Hw & H & ->)];
        apply write_Some in Hw as (Hr & -> & ->); [discriminate|].
      destruct (IH _ _ _ _ H) as [Hp' Hf']. split; [exact Hp'|exact Hf'].
    + unfold mret, io_ret in H. injection H as <- <- <-.
      split; [reflexivity|]. intros e [=].
Qed.

Lemma prompt_t_end_end t0 fuel :
  forall stdin r rest out,
    prompt_t_end E strip float_of_str fuel t0 stdin = Some (r, rest, out) ->
    plotted out = []
    /\ (forall e, r = Failed e -> e = EOFError /\ rest = [])
    /\ (forall t_end, r = Done t_end -> (t_end <=? t0)%float = false).
Proof.
  induction fuel as [|fuel IH]; intros stdin r rest out; [discriminate|].
  cbn [prompt_t_end]. intros H.
  apply io_bind_Some in H as [(e & Hm & ->)|(v & rest1 & out1 & out2 & Hm & H & ->)];
    destruct (prompt_float_end _ _ _ _ _ _ _ _ Hm) as [Hp Hf].
  - split; [exact Hp|]. split; [|intros t [=]]. intros e' [= <-].
    destruct (Hf e eq_refl) as [?|(? & _)]; [assumption|discriminate].
  - rewrite plotted_app, Hp. destruct (v <=? t0)%float eqn:Htest.
    + apply io_bind_Some in H as [(e & Hw & ->)|(u & rest2 & out3 & out4 & Hw & H & ->)];
        apply write_Some in Hw as (Hr & -> & ->); [discriminate|].
      destruct (IH _ _ _ _ H) as (Hp' & Hf' & Hd'). auto.
    + unfold mret, io_ret in H. injection H as <- <- <-.
      split; [reflexivity|]. split; [intros e [=]|]. intros t [= <-]. exact Htest.
Qed.

Lemma prompt_expression_end name var_hint fuel :
  forall stdin r rest out,
    prompt_expression code E compile strip fuel name var_hint stdin
    = Some (r, rest, out) ->
    plotted out = [] /\ forall e, r = Failed e -> e = EOFError /\ rest = [].
Proof.
  induction fuel as [|fuel IH]; intros stdin r rest out; [discriminate|].
  cbn [prompt_expression]. unfold_io. destruct stdin as [|l stdin].
  - intros [= <- <- <-]. split; [reflexivity|]. intros e [= <-]. auto.
  - destruct (String.eqb (strip l) "").
    + fold (prompt_expression code E compile strip).
      destruct (prompt_expression _ _ _ _ _ _ _ stdin) as [[[r' rest'] out']|] eqn:Hrec;
        [|discriminate].
      destruct (IH _ _ _ _ Hrec) as [Hp Hf].
      destruct r' as [v|e']; intros [= <- <- <-]; (split; [exact Hp|]).
      * intros e [=].
      * exact Hf.
    + destruct (compile (strip l) _) as [c|e0].
      * intros [= <- <- <-]. split; [reflexivity|]. intros e [=].
      * fold (prompt_expression code E compile strip).
        destruct (prompt_expression _ _ _ _ _ _ _ stdin) as [[[r' rest'] out']|] eqn:Hrec;
          [|discriminate].
        destruct (IH _ _ _ _ Hrec) as [Hp Hf].
        destruct r' as [v|e']; intros [= <- <- <-]; (split; [exact Hp|]).
        -- intros e [=].
        -- exact Hf.
Qed.
End MainFacts.

(** A value for which [value <= 0.0] is false is above zero or not a
    number. *)
Lemma not_leb_zero (v : float) :
  (v <=? 0)%float = false -> PrimFloat.is_nan v = true \/ (0 <? v)%float = true.
Proof.
  unfold PrimFloat.is_nan.
  rewrite FloatAxioms.leb_spec, FloatAxioms.ltb_spec, FloatAxioms.eqb_spec.
  change (Prim2SF 0) with (S754_zero false).
  destruct (Prim2SF v) as [[]|[]| |[] m e]; cbn; intros H; try discriminate H; auto.
Qed.

(** X14: [prompt_float] returns the number on the first line that is one,
    after asking again once for each line before it; with [allow_empty], an
    empty line before any number gives [float(default_value)], which raises
    [TypeError] when the default is [None]; when no line is accepted the
    call ends with [EOFError], all the input read. *)
Theorem prompt_float_reads_first_number (E : Type) (strip : string -> string)
    (float_of_str : string -> option float)
    prompt_text allow_empty default_value rejected fuel :
  Forall (not_a_number strip float_of_str allow_empty) rejected ->
  (length rejected < fuel)%nat ->
  (forall l rest x,
      float_of_str (strip l) = Some x ->
      (allow_empty = true -> strip l <> "") ->
      prompt_float E strip float_of_str fuel prompt_text allow_empty default_value
        (rejected ++ l :: rest)
      = Some (Done x, rest, asked_again E prompt_text rejected ++ [Prompt prompt_text]))
  /\ (forall l rest,
        allow_empty = true -> strip l = "" ->
        prompt_float E strip float_of_str fuel prompt_text allow_empty default_value
          (rejected ++ l :: rest)
        = Some (match default_value with
                | Some d => Done d
                | None => Failed (Uncaught TypeError)
                end,
                rest, asked_again E prompt_text rejected ++ [Prompt prompt_text]))
  /\ prompt_float E strip float_of_str fuel prompt_text allow_empty default_value rejected
     = Some (Failed EOFError, [], asked_again E prompt_text rejected ++ [Prompt prompt_text]).
Proof.
  intros Hrej Hfuel.
  replace fuel with (length rejected + S (fuel - length rejected - 1))%nat by lia.
  set (k := (fuel - length rejected - 1)%nat). clearbody k.
  split; [|split].
  - intros l rest x Hx Hne.
    rewrite (prompt_float_skips E strip float_of_str _ _ _ _ Hrej).
    cbn [prompt_float]. unfold_io.
    assert (Htest : String.eqb (strip l) "" && allow_empty = false).
    { destruct allow_empty; [|apply andb_false_r].
      rewrite andb_true_r. apply String.eqb_neq. auto. }
    rewrite Htest, Hx. reflexivity.
  - intros l rest -> Hempty.
    rewrite (prompt_float_skips E strip float_of_str _ _ _ _ Hrej).
    cbn [prompt_float]. unfold_io. rewrite Hempty. cbn.
    destruct default_value; reflexivity.
  - rewrite <- (app_nil_r rejected) at 2.
    rewrite (prompt_float_skips E strip float_of_str _ _ _ _ Hrej).
    reflexivity.
Qed.

Lemma prompt_float_reads_first_number_witness :
  prompt_float string sample_strip sample_float_of_str 5 "t0: " false None
    (["abc"; ""] ++ "0.5" :: ["1"])
  = Some (Done 0.5%float, ["1"], asked_again string "t0: " ["abc"; ""] ++ [Prompt "t0: "])
  /\ prompt_float string sample_strip sample_float_of_str 5 "t0: " true (Some 0%float)
       (["abc"] ++ "" :: ["1"])
     = Some (Done 0%float, ["1"], asked_again string "t0: " ["abc"] ++ [Prompt "t0: "])
  /\ prompt_float string sample_strip sample_float_of_str 5 "t0: " false None ["abc"; ""]
     = Some (Failed EOFError, [], asked_again string "t0: " ["abc"; ""] ++ [Prompt "t0: "]).
Proof.
  assert (H1 : Forall (not_a_number sample_strip sample_float_of_str false) ["abc"; ""]).
  { repeat constructor; discriminate. }
  assert (H2 : Forall (not_a_number sample_strip sample_float_of_str true) ["abc"]).
  { repeat constructor. discriminate. }
  split; [|split].
  - apply (proj1 (prompt_float_reads_first_number string sample_strip sample_float_of_str
                    "t0: " false None ["abc"; ""] 5 H1 ltac:(cbn; lia))).
    + reflexivity.
    + discriminate.
  - apply (proj1 (proj2 (prompt_float_reads_first_number string sample_strip
                           sample_float_of_str "t0: " true (Some 0%float) ["abc"] 5 H2
                           ltac:(cbn; lia)))); reflexivity.
  - apply (proj2 (proj2 (prompt_float_reads_first_number string sample_strip
                           sample_float_of_str "t0: " false None ["abc"; ""] 5 H1
                           ltac:(cbn; lia)))).
Defined.

(** X15: what [prompt_positive_float] returns is the number on the last line
    it read, and [value <= 0.0] is false for it: it is above zero, or it is
    not a number, for the test lets [nan] through; a first line that reads
    as [nan] is returned at once.  On an input of [n] lines the loop ends
    within [n + 1] iterations, failing with [EOFError] only. *)
Theorem prompt_positive_float_result (E : Type) (strip : string -> string)
    (float_of_str : string -> option float) prompt_text :
  (forall fuel stdin v rest out,
      prompt_positive_float E strip float_of_str fuel prompt_text stdin
      = Some (Done v, rest, out) ->
      (v <=? 0)%float = false
      /\ (PrimFloat.is_nan v = true \/ (0 <? v)%float = true)
      /\ exists used l, stdin = used ++ l :: rest /\ float_of_str (strip l) = Some v)
  /\ (forall fuel l rest,
        float_of_str (strip l) = Some nan ->
        prompt_positive_float E strip float_of_str (S fuel) prompt_text (l :: rest)
        = Some (Done nan, rest, [Prompt prompt_text]))
  /\ (forall fuel stdin,
        (length stdin < fuel)%nat ->
        exists r rest out,
          prompt_positive_float E strip float_of_str fuel prompt_text stdin
          = Some (r, rest, out)
          /\ forall e, r = Failed e -> e = EOFError /\ rest = []).
Proof.
  split; [|split].
  - intros fuel stdin v rest out H.
    destruct (prompt_positive_float_answer E strip float_of_str _ _ _ _ _ _ H)
      as (Hv & Hl).
    split; [exact Hv|]. split; [apply not_leb_zero; exact Hv|exact Hl].
  - intros fuel l rest Hnan. cbn [prompt_positive_float prompt_float].
    unfold_io. rewrite andb_false_r, Hnan. reflexivity.
  - intros fuel stdin Hlen.
    destruct (prompt_positive_float_terminates E strip float_of_str prompt_text fuel
                stdin Hlen) as ([[r rest] out] & H).
    exists r, rest, out. split; [exact H|].
    apply (prompt_positive_float_end E strip float_of_str _ _ _ _ _ _ H).
Qed.

Lemma prompt_positive_float_result_witness :
  ((0.5 <=? 0)%float = false
   /\ (PrimFloat.is_nan 0.5 = true \/ (0 <? 0.5)%float = true)
   /\ exists used l, ["-2"; "0"; "0.5"; "1"] = used ++ l :: ["1"]
        /\ sample_float_of_str (sample_strip l) = Some 0.5%float)
  /\ prompt_positive_float string sample_strip sample_float_of_str 1 "dt: " ["nan"; "1"]
     = Some (Done nan, ["1"], [Prompt "dt: "])
  /\ exists r rest out,
       prompt_positive_float string sample_strip sample_float_of_str 3 "dt: " ["-2"; "0"]
       = Some (r, rest, out)
       /\ forall e, r = Failed e -> e = EOFError /\ rest = [].
Proof.
  split; [|split].
  - apply (proj1 (prompt_positive_float_result string sample_strip sample_float_of_str
                    "dt: ") 5%nat ["-2"; "0"; "0.5"; "1"] 0.5%float ["1"]
             [Prompt "dt: ";
              Print "  The value must be positive (greater than 0). Please try again.";
              Prompt "dt: ";
              Print "  The value must be positive (greater than 0). Please try again.";
              Prompt "dt: "]).
    reflexivity.
  - apply (proj1 (proj2 (prompt_positive_float_result string sample_strip
                           sample_float_of_str "dt: "))).
    reflexivity.
  - apply (proj2 (proj2 (prompt_positive_float_result string sample_strip
                           sample_float_of_str "dt: "))).
    cbn. lia.
Defined.

(** X16: what [prompt_expression] returns is the last line it read, stripped,
    with its code object: the text is not empty and [compile] accepted it
    under the file name ["<user " + name + ">"].  On an input of [n] lines
    the loop ends within [n + 1] iterations, failing with [EOFError]
    only. *)
Theorem prompt_expression_result (code E : Type)
    (compile : string -> string -> code + E) (strip : string -> string)
    name var_hint :
  (forall fuel stdin c text rest out,
      prompt_expression code E compile strip fuel name var_hint stdin
      = Some (Done (c, text), rest, out) ->
      text <> ""
      /\ compile text ("<user " +:+ name +:+ ">") = inl c
      /\ exists used l, stdin = used ++ l :: rest /\ text = strip l)
  /\ (forall fuel stdin,
        (length stdin < fuel)%nat ->
        exists r rest out,
          prompt_expression code E compile strip fuel name var_hint stdin
          = Some (r, rest, out)
          /\ match r with
             | Done _ => True
             | Failed e => e = EOFError /\ rest = []
             end).
Proof.
  split.
  - intros fuel stdin c text rest out H.
    apply (prompt_expression_answer code E compile strip _ _ _ _ _ _ _ _ H).
  - intros fuel stdin Hlen.
    apply (prompt_expression_terminates code E compile strip _ _ _ _ Hlen).
Qed.

Lemma prompt_expression_result_witness :
  ("y" <> ""
   /\ sample_compile "y" ("<user " +:+ "f(y, t)" +:+ ">") = inl (Name "y")
   /\ exists used l, [""; "2*"; "y"; "t"] = used ++ l :: ["t"] /\ "y" = sample_strip l)
  /\ exists r rest out,
       prompt_expression expr string sample_compile sample_strip 3 "f(y, t)" "hint"
         [""; "2*"]
       = Some (r, rest, out)
       /\ match r with
          | Done _ => True
          | Failed e => e = EOFError /\ rest = []
          end.
Proof.
  split.
  - eapply (proj1 (prompt_expression_result expr string sample_compile sample_strip
                     "f(y, t)" "hint") 5%nat [""; "2*"; "y"; "t"] (Name "y") "y" ["t"]).
    reflexivity.
  - apply (proj2 (prompt_expression_result expr string sample_compile sample_strip
                    "f(y, t)" "hint")).
    cbn. lia.
Defined.

(** ** An approximation that is exact *)

(** [abs(x - x)] is zero or not a number: it is never above zero. *)
Lemma abs_sub_self_not_above_zero (x : float) :
  (0 <? PrimFloat.abs (x - x))%float = false.
Proof.
  rewrite FloatAxioms.ltb_spec, FloatAxioms.abs_spec, sub_spec.
  change (Prim2SF 0) with (S754_zero false). unfold SF64sub.
  destruct (Prim2SF x) as [[]|[]| |s m e]; try reflexivity.
  cbn [SFsub]. rewrite Z.sub_diag. reflexivity.
Qed.

Section AnalyzerExact.
Variable g : float -> result float.

Lemma max_error_loop_exact ts :
  forall ys c,
    length ts = length ys ->
    (forall i, (i < length ts)%nat ->
       g (List.nth i ts 0%float) = Return (List.nth i ys 0%float)) ->
    max_error_loop g ts ys 0%float c = Return (0%float, c + Z.of_nat (length ts)).
Proof.
  induction ts as [|t ts IH]; intros ys c Hlen Hg.
  - cbn. do 2 f_equal. lia.
  - destruct ys as [|y ys]; [discriminate Hlen|].
    pose proof (Hg O ltac:(cbn; lia)) as H0. cbn [List.nth] in H0.
    cbn [max_error_loop]. rewrite H0. unfold_bind.
    unfold update_max, abs_error. rewrite abs_sub_self_not_above_zero.
    rewrite IH.
    + do 2 f_equal. cbn [length]. lia.
    + cbn in Hlen. lia.
    + intros i Hi. apply (Hg (S i)). cbn. lia.
Qed.
End AnalyzerExact.

(** X19: an approximation that is exact has error [0.0]: when each value of
    [y_values] is what [g] returns at the [t] of its point,
    [compute_max_error] returns [(0.0, len(t_values))], also where [g] is
    infinite or not a number.  So it is for the exact curve that
    [smooth_exact_curve] returned, compared with [g] again. *)
Theorem compute_max_error_of_exact_values g :
  (forall t_values y_values,
      length t_values = length y_values ->
      (forall i, (i < length t_values)%nat ->
         g (List.nth i t_values 0%float) = Return (List.nth i y_values 0%float)) ->
      compute_max_error g t_values y_values
      = Return (0%float, Z.of_nat (length t_values)))
  /\ (forall t0 t_end num_points T Y,
        smooth_exact_curve g t0 t_end num_points = Return (T, Y) ->
        compute_max_error g T Y = Return (0%float, clamp_points num_points)).
Proof.
  split.
  - intros ts ys Hlen Hg. unfold compute_max_error.
    rewrite (max_error_loop_exact g ts ys 0 Hlen Hg). reflexivity.
  - intros t0 t_end num_points T Y Hs.
    destruct (smooth_exact_curve_Return _ _ _ _ _ _ Hs) as (step & _ & HT & HY & Hpt).
    unfold compute_max_error. rewrite (max_error_loop_exact g T Y 0).
    + rewrite HT. reflexivity.
    + symmetry. exact HY.
    + intros i Hi. destruct (Hpt (Z.of_nat i) ltac:(lia)) as [_ Hgi].
      rewrite Nat2Z.id in Hgi. exact Hgi.
Qed.

Lemma compute_max_error_of_exact_values_witness :
  compute_max_error pole_at_four [0; 1]%float [-0.25; -0.33333333333333331]%float
  = Return (0%float, Z.of_nat (length [0; 1]%float))
  /\ compute_max_error (total_curve (fun t => t)) [2; 4; 6; 8; 10]%float [2; 4; 6; 8; 10]%float
     = Return (0%float, clamp_points 5).
Proof.
  split.
  - apply (proj1 (compute_max_error_of_exact_values pole_at_four)); [reflexivity|].
    intros [|[|i]] Hi; [reflexivity|reflexivity|cbn in Hi; lia].
  - apply (proj2 (compute_max_error_of_exact_values (total_curve (fun t => t)))
             2%float 10%float 5).
    reflexivity.
Defined.

(** ** The program on objects, on floats *)

Ltac unfold_host := unfold mbind, host_bind, mret, host_ret, raise in *.

Section OnFloats.
Variable world : Type.
Variable py : runtime world.
Hypothesis floats : float_arithmetic py.

(** With a derivative that is a function on floats, the loop on objects is
    the loop on numbers. *)
Lemma euler_loop_on_floats (f : value -> float -> host world value) f' t_end delta_t :
  (forall y t w, f (VFloat y) t w = (of_result (f' y t), w)) ->
  forall fuel t y tv yv w,
    Objects.euler_loop py f t_end delta_t fuel t (VFloat y) tv (map VFloat yv) w
    = match euler_loop f' t_end delta_t fuel t y tv yv with
      | None => None
      | Some r =>
          Some (Return (t_values r, map VFloat (y_values r)), map of_line (printed r), w)
      end.
Proof using floats.
  intros Hf. induction fuel as [|fuel IH]; intros t y tv yv w;
    cbn [Objects.euler_loop euler_loop]; destruct (t <? t_end)%float; try reflexivity.
  rewrite Hf. destruct (f' y t) as [slope|e]; cbn [of_result].
  - unfold_host. rewrite (mul_floats py floats), (add_floats py floats).
    change (map VFloat yv ++ [VFloat (y + delta_t * slope)])
      with (map VFloat yv ++ map VFloat [(y + delta_t * slope)%float]).
    rewrite <- map_app. apply IH.
  - rewrite (format_float py floats). reflexivity.
Qed.

Lemma table_rows_on_floats ts ys remaining :
  forall i w,
    Objects.table_rows py ts (map VFloat ys) remaining i w
    = (map of_table_line (fst (table_rows ts ys remaining i)),
       snd (table_rows ts ys remaining i), w).
Proof using floats.
  induction remaining as [|remaining IH]; intros i w; [reflexivity|].
  cbn [Objects.table_rows table_rows].
  destruct (nth_error ts i) as [t|]; [|reflexivity].
  rewrite List.nth_error_map. destruct (nth_error ys i) as [y|]; [|reflexivity].
  cbn [option_map]. rewrite (format_float py floats), IH.
  destruct (table_rows ts ys remaining (S i)) as [rows r]. reflexivity.
Qed.

(** The table of floats is the table of numbers. *)
Lemma print_sample_table_on_floats ts ys count w :
  Objects.print_sample_table py ts (map VFloat ys) count w
  = (map of_table_line (fst (print_sample_table ts ys count)),
     snd (print_sample_table ts ys count), w).
Proof using floats.
  unfold Objects.print_sample_table, print_sample_table. cbv zeta.
  rewrite table_rows_on_floats.
  destruct (table_rows ts ys _ 0) as [rows r]. cbn [fst snd].
  destruct r as [[]|e]; cbn [fst snd].
  - rewrite !map_app. destruct (_ <? _); reflexivity.
  - rewrite !map_app. reflexivity.
Qed.

Lemma max_error_loop_on_floats (g : float -> host world value) g' :
  (forall t w, g t w = (of_result (g' t), w)) ->
  forall ts ys m c w,
    Objects.max_error_loop py g ts (map VFloat ys) (VFloat m) c w
    = (match max_error_loop g' ts ys m c with
       | Return (m', c') => Return (VFloat m', c')
       | Raise e => Raise e
       end, w).
Proof using floats.
  intros Hg. induction ts as [|t ts IH]; intros ys m c w; [reflexivity|].
  destruct ys as [|y_e ys]; [reflexivity|].
  cbn [map Objects.max_error_loop max_error_loop]. unfold_host. rewrite Hg.
  destruct (g' t) as [y_true|e]; cbn [of_result]; [|reflexivity].
  rewrite (sub_floats py floats), (abs_float py floats), (gt_floats py floats).
  unfold mbind, result_bind, update_max, abs_error.
  destruct (m <? _)%float; apply IH.
Qed.

Lemma sample_loop_on_floats (g : float -> host world value) g' t0 step :
  (forall t w, g t w = (of_result (g' t), w)) ->
  forall remaining i T Y w,
    Objects.sample_loop g t0 step remaining i T (map VFloat Y) w
    = (match sample_loop g' t0 step remaining i T Y with
       | Return (T', Y') => Return (T', map VFloat Y')
       | Raise e => Raise e
       end, w).
Proof.
  intros Hg. induction remaining as [|remaining IH]; intros i T Y w; [reflexivity|].
  cbn [Objects.sample_loop sample_loop]. unfold mbind at 2. unfold result_bind.
  destruct (float_of_int i) as [fi|e]; [|reflexivity].
  unfold_host. rewrite Hg. unfold mbind, result_bind.
  destruct (g' _) as [y|e]; cbn [of_result]; [|reflexivity].
  change (map VFloat Y ++ [VFloat y]) with (map VFloat Y ++ map VFloat [y]).
  rewrite <- map_app. apply IH.
Qed.

Lemma smooth_exact_curve_on_floats (g : float -> host world value) g' t0 t_end num_points w :
  (forall t w, g t w = (of_result (g' t), w)) ->
  Objects.smooth_exact_curve g t0 t_end num_points w
  = (match smooth_exact_curve g' t0 t_end num_points with
     | Return (T, Y) => Return (T, map VFloat Y)
     | Raise e => Raise e
     end, w).
Proof.
  intros Hg. unfold Objects.smooth_exact_curve, smooth_exact_curve.
  unfold mbind, result_bind.
  destruct (grid_step t0 t_end (clamp_points num_points)) as [step|e]; [|reflexivity].
  apply (sample_loop_on_floats g g' t0 step Hg _ _ [] []).
Qed.
End OnFloats.

(** X22: the four functions as [main] calls them, with the functions built
    from the two expressions, do on floats what they are stated to do on
    numbers.  When [f] and [g] are functions on floats and the interpreter
    computes on floats in binary64, [euler_method], [smooth_exact_curve],
    [compute_max_error] and [print_sample_table] on objects return the
    floats, raise the exceptions and print the lines of the functions on
    numbers, and leave the state of the interpreter as it is. *)
Theorem functions_on_objects_agree_on_floats {world : Type} (py : runtime world)
    (f : value -> float -> host world value) (g : float -> host world value)
    (f' : float -> float -> result float) (g' : float -> result float) :
  float_arithmetic py ->
  (forall y t w, f (VFloat y) t w = (of_result (f' y t), w)) ->
  (forall t w, g t w = (of_result (g' t), w)) ->
  (forall fuel t0 y0 t_end delta_t w,
      Objects.euler_method py fuel f t0 (VFloat y0) t_end delta_t w
      = match euler_method fuel f' t0 y0 t_end delta_t with
        | None => None
        | Some r =>
            Some (Return (t_values r, map VFloat (y_values r)),
                  map of_line (printed r), w)
        end)
  /\ (forall t0 t_end num_points w,
        Objects.smooth_exact_curve g t0 t_end num_points w
        = (match smooth_exact_curve g' t0 t_end num_points with
           | Return (T, Y) => Return (T, map VFloat Y)
           | Raise e => Raise e
           end, w))
  /\ (forall t_values y_values w,
        Objects.compute_max_error py g t_values (map VFloat y_values) w
        = (match compute_max_error g' t_values y_values with
           | Return (max_err, compared) => Return (VFloat max_err, compared)
           | Raise e => Raise e
           end, w))
  /\ (forall t_values y_values count w,
        Objects.print_sample_table py t_values (map VFloat y_values) count w
        = (map of_table_line (fst (print_sample_table t_values y_values count)),
           snd (print_sample_table t_values y_values count), w)).
Proof.
  intros floats Hf Hg. split; [|split; [|split]].
  - intros fuel t0 y0 t_end delta_t w.
    apply (euler_loop_on_floats world py floats f f' t_end delta_t Hf fuel t0 y0 [t0] [y0] w).
  - intros t0 t_end num_points w. apply smooth_exact_curve_on_floats, Hg.
  - intros ts ys w.
    apply (max_error_loop_on_floats world py floats g g' Hg ts ys 0%float 0 w).
  - intros ts ys count w. apply print_sample_table_on_floats, floats.
Qed.

(** ** [main] *)





Section MainRuns.
Variables code E world : Type.
Variable compile : string -> string -> code + E.
Variable strip : string -> string.
Variable float_of_str : string -> option float.
Variable eval : code -> namespace -> namespace -> world -> result value * world.
Variable py : runtime world.

Lemma run_euler_method_Some fuel f t0 y0 t_end delta_t w stdin r rest out :
  run_euler_method E world py fuel f t0 y0 t_end delta_t w stdin = Some (r, rest, out) ->
  exists res lines w',
    Objects.euler_method py fuel f t0 (VFloat y0) t_end delta_t w = Some (res, lines, w')
    /\ rest = stdin /\ out = map PrintEuler lines
    /\ r = match res with
           | Return (t_vals, y_vals) => Done (t_vals, y_vals, w')
           | Raise e => Failed (Uncaught e)
           end.
Proof.
  unfold run_euler_method.
  destruct (Objects.euler_method _ _ _ _ _ _ _ _) as [[[[[tv yv]|e] lines] w']|];
    [| |discriminate]; intros [= <- <- <-]; eexists _, _, _; repeat split.
Qed.

Lemma run_print_sample_table_Some t_vals y_vals count w stdin r rest out :
  run_print_sample_table E world py t_vals y_vals count w stdin = Some (r, rest, out) ->
  exists lines res w',
    Objects.print_sample_table py t_vals y_vals count w = (lines, res, w')
    /\ rest = stdin /\ out = map PrintTable lines
    /\ r = match res with
           | Return _ => Done w'
           | Raise e => Failed (Uncaught e)
           end.
Proof.
  unfold run_print_sample_table.
  destruct (Objects.print_sample_table _ _ _ _ _) as [[lines [[]|e]] w'];
    unfold_io; intros [= <- <- <-]; eexists _, _, _; rewrite ?app_nil_r; repeat split.
Qed.

Lemma run_plt_Some c w stdin r rest out :
  run_plt E world py c w stdin = Some (r, rest, out) ->
  rest = stdin /\ out = [Plt c]
  /\ r = match plt py c w with
         | (Return _, w') => Done w'
         | (Raise e, _) => Failed (Uncaught e)
         end.
Proof.
  unfold run_plt. destruct (plt py c w) as [[[]|e] w'];
    unfold_io; intros [= <- <- <-]; repeat split.
Qed.
End MainRuns.






Lemma plotted_text {E} (o : output E) (l : list (output E)) :
  match o with Plt _ => False | _ => True end -> plotted ([o] ++ l) = plotted l.
Proof. destruct o; intros H; try contradiction; reflexivity. Qed.

Ltac no_failure H :=
  let u := fresh "u" in
  let Hw := fresh "Hw" in
  let Hd := fresh "Hd" in
  let rest1 := fresh "rest" in
  let out1 := fresh "out" in
  let out2 := fresh "out" in
  apply io_bind_Some in H as [(? & Hw & _)|(u & rest1 & out1 & out2 & Hw & H & ->)];
  [apply write_Some in Hw as (Hd & _); discriminate Hd
  |apply write_Some in Hw as (_ & -> & ->); clear u].

Ltac prompt_step H a Hm He :=
  let e := fresh "e" in
  let rest1 := fresh "rest" in
  let out1 := fresh "out" in
  let out2 := fresh "out" in
  apply io_bind_Some in H as [(e & Hm & He)|(a & rest1 & out1 & out2 & Hm & H & ->)].

(** A call of [plt] that returns by [Hrun] is not where a run failed. *)
Ltac plt_returns H Hrun :=
  let w' := fresh "w" in
  let Hp := fresh "Hp" in
  let He := fresh "He" in
  let Hd := fresh "Hd" in
  let Hq := fresh "Hq" in
  prompt_step H w' Hp He;
  [pose proof (fun Hc => Hrun _ _ _ _ _ _ Hc Hp) as Hq;
   destruct Hq as (? & Hd); [first [exact I|eexists; reflexivity]|discriminate Hd]|].

(** Step 11 is not where a run failed. *)
Ltac max_error_reported H :=
  let w' := fresh "w" in
  let Hme := fresh "Hme" in
  let He := fresh "He" in
  let He' := fresh "He" in
  let u := fresh "u" in
  let Hc := fresh "Hc" in
  let Hd := fresh "Hd" in
  prompt_step H w' Hme He;
  [destruct (Objects.compute_max_error _ _ _ _ _) as [[[? ?]|?] ?];
   [no_failure Hme; destruct (py_format _ _ _ _) as [[[]|?] ?];
    [no_failure Hme; discriminate Hme
    |prompt_step Hme u Hc He'; [|discriminate Hme];
     unfold could_not_compute in Hc; no_failure Hc; no_failure Hc;
     apply write_Some in Hc as (Hd & _); discriminate Hd]
   |prompt_step Hme u Hc He'; [|discriminate Hme];
    unfold could_not_compute in Hc; no_failure Hc; no_failure Hc;
    apply write_Some in Hc as (Hd & _); discriminate Hd]
  |].

Section MainOnFloats.
Variables code E world : Type.
Variable compile : string -> string -> code + E.
Variable strip : string -> string.
Variable float_of_str : string -> option float.
Variable eval : code -> namespace -> namespace -> world -> result value * world.
Variable py : runtime world.
Hypothesis floats : float_arithmetic py.

(** On floats the call of [euler_method] in [main] does not fail, and gives
    what the function on numbers gives. *)
Lemma run_euler_method_on_floats fuel c f t0 y0 t_end delta_t w stdin r rest out :
  float_valued_f eval c f ->
  run_euler_method E world py fuel (call_f eval (build_f_function c)) t0 y0 t_end delta_t
    w stdin = Some (r, rest, out) ->
  exists tr,
    euler_method fuel f t0 y0 t_end delta_t = Some tr
    /\ r = Done (t_values tr, map VFloat (y_values tr), w)
    /\ rest = stdin
    /\ out = map PrintEuler (map of_line (printed tr)).
Proof using floats.
  intros Hf H. apply run_euler_method_Some in H as (res & lines & w' & He & -> & -> & ->).
  unfold Objects.euler_method in He.
  change [VFloat y0] with (map VFloat [y0]) in He.
  rewrite (euler_loop_on_floats world py floats _ f t_end delta_t Hf) in He.
  fold (euler_method fuel f t0 y0 t_end delta_t) in He.
  destruct (euler_method fuel f t0 y0 t_end delta_t) as [tr|]; [|discriminate].
  injection He as <- <- <-. exists tr. auto.
Qed.

(** The table of a trajectory of floats is printed to its end. *)
Lemma run_print_sample_table_on_floats fuel f t0 y0 t_end delta_t tr count w stdin r rest out :
  euler_method fuel f t0 y0 t_end delta_t = Some tr ->
  run_print_sample_table E world py (t_values tr) (map VFloat (y_values tr)) count w stdin
  = Some (r, rest, out) ->
  r = Done w /\ rest = stdin
  /\ out = map PrintTable
             (map of_table_line (fst (print_sample_table (t_values tr) (y_values tr) count))).
Proof using floats.
  intros Htr H. unfold euler_method in Htr.
  destruct (euler_loop_extends f t_end delta_t fuel t0 y0 [t0] [y0] tr Htr)
    as (tv & yv & Ht & Hy & Hlen).
  assert (Hsame : (length (t_values tr) <= length (y_values tr))%nat)
    by (rewrite Ht, Hy, !length_app, Hlen; cbn; lia).
  apply run_print_sample_table_Some in H as (lines & res & w' & Hp & -> & -> & ->).
  rewrite (print_sample_table_on_floats world py floats) in Hp.
  rewrite (print_sample_table_returns _ _ count Hsame) in Hp. cbn [fst snd] in Hp.
  injection Hp as <- <- <-.
  rewrite (print_sample_table_returns _ _ count Hsame). repeat split.
Qed.
End MainOnFloats.

(** X18: when the two expressions entered are functions on floats, the
    interpreter computes on floats in binary64 and [plt] returns when it is
    handed floats, a run of [main] stops on an exception
    in one case only: [EOFError] at the end of the input while a prompt is
    waiting, with nothing plotted yet.  Once the six answers are read
    nothing stops it: the exceptions of [f] are caught by [euler_method],
    those of [g] by the two [try] statements, and the table has no index out
    of range.  (Without the first condition it is not so: the expression
    ["sin"] evaluates to a function, and the run stops on the [TypeError]
    of [delta_t * slope].) *)
Theorem main_stops_at_end_of_input_only (code E world : Type)
    (compile : string -> string -> code + E)
    (strip : string -> string) (float_of_str : string -> option float)
    (eval : code -> namespace -> namespace -> world -> result value * world)
    (py : runtime world) fuel w stdin e rest out :
  float_arithmetic py ->
  float_valued_input compile strip eval fuel stdin ->
  (forall c w, floats_plotted c -> fst (plt py c w) = Return tt) ->
  main code E world compile strip float_of_str eval py fuel w stdin
  = Some (Failed e, rest, out) ->
  e = EOFError /\ rest = [] /\ plotted out = [].
Proof.
  intros floats Hexpr Hplt H. unfold main in H.
  no_failure H. rewrite plotted_text by exact I.
  prompt_step H fx Hf He.
  { injection He as <-. destruct (prompt_expression_end _ _ _ _ _ _ _ _ _ _ _ Hf) as [P F].
    destruct (F _ eq_refl) as [-> ->]. auto. }
  rewrite plotted_app.
  destruct (prompt_expression_end _ _ _ _ _ _ _ _ _ _ _ Hf) as [-> _]. cbn [app].
  destruct fx as [f_code f_text].
  prompt_step H gx Hg He.
  { injection He as <-. destruct (prompt_expression_end _ _ _ _ _ _ _ _ _ _ _ Hg) as [P F].
    destruct (F _ eq_refl) as [-> ->]. auto. }
  rewrite plotted_app.
  destruct (prompt_expression_end _ _ _ _ _ _ _ _ _ _ _ Hg) as [-> _]. cbn [app].
  destruct gx as [g_code g_text].
  destruct (Hexpr f_code g_code) as (f & g & Hfv & Hgv).
  { do 6 eexists. split; [exact Hf|exact Hg]. }
  clear Hexpr.
  prompt_step H delta_t Hdt He.
  { injection He as <-. destruct (prompt_positive_float_end _ _ _ _ _ _ _ _ _ Hdt) as [P F].
    destruct (F _ eq_refl) as [-> ->]. auto. }
  rewrite plotted_app.
  destruct (prompt_positive_float_end _ _ _ _ _ _ _ _ _ Hdt) as [-> _]. cbn [app].
  prompt_step H t0 Ht0 He.
  { injection He as <-. destruct (prompt_float_end _ _ _ _ _ _ _ _ _ _ _ Ht0) as [P F].
    destruct (F _ eq_refl) as [[-> ->]|(_ & Hnone & _)]; [auto|discriminate Hnone]. }
  rewrite plotted_app.
  destruct (prompt_float_end _ _ _ _ _ _ _ _ _ _ _ Ht0) as [-> _]. cbn [app].
  prompt_step H t_end Hte He.
  { injection He as <-. destruct (prompt_t_end_end _ _ _ _ _ _ _ _ _ Hte) as (P & F & _).
    destruct (F _ eq_refl) as [-> ->]. auto. }
  rewrite plotted_app.
  destruct (prompt_t_end_end _ _ _ _ _ _ _ _ _ Hte) as (-> & _ & _). cbn [app].
  prompt_step H y0 Hy0 He.
  { injection He as <-. destruct (prompt_float_end _ _ _ _ _ _ _ _ _ _ _ Hy0) as [P F].
    destruct (F _ eq_refl) as [[-> ->]|(Hae & _)]; [auto|discriminate Hae]. }
  exfalso.
  no_failure H. no_failure H.
  prompt_step H trx Htr He.
  { destruct (run_euler_method_on_floats _ _ _ _ _ floats _ _ _ _ _ _ _ _ _ _ _ _ Hfv Htr)
      as (tr & _ & Hd & _).
    discriminate Hd. }
  destruct (run_euler_method_on_floats _ _ _ _ _ floats _ _ _ _ _ _ _ _ _ _ _ _ Hfv Htr)
    as (tr & Heuler & [= ->] & _).
  cbn beta iota in H.
  no_failure H.
  prompt_step H x1 Htab He.
  { destruct (run_print_sample_table_on_floats _ _ _ floats _ _ _ _ _ _ _ _ _ _ _ _ _
                Heuler Htab) as (Hd & _). discriminate Hd. }
  assert (Hrun : forall pc pw pin pr prest pout,
            floats_plotted pc ->
            run_plt E world py pc pw pin = Some (pr, prest, pout) ->
            exists w', pr = Done w').
  { intros pc pw pin pr prest pout Hpc Hr. apply run_plt_Some in Hr as (_ & _ & ->).
    specialize (Hplt pc pw Hpc).
    destruct (plt py pc pw) as [[[]|e'] w']; [eauto|discriminate]. }
  rewrite (smooth_exact_curve_on_floats world _ g _ _ _ _ Hgv) in H.
  destruct (smooth_exact_curve g t0 t_end 200) as [[T Y]|e']; cbv beta iota in H.
  - prompt_step H x2 Hex He; [discriminate Hex|].
    plt_returns H Hrun. plt_returns H Hrun. plt_returns H Hrun.
    do 5 plt_returns H Hrun.
    max_error_reported H.
    plt_returns H Hrun.
    do 3 no_failure H.
    apply write_Some in H as (Hd & _). discriminate Hd.
  - prompt_step H x2 Hex He.
    { no_failure Hex. no_failure Hex. no_failure Hex.
      apply write_Some in Hex as (Hd & _). discriminate Hd. }
    plt_returns H Hrun. plt_returns H Hrun.
    prompt_step H w6 Hpe He; [discriminate Hpe|].
    do 5 plt_returns H Hrun.
    max_error_reported H.
    plt_returns H Hrun.
    do 3 no_failure H.
    apply write_Some in H as (Hd & _). discriminate Hd.
Qed.

(** ** What [main] reports *)



Section Dialogues.
Variables code E : Type.
Variable compile : string -> string -> code + E.
Variable strip : string -> string.
Variable float_of_str : string -> option float.




End Dialogues.








(** ** The stand-ins *)

Lemma sample_runtime_floats : float_arithmetic sample_runtime.
Proof. constructor; reflexivity. Qed.

Lemma sample_plt_returns c w : floats_plotted c -> fst (plt sample_runtime c w) = Return tt.
Proof.
  assert (H : forall l, forallb (fun y => match y with VFloat _ => true | _ => false end)
                          (map VFloat l) = true).
  { induction l as [|x l IH]; [reflexivity|exact IH]. }
  destruct c; cbn; try reflexivity; intros (l & ->); rewrite H; reflexivity.
Qed.

Lemma sample_compile_names_of text filename c :
  sample_compile text filename = inl c -> c = Name "y" \/ c = Name "t".
Proof.
  unfold sample_compile. destruct (String.eqb text "y"); [intros [= <-]; auto|].
  destruct (String.eqb text "t"); [intros [= <-]; auto|discriminate].
Qed.

Lemma sample_input_float_valued fuel stdin :
  float_valued_input sample_compile sample_strip (@eval_code unit floats_only) fuel stdin.
Proof.
  unfold float_valued_input, float_valued_f, float_valued_g.
  intros f_code g_code (f_text & rest1 & out1 & g_text & rest2 & out2 & Hf & Hg).
  exists (sample_f f_code), (sample_g g_code).
  destruct (prompt_expression_answer _ _ _ _ _ _ _ _ _ _ _ _ Hf) as (_ & Hfc & _).
  destruct (prompt_expression_answer _ _ _ _ _ _ _ _ _ _ _ _ Hg) as (_ & Hgc & _).
  apply sample_compile_names_of in Hfc, Hgc.
  split.
  - destruct Hfc as [-> | ->]; intros; vm_compute; reflexivity.
  - destruct Hgc as [-> | ->]; intros; vm_compute; reflexivity.
Qed.

(** [f(y, t) = y] and [g(t) = t], through the stand-ins. *)
Lemma functions_on_objects_agree_on_floats_witness :
  (forall fuel t0 y0 t_end delta_t (w : unit),
      Objects.euler_method sample_runtime fuel
        (call_f (eval_code floats_only) (build_f_function (Name "y")))
        t0 (VFloat y0) t_end delta_t w
      = match euler_method fuel (sample_f (Name "y")) t0 y0 t_end delta_t with
        | None => None
        | Some r =>
            Some (Return (t_values r, map VFloat (y_values r)),
                  map of_line (printed r), w)
        end)
  /\ (forall t0 t_end num_points (w : unit),
        Objects.smooth_exact_curve
          (call_g (eval_code floats_only) (build_g_function (Name "t")))
          t0 t_end num_points w
        = (match smooth_exact_curve (sample_g (Name "t")) t0 t_end num_points with
           | Return (T, Y) => Return (T, map VFloat Y)
           | Raise e => Raise e
           end, w))
  /\ (forall t_values y_values (w : unit),
        Objects.compute_max_error sample_runtime
          (call_g (eval_code floats_only) (build_g_function (Name "t")))
          t_values (map VFloat y_values) w
        = (match compute_max_error (sample_g (Name "t")) t_values y_values with
           | Return (max_err, compared) => Return (VFloat max_err, compared)
           | Raise e => Raise e
           end, w))
  /\ (forall t_values y_values count (w : unit),
        Objects.print_sample_table sample_runtime t_values (map VFloat y_values) count w
        = (map of_table_line (fst (print_sample_table t_values y_values count)),
           snd (print_sample_table t_values y_values count), w)).
Proof.
  apply (functions_on_objects_agree_on_floats sample_runtime
           (call_f (eval_code floats_only) (build_f_function (Name "y")))
           (call_g (eval_code floats_only) (build_g_function (Name "t")))
           (sample_f (Name "y")) (sample_g (Name "t")) sample_runtime_floats).
  - intros y t w. vm_compute. reflexivity.
  - intros t w. vm_compute. reflexivity.
Defined.


Lemma main_stops_at_end_of_input_only_witness :
  exists e rest out,
    main expr string unit sample_compile sample_strip sample_float_of_str
      (eval_code floats_only) sample_runtime 5 tt ["y"; "t"; "0.5"]
    = Some (Failed e, rest, out)
    /\ e = EOFError /\ rest = [] /\ plotted out = [].
Proof.
  eexists _, _, _. split; [vm_compute; reflexivity|].
  apply (main_stops_at_end_of_input_only expr string unit sample_compile sample_strip
           sample_float_of_str (eval_code floats_only) sample_runtime 5 tt
           ["y"; "t"; "0.5"]).
  - exact sample_runtime_floats.
  - apply sample_input_float_valued.
  - exact sample_plt_returns.
  - vm_compute. reflexivity.
Defined.



(** ** A step that is not a number *)

(** X21: a step that is not a number, which [prompt_positive_float] lets
    through, ends the run after one iteration: with [t0 < t_end] and [f]
    returning at the initial point, [euler_method] returns two points, the
    initial one and [(nan, nan)], and prints nothing. *)
Theorem euler_method_with_nan_step f t0 y0 t_end delta_t slope fuel :
  PrimFloat.is_nan delta_t = true ->
  (t0 <? t_end)%float = true ->
  f y0 t0 = Return slope ->
  euler_method (S fuel) f t0 y0 t_end delta_t
  = Some (EulerOutput [t0; nan] [y0; nan] []).
Proof.
  intros Hnan Hlt Hf. apply FloatNan.is_nan_eq in Hnan. subst delta_t.
  unfold euler_method. cbn [euler_loop]. rewrite Hlt, Hf.
  rewrite FloatNan.nan_mul, !FloatNan.add_nan.
  destruct fuel; cbn [euler_loop]; rewrite FloatNan.nan_not_below; reflexivity.
Qed.

Lemma euler_method_with_nan_step_witness :
  euler_method 1 (never_fails (fun y _ => y)) 0 1 5 nan
  = Some (EulerOutput [0%float; nan] [1%float; nan] []).
Proof.
  apply (euler_method_with_nan_step (never_fails (fun y _ => y)) 0 1 5 nan 1 0)%float;
    reflexivity.
Defined.
